(** * Port berth allocation simulator: model and verification

    A shallow embedding of [grafana/streaming.py] (class
    [PortDataSimulator]) and of the duration helper of [grafana/vessel.py].

    The simulator keeps all of its entities in a PostgreSQL database that it
    reaches through one psycopg2 connection.  The embedding keeps

    - the tables as lists of rows, in scan order;
    - the open transaction as a working copy of the tables, made durable by
      [commit] and dropped by [rollback];
    - [datetime.now()], the [random] module and store failures as oracles held
      by the world: a clock and an entropy source that are read in program
      order, and a countdown to the next failing store call. *)

From Stdlib Require Import ZArith List Bool Lia String QArith Qround.
From Stdlib Require Import DecimalString.
Import ListNotations.
Open Scope string_scope.
Open Scope Z_scope.

(* ------------------------------------------------------------------ *)
(** ** [datetime] and [timedelta] *)

Module Datetime.

(** Both have microsecond resolution: a [datetime] is the number of
    microseconds since a fixed epoch, a [timedelta] a number of
    microseconds.  A [datetime] stands for an instant: the readings
    [datetime.now()] and [datetime.now(timezone.utc)] and the timestamps read
    back from the store are taken on one time line (the column types of the
    tables are not part of the Python sources). *)
Definition datetime := Z.
Definition timedelta := Z.

Definition seconds (n : Z) : timedelta := n * 1000000.
Definition minutes (n : Z) : timedelta := seconds (n * 60).

(** [int(td.total_seconds())]: the fractional part is dropped, towards
    zero.  The source goes through a float: [total_seconds()] is the double
    nearest to the quotient, which is the quotient itself for a whole number
    of seconds, and for any [td] of less than 2^53 microseconds (some 285
    years) has the same integer part.  The model has the exact quotient for
    every [td]. *)
Definition int_total_seconds (td : timedelta) : Z := Z.quot td 1000000.

(** [n] is [td] in seconds, to within less than a second.  The rounding of
    a float does not cross a whole number, so that this holds of
    [int(td.total_seconds())] for every [td], however the float is
    rounded. *)
Definition whole_seconds_of (td : timedelta) (n : Z) : Prop :=
  Z.abs (seconds n - td) < seconds 1.

End Datetime.
Import Datetime.

(* ------------------------------------------------------------------ *)
(** ** The [random] module, over one raw draw of the entropy source *)

Module Random.

(** [random.randint(a, b)]: an integer of the closed range [a..b]. *)
Definition randint (a b : Z) (raw : Z) : Z := a + raw mod (b - a + 1).

(** [random.choice(seq)] on a sequence that is not empty. *)
Definition choice {A} (dflt : A) (seq : list A) (raw : Z) : A :=
  nth (Z.to_nat (raw mod Z.of_nat (List.length seq))) seq dflt.

Fixpoint pick_weighted {A} (dflt : A) (items : list (A * Z)) (r : Z) : A :=
  match items with
  | [] => dflt
  | (x, wt) :: rest => if r <? wt then x else pick_weighted dflt rest (r - wt)
  end.

(** [random.choices(population, weights=...)[0]]; the weights are given as
    integers in the proportions of the source. *)
Definition choices {A} (dflt : A) (items : list (A * Z)) (raw : Z) : A :=
  pick_weighted dflt items (raw mod (fold_right Z.add 0 (map snd items))).

(** [random.random() < p] for [p] given in hundredths. *)
Definition random_below (hundredths : Z) (raw : Z) : bool :=
  raw mod 100 <? hundredths.

End Random.

(* ------------------------------------------------------------------ *)
(** ** The tables *)

Module vessels.
Record row := {
  vessel_id : Z;
  vessel_name : string;
  vessel_type : string;
  priority : Z;
  estimated_duration : Z
}.
End vessels.

Module berths.
Inductive state := available | occupied | maintenance.
Record row := {
  berth_id : Z;
  berth_number : Z;
  status : state;
  start_maintenance : option datetime;
  end_maintenance : option datetime;
  updated_at : option datetime
}.
Definition status_eqb (a b : state) : bool :=
  match a, b with
  | available, available | occupied, occupied | maintenance, maintenance => true
  | _, _ => false
  end.
End berths.

Module vessel_queue.
Inductive state := waiting | in_service | completed.
Record row := {
  vessel_id : Z;
  arrival_time : datetime;
  status : state;
  start_service_time : option datetime;
  end_service_time : option datetime
}.
Definition status_eqb (a b : state) : bool :=
  match a, b with
  | waiting, waiting | in_service, in_service | completed, completed => true
  | _, _ => false
  end.
End vessel_queue.

Module operations.
Inductive state := in_progress | completed.
Record row := {
  operation_id : Z;
  vessel_id : Z;
  berth_id : Z;
  operation_type : string;
  start_time : datetime;
  end_time : datetime;
  status : state;
  planned_duration : Z;
  actual_duration : option Z
}.
Definition status_eqb (a b : state) : bool :=
  match a, b with
  | in_progress, in_progress | completed, completed => true
  | _, _ => false
  end.
End operations.

Module customs_clearance.
Record row := { vessel_id : Z; status : string }.
End customs_clearance.

Record DB := {
  t_vessels : list vessels.row;
  t_berths : list berths.row;
  t_vessel_queue : list vessel_queue.row;
  t_operations : list operations.row;
  t_customs_clearance : list customs_clearance.row
}.

(** A key handed out by the store on INSERT (a serial column): one more than
    the largest key of the table, so it is new to the table. *)
Definition next_key (keys : list Z) : Z := 1 + fold_right Z.max 0 keys.

(* ------------------------------------------------------------------ *)
(** ** The SQL statements of [streaming.py], as functions on the tables *)

Module Sql.

Definition is_waiting (q : vessel_queue.row) : bool :=
  vessel_queue.status_eqb (vessel_queue.status q) vessel_queue.waiting.

Definition is_available (b : berths.row) : bool :=
  berths.status_eqb (berths.status b) berths.available.

(** [SELECT COUNT( * ) FROM vessel_queue WHERE status = 'waiting'] *)
Definition count_waiting (d : DB) : Z :=
  Z.of_nat (List.length (filter is_waiting (t_vessel_queue d))).

(** [SELECT berth_id, berth_number FROM berths WHERE status = 'available'] *)
Definition select_available_berths (d : DB) : list (Z * Z) :=
  map (fun b => (berths.berth_id b, berths.berth_number b))
      (filter is_available (t_berths d)).

(** [vessel_queue vq JOIN vessels v ON vq.vessel_id = v.vessel_id
     WHERE vq.status = 'waiting'] *)
Definition waiting_joined (d : DB) : list (vessel_queue.row * vessels.row) :=
  flat_map
    (fun vq =>
       map (pair vq)
           (filter (fun v => vessels.vessel_id v =? vessel_queue.vessel_id vq)
                   (t_vessels d)))
    (filter is_waiting (t_vessel_queue d)).

(** [x] comes strictly before [y] under
    [ORDER BY v.priority DESC, vq.arrival_time ASC]. *)
Definition precedes (x y : vessel_queue.row * vessels.row) : bool :=
  (vessels.priority (snd y) <? vessels.priority (snd x))
  || ((vessels.priority (snd x) =? vessels.priority (snd y))
      && (vessel_queue.arrival_time (fst x) <? vessel_queue.arrival_time (fst y))).

(** [ORDER BY ... LIMIT 1]: the first row of the order; among rows that tie
    on both keys the store may return any, the model returns the one met
    first in the scan. *)
Fixpoint first_in_order (rows : list (vessel_queue.row * vessels.row))
  : option (vessel_queue.row * vessels.row) :=
  match rows with
  | [] => None
  | x :: rest =>
      match first_in_order rest with
      | None => Some x
      | Some y => if precedes y x then Some y else Some x
      end
  end.

(** The SELECT of the allocation loop: vessel_id, vessel_name, priority,
    estimated_duration, arrival_time of the head of the queue. *)
Definition select_next_ship (d : DB) : option (Z * string * Z * Z * datetime) :=
  match first_in_order (waiting_joined d) with
  | None => None
  | Some (vq, v) =>
      Some (vessel_queue.vessel_id vq, vessels.vessel_name v, vessels.priority v,
            vessels.estimated_duration v, vessel_queue.arrival_time vq)
  end.

(** [UPDATE vessel_queue SET ... WHERE ...], [UPDATE berths SET ... WHERE
    ...] and [UPDATE operations SET ... WHERE ...]: the rows that satisfy
    the WHERE clause are rewritten in place. *)
Definition update_vessel_queue (set : vessel_queue.row -> vessel_queue.row)
           (where_ : vessel_queue.row -> bool) (d : DB) : DB :=
  {| t_vessels := t_vessels d;
     t_berths := t_berths d;
     t_vessel_queue := map (fun q => if where_ q then set q else q) (t_vessel_queue d);
     t_operations := t_operations d;
     t_customs_clearance := t_customs_clearance d |}.

Definition update_berths (set : berths.row -> berths.row)
           (where_ : berths.row -> bool) (d : DB) : DB :=
  {| t_vessels := t_vessels d;
     t_berths := map (fun b => if where_ b then set b else b) (t_berths d);
     t_vessel_queue := t_vessel_queue d;
     t_operations := t_operations d;
     t_customs_clearance := t_customs_clearance d |}.

Definition update_operations (set : operations.row -> operations.row)
           (where_ : operations.row -> bool) (d : DB) : DB :=
  {| t_vessels := t_vessels d;
     t_berths := t_berths d;
     t_vessel_queue := t_vessel_queue d;
     t_operations := map (fun o => if where_ o then set o else o) (t_operations d);
     t_customs_clearance := t_customs_clearance d |}.

Definition to_in_service (start : datetime) (q : vessel_queue.row) : vessel_queue.row :=
  {| vessel_queue.vessel_id := vessel_queue.vessel_id q;
     vessel_queue.arrival_time := vessel_queue.arrival_time q;
     vessel_queue.status := vessel_queue.in_service;
     vessel_queue.start_service_time := Some start;
     vessel_queue.end_service_time := vessel_queue.end_service_time q |}.

(** [UPDATE vessel_queue SET start_service_time = %s, status = 'in_service'
     WHERE vessel_id = %s] *)
Definition queue_start_service (start : datetime) (vid : Z) : DB -> DB :=
  update_vessel_queue (to_in_service start)
                      (fun q => vessel_queue.vessel_id q =? vid).

Definition to_occupied (at_ : datetime) (b : berths.row) : berths.row :=
  {| berths.berth_id := berths.berth_id b;
     berths.berth_number := berths.berth_number b;
     berths.status := berths.occupied;
     berths.start_maintenance := berths.start_maintenance b;
     berths.end_maintenance := berths.end_maintenance b;
     berths.updated_at := Some at_ |}.

(** [UPDATE berths SET status = 'occupied', updated_at = %s
     WHERE berth_id = %s] *)
Definition berth_occupy (at_ : datetime) (bid : Z) : DB -> DB :=
  update_berths (to_occupied at_) (fun b => berths.berth_id b =? bid).

(** [INSERT INTO operations (vessel_id, berth_id, operation_type,
     start_time, end_time, status, planned_duration) VALUES (...)] *)
Definition insert_operation (vid bid : Z) (op_type : string)
           (start end_ : datetime) (planned : Z) (d : DB) : DB :=
  {| t_vessels := t_vessels d;
     t_berths := t_berths d;
     t_vessel_queue := t_vessel_queue d;
     t_operations :=
       t_operations d ++
       [ {| operations.operation_id :=
              next_key (map operations.operation_id (t_operations d));
            operations.vessel_id := vid;
            operations.berth_id := bid;
            operations.operation_type := op_type;
            operations.start_time := start;
            operations.end_time := end_;
            operations.status := operations.in_progress;
            operations.planned_duration := planned;
            operations.actual_duration := None |} ];
     t_customs_clearance := t_customs_clearance d |}.

(** [SELECT berth_id, berth_number FROM berths WHERE status = 'available'
     ORDER BY RANDOM() LIMIT 1]; [raw] is the store's own draw. *)
Definition select_random_available_berth (raw : Z) (d : DB) : option (Z * Z) :=
  match select_available_berths d with
  | [] => None
  | b :: rest => Some (Random.choice b (b :: rest) raw)
  end.

Definition to_maintenance (start end_ : datetime) (b : berths.row) : berths.row :=
  {| berths.berth_id := berths.berth_id b;
     berths.berth_number := berths.berth_number b;
     berths.status := berths.maintenance;
     berths.start_maintenance := Some start;
     berths.end_maintenance := Some end_;
     berths.updated_at := Some start |}.

(** [UPDATE berths SET status = 'maintenance', start_maintenance = %s,
     end_maintenance = %s, updated_at = %s
     WHERE berth_id = %s AND status = 'available'] *)
Definition berth_start_maintenance (start end_ : datetime) (bid : Z) : DB -> DB :=
  update_berths (to_maintenance start end_)
                (fun b => (berths.berth_id b =? bid) && is_available b).

(** The WHERE clause [status = 'maintenance' AND end_maintenance <= %s];
    a NULL [end_maintenance] does not satisfy it. *)
Definition maintenance_elapsed (now : datetime) (b : berths.row) : bool :=
  berths.status_eqb (berths.status b) berths.maintenance
  && match berths.end_maintenance b with
     | Some e => e <=? now
     | None => false
     end.

Definition out_of_maintenance (now : datetime) (b : berths.row) : berths.row :=
  {| berths.berth_id := berths.berth_id b;
     berths.berth_number := berths.berth_number b;
     berths.status := berths.available;
     berths.start_maintenance := None;
     berths.end_maintenance := None;
     berths.updated_at := Some now |}.

(** [UPDATE berths SET status = 'available', updated_at = %s,
     start_maintenance = NULL, end_maintenance = NULL
     WHERE status = 'maintenance' AND end_maintenance <= %s
     RETURNING berth_number] *)
Definition berths_end_maintenance (now : datetime) (d : DB) : list Z * DB :=
  (map berths.berth_number (filter (maintenance_elapsed now) (t_berths d)),
   update_berths (out_of_maintenance now) (maintenance_elapsed now) d).

(** The WHERE clause [o.status = 'in_progress' AND o.end_time <= %s]. *)
Definition operation_due (now : datetime) (o : operations.row) : bool :=
  operations.status_eqb (operations.status o) operations.in_progress
  && (operations.end_time o <=? now).

(** [SELECT o.operation_id, o.berth_id, o.vessel_id, o.start_time,
     o.planned_duration, v.vessel_name, b.berth_number
     FROM operations o JOIN vessels v ON o.vessel_id = v.vessel_id
     JOIN berths b ON o.berth_id = b.berth_id
     WHERE o.status = 'in_progress' AND o.end_time <= %s] *)
Definition select_due_operations (now : datetime) (d : DB)
  : list (Z * Z * Z * datetime * Z * string * Z) :=
  flat_map
    (fun o =>
       flat_map
         (fun v =>
            map (fun b =>
                   (operations.operation_id o, operations.berth_id o,
                    operations.vessel_id o, operations.start_time o,
                    operations.planned_duration o, vessels.vessel_name v,
                    berths.berth_number b))
                (filter (fun b => berths.berth_id b =? operations.berth_id o)
                        (t_berths d)))
         (filter (fun v => vessels.vessel_id v =? operations.vessel_id o)
                 (t_vessels d)))
    (filter (operation_due now) (t_operations d)).

Definition to_completed (actual : Z) (o : operations.row) : operations.row :=
  {| operations.operation_id := operations.operation_id o;
     operations.vessel_id := operations.vessel_id o;
     operations.berth_id := operations.berth_id o;
     operations.operation_type := operations.operation_type o;
     operations.start_time := operations.start_time o;
     operations.end_time := operations.end_time o;
     operations.status := operations.completed;
     operations.planned_duration := operations.planned_duration o;
     operations.actual_duration := Some actual |}.

(** [UPDATE operations SET status = 'completed', actual_duration = %s
     WHERE operation_id = %s] *)
Definition operation_complete (actual : Z) (op_id : Z) : DB -> DB :=
  update_operations (to_completed actual)
                    (fun o => operations.operation_id o =? op_id).

Definition to_available (at_ : datetime) (b : berths.row) : berths.row :=
  {| berths.berth_id := berths.berth_id b;
     berths.berth_number := berths.berth_number b;
     berths.status := berths.available;
     berths.start_maintenance := berths.start_maintenance b;
     berths.end_maintenance := berths.end_maintenance b;
     berths.updated_at := Some at_ |}.

(** [UPDATE berths SET status = 'available', updated_at = %s
     WHERE berth_id = %s] *)
Definition berth_release (at_ : datetime) (bid : Z) : DB -> DB :=
  update_berths (to_available at_) (fun b => berths.berth_id b =? bid).

Definition to_served (at_ : datetime) (q : vessel_queue.row) : vessel_queue.row :=
  {| vessel_queue.vessel_id := vessel_queue.vessel_id q;
     vessel_queue.arrival_time := vessel_queue.arrival_time q;
     vessel_queue.status := vessel_queue.completed;
     vessel_queue.start_service_time := vessel_queue.start_service_time q;
     vessel_queue.end_service_time := Some at_ |}.

(** [UPDATE vessel_queue SET status = 'completed', end_service_time = %s
     WHERE vessel_id = %s] *)
Definition queue_complete (at_ : datetime) (vid : Z) : DB -> DB :=
  update_vessel_queue (to_served at_) (fun q => vessel_queue.vessel_id q =? vid).

(** [INSERT INTO vessels (vessel_name, vessel_type, priority,
     estimated_duration) VALUES (...) RETURNING vessel_id] *)
Definition insert_vessel (name type : string) (prio duration : Z) (d : DB)
  : Z * DB :=
  let vid := next_key (map vessels.vessel_id (t_vessels d)) in
  (vid,
   {| t_vessels :=
        t_vessels d ++
        [ {| vessels.vessel_id := vid;
             vessels.vessel_name := name;
             vessels.vessel_type := type;
             vessels.priority := prio;
             vessels.estimated_duration := duration |} ];
      t_berths := t_berths d;
      t_vessel_queue := t_vessel_queue d;
      t_operations := t_operations d;
      t_customs_clearance := t_customs_clearance d |}).

(** [INSERT INTO customs_clearance (vessel_id, status) VALUES (%s, %s)] *)
Definition insert_customs (vid : Z) (st : string) (d : DB) : DB :=
  {| t_vessels := t_vessels d;
     t_berths := t_berths d;
     t_vessel_queue := t_vessel_queue d;
     t_operations := t_operations d;
     t_customs_clearance :=
       t_customs_clearance d ++
       [ {| customs_clearance.vessel_id := vid; customs_clearance.status := st |} ] |}.

(** [INSERT INTO vessel_queue (vessel_id, arrival_time) VALUES (%s, %s)].
    The statement names two columns only; the table definition is not part
    of the Python sources, and the other columns take the defaults that the
    rest of the program relies on: status ['waiting'] and no service
    times. *)
Definition insert_queue (vid : Z) (arrival : datetime) (d : DB) : DB :=
  {| t_vessels := t_vessels d;
     t_berths := t_berths d;
     t_vessel_queue :=
       t_vessel_queue d ++
       [ {| vessel_queue.vessel_id := vid;
            vessel_queue.arrival_time := arrival;
            vessel_queue.status := vessel_queue.waiting;
            vessel_queue.start_service_time := None;
            vessel_queue.end_service_time := None |} ];
     t_operations := t_operations d;
     t_customs_clearance := t_customs_clearance d |}.

End Sql.

(* ------------------------------------------------------------------ *)
(** ** The world the simulator runs in *)

(** The records that the steps of the loop write with [logger]: the
    [logger.info] of a berth given, an operation concluded, a maintenance
    started and a berth released, the [logger.error] of a step that has
    failed, and the [logger.warning] of an allocation pass without a
    connection.  The two constant [logger.info] lines of
    [initialize_database] are not kept. *)
Inductive log_record :=
| allocated (vessel_name : string) (berth_number : Z) (wait_time_seconds : Z)
| concluded (vessel_name : string) (berth_number : Z)
            (actual_duration planned_duration : Z) (efficiency : Q)
            (total_ships_handled : Z)
| in_maintenance (berth_number : Z) (maintenance_duration : Z)
| released (berth_number : Z)
| failed (step : string)
| connection_unavailable.

Record World := {
  (** fields of the [PortDataSimulator] object *)
  ship_counter : Z;
  duration_seconds : Z;
  total_ships_handled : Z;
  (** the committed contents of the database behind [self.db_connection];
      [None] when [connect_to_database] returned [None] *)
  db_connection : option DB;
  (** [datetime.now()]: the k-th reading is [clock k] *)
  clock : nat -> datetime;
  clock_reads : nat;
  (** the [random] module: the k-th raw draw is [entropy k] *)
  entropy : nat -> Z;
  draws : nat;
  (** store failures: [Some k] when the store call after the next [k]
      raises, [None] when none does *)
  fault_in : option nat;
  log : list log_record
}.

Definition set_ship_counter (v : Z) (w : World) : World :=
  {| ship_counter := v; duration_seconds := duration_seconds w;
     total_ships_handled := total_ships_handled w;
     db_connection := db_connection w; clock := clock w;
     clock_reads := clock_reads w; entropy := entropy w; draws := draws w;
     fault_in := fault_in w; log := log w |}.

Definition set_duration_seconds (v : Z) (w : World) : World :=
  {| ship_counter := ship_counter w; duration_seconds := v;
     total_ships_handled := total_ships_handled w;
     db_connection := db_connection w; clock := clock w;
     clock_reads := clock_reads w; entropy := entropy w; draws := draws w;
     fault_in := fault_in w; log := log w |}.

Definition set_total_ships_handled (v : Z) (w : World) : World :=
  {| ship_counter := ship_counter w; duration_seconds := duration_seconds w;
     total_ships_handled := v;
     db_connection := db_connection w; clock := clock w;
     clock_reads := clock_reads w; entropy := entropy w; draws := draws w;
     fault_in := fault_in w; log := log w |}.

Definition set_db_connection (v : option DB) (w : World) : World :=
  {| ship_counter := ship_counter w; duration_seconds := duration_seconds w;
     total_ships_handled := total_ships_handled w;
     db_connection := v; clock := clock w;
     clock_reads := clock_reads w; entropy := entropy w; draws := draws w;
     fault_in := fault_in w; log := log w |}.

Definition set_clock_reads (v : nat) (w : World) : World :=
  {| ship_counter := ship_counter w; duration_seconds := duration_seconds w;
     total_ships_handled := total_ships_handled w;
     db_connection := db_connection w; clock := clock w;
     clock_reads := v; entropy := entropy w; draws := draws w;
     fault_in := fault_in w; log := log w |}.

Definition set_draws (v : nat) (w : World) : World :=
  {| ship_counter := ship_counter w; duration_seconds := duration_seconds w;
     total_ships_handled := total_ships_handled w;
     db_connection := db_connection w; clock := clock w;
     clock_reads := clock_reads w; entropy := entropy w; draws := v;
     fault_in := fault_in w; log := log w |}.

Definition set_fault_in (v : option nat) (w : World) : World :=
  {| ship_counter := ship_counter w; duration_seconds := duration_seconds w;
     total_ships_handled := total_ships_handled w;
     db_connection := db_connection w; clock := clock w;
     clock_reads := clock_reads w; entropy := entropy w; draws := draws w;
     fault_in := v; log := log w |}.

Definition set_log (v : list log_record) (w : World) : World :=
  {| ship_counter := ship_counter w; duration_seconds := duration_seconds w;
     total_ships_handled := total_ships_handled w;
     db_connection := db_connection w; clock := clock w;
     clock_reads := clock_reads w; entropy := entropy w; draws := draws w;
     fault_in := fault_in w; log := v |}.

(** [datetime.now()] *)
Definition read_clock (w : World) : datetime * World :=
  (clock w (clock_reads w), set_clock_reads (S (clock_reads w)) w).

(** One raw draw of the entropy source. *)
Definition take_draw (w : World) : Z * World :=
  (entropy w (draws w), set_draws (S (draws w)) w).

Definition write_log (r : log_record) (w : World) : World :=
  set_log (log w ++ [r]) w.

(* ------------------------------------------------------------------ *)
(** ** The body of a [try] block: state, store transaction and exceptions *)

Module Try.

Inductive result (A : Type) :=
| Ok (a : A)
| Raise.
Arguments Ok {A} a.
Arguments Raise {A}.

(** The state of a running block: the world and the view of the tables
    inside the open transaction. *)
Definition St := (World * DB)%type.
Definition M (A : Type) := St -> result A * St.

Definition ret {A} (a : A) : M A := fun s => (Ok a, s).

Definition bind {A B} (m : M A) (f : A -> M B) : M B :=
  fun s =>
    match m s with
    | (Ok a, s') => f a s'
    | (Raise, s') => (Raise, s')
    end.

(** One call that reaches the store; it raises when the countdown of the
    world has run out. *)
Definition store_call {A} (q : St -> A * St) : M A :=
  fun s =>
    match fault_in (fst s) with
    | Some O => (Raise, (set_fault_in None (fst s), snd s))
    | Some (S k) => let (a, s') := q (set_fault_in (Some k) (fst s), snd s) in (Ok a, s')
    | None => let (a, s') := q s in (Ok a, s')
    end.

(** [cursor.execute(...)] of a SELECT, with the fetch. *)
Definition query {A} (q : DB -> A) : M A :=
  store_call (fun s => (q (snd s), s)).

(** [cursor.execute(...)] of an INSERT or UPDATE. *)
Definition execute (q : DB -> DB) : M unit :=
  store_call (fun s => (tt, (fst s, q (snd s)))).

(** [cursor.execute(...)] of an INSERT ... RETURNING, with the fetch. *)
Definition execute_returning {A} (q : DB -> A * DB) : M A :=
  store_call (fun s => let (a, d) := q (snd s) in (a, (fst s, d))).

(** [self.db_connection.commit()]: the view becomes the committed
    contents. *)
Definition commit : M unit :=
  store_call (fun s => (tt, (set_db_connection (Some (snd s)) (fst s), snd s))).

Definition now : M datetime :=
  fun s => let (t, w) := read_clock (fst s) in (Ok t, (w, snd s)).

Definition draw : M Z :=
  fun s => let (r, w) := take_draw (fst s) in (Ok r, (w, snd s)).

Definition get {A} (f : World -> A) : M A := fun s => (Ok (f (fst s)), s).

Definition modify (f : World -> World) : M unit :=
  fun s => (Ok tt, (f (fst s), snd s)).

Definition info (r : log_record) : M unit := modify (write_log r).

(** [for x in xs: body(x)] *)
Fixpoint for_each {A} (xs : list A) (body : A -> M unit) : M unit :=
  match xs with
  | [] => ret tt
  | x :: rest => bind (body x) (fun _ => for_each rest body)
  end.

(** [if not self.db_connection: return None] followed by
    [try: body  except Exception: logger.error(...); rollback(); return None].
    Every path of every body that writes to the store ends in [commit] or
    in an exception, so a block starts on the committed contents; the
    rollback drops the view of the block. *)
Definition run {A} (step : string) (body : M A) (w : World) : option A * World :=
  match db_connection w with
  | None => (None, w)
  | Some d =>
      match body (w, d) with
      | (Ok a, (w', _)) => (Some a, w')
      | (Raise, (w', _)) => (None, write_log (failed step) w')
      end
  end.

Definition guarded (step : string) (body : M unit) (w : World) : World :=
  snd (run step body w).

End Try.

Declare Scope try_scope.
Delimit Scope try_scope with try.
Notation "x <- m ;; k" := (Try.bind m (fun x => k))
  (at level 61, m at next level, right associativity) : try_scope.
Notation "m ;;; k" := (Try.bind m (fun _ => k))
  (at level 61, right associativity) : try_scope.

(* ------------------------------------------------------------------ *)
(** ** Arithmetic of the efficiency figure *)

Module Efficiency.

Inductive outcome :=
| Value (q : Q)
| ZeroDivisionError.

(** [a / b] on two ints. *)
Definition truediv (a b : Z) : outcome :=
  if b =? 0 then ZeroDivisionError else Value (inject_Z a / inject_Z b)%Q.

Definition round_half_even (x : Q) : Z :=
  let f := Qfloor x in
  match Qcompare (x - inject_Z f) (1 # 2) with
  | Lt => f
  | Gt => f + 1
  | Eq => if Z.even f then f else f + 1
  end.

(** [round(x, 2)], on the exact value of [x]: the representation error of
    binary floating point is left out. *)
Definition round2 (x : Q) : Q := Qmake (round_half_even (x * 100)) 100.

(** [round((planned_duration / actual_duration) * 100, 2)
     if actual_duration > 0 else 0] *)
Definition efficiency (planned_duration actual_duration : Z) : outcome :=
  if 0 <? actual_duration then
    match truediv planned_duration actual_duration with
    | Value q => Value (round2 (q * 100))
    | ZeroDivisionError => ZeroDivisionError
    end
  else Value 0.

End Efficiency.

(* ------------------------------------------------------------------ *)
(** ** [class PortDataSimulator] *)

Module PortDataSimulator.
Import Try.
Local Open Scope try_scope.

(** The dict returned by [generate_ship_data]. *)
Record ship_data := {
  name : string;
  type : string;
  priority : Z;
  service_duration : timedelta;
  operation_type : string;
  customs_status : string;
  arrival_time : datetime
}.

(** name, priority, duration range, operation *)
Definition ship_types : list (string * Z * (Z * Z) * string) :=
  [ ("Cargueiro", 1, (30, 60), "import");
    ("Porta-Container", 2, (40, 80), "import");
    ("Tanker", 3, (50, 90), "import");
    ("Bulk Carrier", 1, (3, 70), "export");
    ("RoRo", 2, (20, 40), "export");
    ("Frigorífico", 3, (45, 55), "import") ].

Definition prefixes : list string := ["MV"; "MS"; "MT"; "SS"].

Definition names : list string :=
  ["Atlantic"; "Pacific"; "Mediterranean"; "Baltic"; "Nordic"; "Iberian";
   "Phoenix"; "Titan"; "Neptune"; "Poseidon"; "Explorer"; "Navigator"].

Definition customs_statuses : list (string * Z) :=
  [("pending", 3); ("under_review", 2); ("approved", 5)].

Definition str (n : Z) : string := NilZero.string_of_int (Z.to_int n).

Definition generate_ship_data (w : World) : ship_data * World :=
  let w := set_ship_counter (ship_counter w + 1) w in
  let (r, w) := take_draw w in
  let '(ship_type, priority, duration_range, operation) :=
    Random.choice ("", 0, (0, 0), "") ship_types r in
  let (r, w) := take_draw w in
  let service_seconds := Random.randint 45 120 r in
  let (r, w) := take_draw w in
  let prefix := Random.choice "" prefixes r in
  let (r, w) := take_draw w in
  let ship_name := prefix ++ " " ++ Random.choice "" names r ++ " "
                   ++ str (ship_counter w) in
  let (r, w) := take_draw w in
  let customs_status := Random.choices "" customs_statuses r in
  let (t, w) := read_clock w in
  let (r, w) := take_draw w in
  ({| name := ship_name;
      type := ship_type;
      priority := priority;
      service_duration := seconds service_seconds;
      operation_type := operation;
      customs_status := customs_status;
      arrival_time := t - minutes (Random.randint 5 120 r) |},
   w).

Definition insert_vessel_to_db (ship : ship_data) : World -> option Z * World :=
  run "insert_vessel_to_db"
    (modify (set_duration_seconds (int_total_seconds (service_duration ship))) ;;;
     duration <- get duration_seconds ;;
     vessel_id <- execute_returning
                    (Sql.insert_vessel (name ship) (type ship) (priority ship) duration) ;;
     execute (Sql.insert_customs vessel_id (customs_status ship)) ;;;
     execute (Sql.insert_queue vessel_id (arrival_time ship)) ;;;
     commit ;;;
     ret vessel_id).

(** One round of the loop of [allocate_ships_to_berths], for one berth of
    the list fetched before the loop. *)
Definition allocate_berth (berth : Z * Z) : M unit :=
  let (berth_id, berth_number) := berth in
  ship <- query Sql.select_next_ship ;;
  match ship with
  | None => ret tt
  | Some (vessel_id, vessel_name, priority, estimated_completion_time, arrival_time) =>
      start_time <- now ;;
      duration <- get duration_seconds ;;
      let end_time := start_time + seconds duration in
      let wait_time_seconds := int_total_seconds (start_time - arrival_time) in
      execute (Sql.queue_start_service start_time vessel_id) ;;;
      execute (Sql.berth_occupy start_time berth_id) ;;;
      r <- draw ;;
      let operation_type := Random.choice "" ["import"; "export"] r in
      execute (Sql.insert_operation vessel_id berth_id operation_type
                                    start_time end_time duration) ;;;
      info (allocated vessel_name berth_number wait_time_seconds)
  end.

Definition allocate_body : M unit :=
  num_ships <- query Sql.count_waiting ;;
  if num_ships =? 0 then ret tt
  else
    available_berths <- query Sql.select_available_berths ;;
    match available_berths with
    | [] => ret tt
    | _ :: _ =>
        for_each available_berths allocate_berth ;;;
        commit
    end.

(** [allocate_ships_to_berths] on a simulator that has a connection. *)
Definition allocate_block : World -> World :=
  guarded "allocate_ships_to_berths" allocate_body.

(** [allocate_ships_to_berths]: alone among the steps, it writes a warning
    to the log when there is no connection. *)
Definition allocate_ships_to_berths (w : World) : World :=
  match db_connection w with
  | None => write_log connection_unavailable w
  | Some _ => allocate_block w
  end.

(** The [try] block of [simulate_maintenance_event]; the first draw is
    the one of the store, for ORDER BY RANDOM(). *)
Definition maintenance_body : M unit :=
  r <- draw ;;
  berth_result <- query (Sql.select_random_available_berth r) ;;
  match berth_result with
  | None => ret tt
  | Some (berth_id, berth_number) =>
      r <- draw ;;
      let maintenance_duration := Random.randint 5 10 r in
      start_maintenance <- now ;;
      let end_maintenance := start_maintenance + minutes maintenance_duration in
      execute (Sql.berth_start_maintenance start_maintenance end_maintenance berth_id) ;;;
      commit ;;;
      info (in_maintenance berth_number maintenance_duration)
  end.

Definition simulate_maintenance_event : World -> World :=
  guarded "simulate_maintenance_event" maintenance_body.

Definition release_body : M unit :=
  t <- now ;;
  released_ <- execute_returning (Sql.berths_end_maintenance t) ;;
  commit ;;;
  for_each released_ (fun berth_number => info (released berth_number)).

Definition release_maintenance_berths : World -> World :=
  guarded "release_maintenance_berths" release_body.

(** One round of the loop of [update_ongoing_operations]. *)
Definition finalize_operation (current_time : datetime)
           (op : Z * Z * Z * datetime * Z * string * Z) : M unit :=
  let '(op_id, berth_id, vessel_id, start_time, planned_duration,
        vessel_name, berth_number) := op in
  let actual_duration := int_total_seconds (current_time - start_time) in
  execute (Sql.operation_complete actual_duration op_id) ;;;
  execute (Sql.berth_release current_time berth_id) ;;;
  execute (Sql.queue_complete current_time vessel_id) ;;;
  modify (fun w => set_total_ships_handled (total_ships_handled w + 1) w) ;;;
  match Efficiency.efficiency planned_duration actual_duration with
  | Efficiency.ZeroDivisionError => fun s => (Raise, s)
  | Efficiency.Value efficiency =>
      total <- get total_ships_handled ;;
      info (concluded vessel_name berth_number actual_duration planned_duration
                      efficiency total)
  end.

Definition update_body : M unit :=
  current_time <- now ;;
  completed_operations <- query (Sql.select_due_operations current_time) ;;
  for_each completed_operations (finalize_operation current_time) ;;;
  commit.

Definition update_ongoing_operations : World -> World :=
  guarded "update_ongoing_operations" update_body.

(** The [while True] loop of [simulate_real_time_data].  Its first block
    draws whether a ship arrives in this round and, if so, generates and
    stores it; [ships_generated] is the local counter of the function. *)
Definition maybe_spawn_vessel (st : Z * World) : Z * World :=
  let (ships_generated, w) := st in
  let (r, w) := take_draw w in
  if Random.choices 0 [(0, 40); (1, 60)] r =? 0 then
    let (ship, w) := generate_ship_data w in
    let (vessel_id, w) := insert_vessel_to_db ship w in
    match vessel_id with
    | Some v => if v =? 0 then (ships_generated, w) else (ships_generated + 1, w)
    | None => (ships_generated, w)
    end
  else (ships_generated, w).

(** Its last block: [if random.random() < 0.3:
    self.simulate_maintenance_event()]. *)
Definition maybe_start_maintenance (w : World) : World :=
  let (r, w) := take_draw w in
  if Random.random_below 30 r then simulate_maintenance_event w else w.

(** One round of the loop (the [time.sleep] at its end left out). *)
Definition tick (st : Z * World) : Z * World :=
  let (ships_generated, w) := maybe_spawn_vessel st in
  let w := update_ongoing_operations w in
  let w := release_maintenance_berths w in
  let w := allocate_ships_to_berths w in
  let w := maybe_start_maintenance w in
  (ships_generated, w).

(** [simulate_real_time_data], stopped by the interrupt after [n] rounds. *)
Definition simulate_real_time_data (n : nat) (w : World) : Z * World :=
  Nat.iter n tick (0, release_maintenance_berths w).

(** *** The rounds of the loop as a list of steps

    The five steps a round is made of, and the run of a list of them in
    the order given. *)
Inductive step :=
| release_maintenance
| finalize_completed_operations
| allocate
| start_maintenance
| spawn_vessel.

Definition run_step (s : step) (st : Z * World) : Z * World :=
  match s with
  | release_maintenance => (fst st, release_maintenance_berths (snd st))
  | finalize_completed_operations => (fst st, update_ongoing_operations (snd st))
  | allocate => (fst st, allocate_ships_to_berths (snd st))
  | start_maintenance => (fst st, maybe_start_maintenance (snd st))
  | spawn_vessel => maybe_spawn_vessel st
  end.

Definition run_steps (order : list step) (st : Z * World) : Z * World :=
  fold_left (fun st s => run_step s st) order st.

(** The order in which the loop of [simulate_real_time_data] calls them. *)
Definition order_of_the_loop : list step :=
  [spawn_vessel; finalize_completed_operations; release_maintenance;
   allocate; start_maintenance].

(** The order as the Simulation Clock section of the specification words
    it: release-maintenance, finalize-completed-operations, allocate,
    maybe-start-maintenance, maybe-spawn-vessel. *)
Definition order_of_the_specification : list step :=
  [release_maintenance; finalize_completed_operations; allocate;
   start_maintenance; spawn_vessel].

End PortDataSimulator.

(* ------------------------------------------------------------------ *)
(** ** [vessel.py]: the stand-alone generator *)

Module VesselGenerator.

(** [class ShipType(Enum)], by value. *)
Definition ShipType : list string := ["Container"; "Tanker"; "Carga Geral"].

Definition SHIP_NAMES : list (string * list string) :=
  [ ("Container",
     ["EVER GIVEN"; "MAERSK MADRID"; "CMA CGM MARCO POLO"; "MSC GÜLSÜN";
      "HAPAG MONTREAL"; "COSCO SHIPPING"; "ONE INNOVATION"; "YANG MING WISDOM";
      "EVERGREEN ETERNAL"; "HAMBURG EXPRESS"; "MADRID BRIDGE"; "LISBON STAR";
      "PORTO MARAVILHA"; "ATLANTIC PIONEER"; "EUROPA CONTAINER"; "OCEAN ALLIANCE"]);
    ("Tanker",
     ["PETRO STAR"; "CRUDE OCEAN"; "OIL MAJESTY"; "ENERGY PIONEER";
      "ATLANTIC CRUDE"; "BRENT NAVIGATOR"; "EUROPA PETROLEUM"; "FUEL MASTER";
      "LIQUID GOLD"; "OCEANIC FUEL"; "TANKER SUPREME"; "PORTO PETRÓLEO";
      "GALP ENERGIA"; "REPSOL SPIRIT"; "BP EXPLORER"; "SHELL NAVIGATOR"]);
    ("Carga Geral",
     ["GENERAL CARGO"; "BULK MASTER"; "CARGO EXPRESS"; "FREIGHT STAR";
      "UNIVERSAL TRADER"; "MULTI PURPOSE"; "GLOBAL CARRIER"; "CARGO PIONEER";
      "TRADING VESSEL"; "COMMERCIAL STAR"; "PORTO COMERCIAL"; "AVEIRO TRADER";
      "IBERIAN CARGO"; "ATLANTIC TRADER"; "EUROPA FREIGHT"; "MEDITERRANEAN CARGO"]) ].

(** Service times by type, in hours. *)
Definition SERVICE_HOURS : list (string * (Z * Z)) :=
  [ ("Container", (8, 16)); ("Tanker", (6, 12)); ("Carga Geral", (12, 24)) ].

(** [dict.get(key, default)] *)
Definition dict_get {V} (dict : list (string * V)) (key : string) (dflt : V) : V :=
  match find (fun kv => String.eqb (fst kv) key) dict with
  | Some kv => snd kv
  | None => dflt
  end.

Definition get_random_ship_name (ship_type : string) (w : World) : string * World :=
  let names := dict_get SHIP_NAMES ship_type (dict_get SHIP_NAMES "Carga Geral" []) in
  let (r, w) := take_draw w in
  (Random.choice "" names r, w).

(** The two first draws are made and dropped, as in the source: what is
    returned is a third draw of the range of hours. *)
Definition get_realistic_service_hours (ship_type : string) (w : World) : Z * World :=
  let (min_h, max_h) := dict_get SERVICE_HOURS ship_type (8, 16) in
  let (r, w) := take_draw w in
  let hours := Random.randint min_h max_h r in
  let (r, w) := take_draw w in
  let minutes := Random.randint 0 59 r in
  let (r, w) := take_draw w in
  (Random.randint min_h max_h r, w).

(** The dict returned by [generate_fake_ship_data]. *)
Record fake_ship := {
  vessel_name : string;
  vessel_type : string;
  priority : Z;
  estimated_duration : Z
}.

(** The arrival time that the source asks of the Faker library is not part
    of the dict returned and is left out. *)
Definition generate_fake_ship_data (w : World) : fake_ship * World :=
  let (r, w) := take_draw w in
  let ship_type := Random.choice "" ShipType r in
  let (vessel_name, w) := get_random_ship_name ship_type w in
  let (r, w) := take_draw w in
  let vessel_type := Random.choices "" [("import", 7); ("export", 3)] r in
  let (r, w) := take_draw w in
  let priority := Random.randint 1 3 r in
  let (estimated_duration, w) := get_realistic_service_hours ship_type w in
  ({| vessel_name := vessel_name;
      vessel_type := vessel_type;
      priority := priority;
      estimated_duration := estimated_duration |},
   w).

End VesselGenerator.

(* ------------------------------------------------------------------ *)
(** ** Integrity of the store

    The table definitions are not part of the Python sources.  The
    constraints a statement relies on are stated as predicates on the tables
    and assumed where a result needs them. *)

Module Integrity.

(** [vessels.vessel_id] is a key. *)
Definition vessel_keys_unique (d : DB) : Prop :=
  NoDup (map vessels.vessel_id (t_vessels d)).

(** [berths.berth_id] is a key. *)
Definition berth_keys_unique (d : DB) : Prop :=
  NoDup (map berths.berth_id (t_berths d)).

(** [operations.operation_id] is a key. *)
Definition operation_keys_unique (d : DB) : Prop :=
  NoDup (map operations.operation_id (t_operations d)).

(** One queue entry per vessel. *)
Definition one_entry_per_vessel (d : DB) : Prop :=
  NoDup (map vessel_queue.vessel_id (t_vessel_queue d)).

(** [vessel_queue.vessel_id] refers to a row of [vessels]. *)
Definition queue_refers_to_vessels (d : DB) : Prop :=
  forall q, In q (t_vessel_queue d) ->
    exists v, In v (t_vessels d) /\ vessels.vessel_id v = vessel_queue.vessel_id q.

(** [operations.vessel_id] and [operations.berth_id] refer to rows of
    [vessels] and [berths]. *)
Definition operations_refer (d : DB) : Prop :=
  forall o, In o (t_operations d) ->
    (exists v, In v (t_vessels d) /\ vessels.vessel_id v = operations.vessel_id o)
    /\ (exists b, In b (t_berths d) /\ berths.berth_id b = operations.berth_id o).

End Integrity.

(* ------------------------------------------------------------------ *)
(** ** The rows of a table in one state

    Read off the [status] column of the rows, with no SELECT of the
    simulator in between. *)

Module Rows.

Definition is_available (b : berths.row) : bool :=
  match berths.status b with
  | berths.available => true
  | _ => false
  end.

Definition is_waiting (q : vessel_queue.row) : bool :=
  match vessel_queue.status q with
  | vessel_queue.waiting => true
  | _ => false
  end.

Definition is_in_service (q : vessel_queue.row) : bool :=
  match vessel_queue.status q with
  | vessel_queue.in_service => true
  | _ => false
  end.

(** The berths that are Available, in the order of the table. *)
Definition available (d : DB) : list berths.row := filter is_available (t_berths d).

(** The queue entries that are Waiting, and those that are InService. *)
Definition waiting (d : DB) : list vessel_queue.row :=
  filter is_waiting (t_vessel_queue d).

Definition in_service (d : DB) : list vessel_queue.row :=
  filter is_in_service (t_vessel_queue d).

End Rows.

(* ------------------------------------------------------------------ *)
(** ** What one round of each loop does to the tables *)

Module Effect.

Definition is_in_service (q : vessel_queue.row) : bool :=
  vessel_queue.status_eqb (vessel_queue.status q) vessel_queue.in_service.

Definition count_in_service (d : DB) : Z :=
  Z.of_nat (List.length (filter is_in_service (t_vessel_queue d))).

(** The three writes of one round of the allocation loop. *)
Definition bind_berth (vessel_id berth_id : Z) (operation_type : string)
           (start_time : datetime) (duration : Z) (d : DB) : DB :=
  Sql.insert_operation vessel_id berth_id operation_type start_time
    (start_time + seconds duration) duration
    (Sql.berth_occupy start_time berth_id
       (Sql.queue_start_service start_time vessel_id d)).

(** The three writes of one round of the finalization loop. *)
Definition finalize (current_time : datetime)
           (op : Z * Z * Z * datetime * Z * string * Z) (d : DB) : DB :=
  let '(op_id, berth_id, vessel_id, start_time, _, _, _) := op in
  Sql.queue_complete current_time vessel_id
    (Sql.berth_release current_time berth_id
       (Sql.operation_complete (int_total_seconds (current_time - start_time))
                               op_id d)).

(** The tables after the rounds of the finalization loop over [rows]. *)
Definition finalize_all (current_time : datetime)
           (rows : list (Z * Z * Z * datetime * Z * string * Z)) (d : DB) : DB :=
  fold_left (fun d op => finalize current_time op d) rows d.

(** The columns of a row fetched by the finalization that its writes use. *)
Definition fetched_operation_id (op : Z * Z * Z * datetime * Z * string * Z) : Z :=
  let '(op_id, _, _, _, _, _, _) := op in op_id.
Definition fetched_berth_id (op : Z * Z * Z * datetime * Z * string * Z) : Z :=
  let '(_, berth_id, _, _, _, _, _) := op in berth_id.
Definition fetched_vessel_id (op : Z * Z * Z * datetime * Z * string * Z) : Z :=
  let '(_, _, vessel_id, _, _, _, _) := op in vessel_id.
Definition fetched_start_time (op : Z * Z * Z * datetime * Z * string * Z) : datetime :=
  let '(_, _, _, start_time, _, _, _) := op in start_time.

(** An operation as the finalization leaves it. *)
Definition completed_at (current_time : datetime) (o : operations.row)
  : operations.row :=
  Sql.to_completed (int_total_seconds (current_time - operations.start_time o)) o.

(** The rounds of the allocation loop over the berths fetched before it,
    when no store call fails: the tables before, the heads of the queue
    that were bound, in the order of binding, and the tables after.  Once
    the queue has no candidate the remaining rounds change nothing. *)
Inductive rounds (duration : Z)
  : list Z -> DB -> list (vessel_queue.row * vessels.row) -> DB -> Prop :=
| rounds_done d : rounds duration [] d [] d
| rounds_idle berth_ids d :
    Sql.first_in_order (Sql.waiting_joined d) = None ->
    rounds duration berth_ids d [] d
| rounds_bind berth_id berth_ids d head operation_type start_time heads d' :
    Sql.first_in_order (Sql.waiting_joined d) = Some head ->
    rounds duration berth_ids
           (bind_berth (vessel_queue.vessel_id (fst head)) berth_id
                       operation_type start_time duration d)
           heads d' ->
    rounds duration (berth_id :: berth_ids) d (head :: heads) d'.

(** The vessels [served], in this order, respect the order of the queue of
    [d]: a candidate that comes strictly before a served one was served
    earlier. *)
Definition served_in_order (d : DB) (served : list Z) : Prop :=
  forall a b,
    In a (Sql.waiting_joined d) -> In b (Sql.waiting_joined d) ->
    Sql.precedes a b = true ->
    forall j, nth_error served j = Some (vessel_queue.vessel_id (fst b)) ->
    exists i, (i < j)%nat /\ nth_error served i = Some (vessel_queue.vessel_id (fst a)).

(** The state of a block with the countdown to a store failure taken
    away. *)
Definition without_faults (s : Try.St) : Try.St :=
  (set_fault_in None (fst s), snd s).

(** A block that, when it ends without an exception, has done what it does
    when no store call can fail. *)
Definition fault_insensitive {A} (m : Try.M A) : Prop :=
  forall s a s', m s = (Try.Ok a, s') ->
                 m (without_faults s) = (Try.Ok a, without_faults s').

(** A block that leaves the committed tables alone, however it ends. *)
Definition keeps_committed {A} (m : Try.M A) : Prop :=
  forall s r s', m s = (r, s') -> db_connection (fst s') = db_connection (fst s).

(** A block that leaves the committed tables alone when it ends in an
    exception. *)
Definition commits_or_raises {A} (m : Try.M A) : Prop :=
  forall s s', m s = (Try.Raise, s') -> db_connection (fst s') = db_connection (fst s).

(** The committed tables of a world with a connection. *)
Definition tables (w : World) : DB :=
  match db_connection w with
  | Some d => d
  | None => {| t_vessels := []; t_berths := []; t_vessel_queue := [];
               t_operations := []; t_customs_clearance := [] |}
  end.

End Effect.

(* ------------------------------------------------------------------ *)
(** ** Some states of the port *)

Module Scenario.

Definition vessel (id : Z) (name : string) (prio duration : Z) : vessels.row :=
  {| vessels.vessel_id := id; vessels.vessel_name := name;
     vessels.vessel_type := "Tanker"; vessels.priority := prio;
     vessels.estimated_duration := duration |}.

Definition berth (id : Z) (st : berths.state) (until : option datetime) : berths.row :=
  {| berths.berth_id := id; berths.berth_number := id; berths.status := st;
     berths.start_maintenance := until; berths.end_maintenance := until;
     berths.updated_at := None |}.

Definition entry (id : Z) (arrival : datetime) (st : vessel_queue.state)
  : vessel_queue.row :=
  {| vessel_queue.vessel_id := id; vessel_queue.arrival_time := arrival;
     vessel_queue.status := st; vessel_queue.start_service_time := None;
     vessel_queue.end_service_time := None |}.

Definition operation (id vessel_id berth_id : Z) (start end_ : datetime)
           (planned : Z) : operations.row :=
  {| operations.operation_id := id; operations.vessel_id := vessel_id;
     operations.berth_id := berth_id; operations.operation_type := "import";
     operations.start_time := start; operations.end_time := end_;
     operations.status := operations.in_progress;
     operations.planned_duration := planned;
     operations.actual_duration := None |}.

(** A simulator on the tables [d]: the clock advances by one second at
    each reading from second 10000 on, the raw draws are those of
    [drawn], then 0. *)
Definition world (d : DB) (duration : Z) (drawn : list Z) (fault : option nat)
  : World :=
  {| ship_counter := 0; duration_seconds := duration; total_ships_handled := 0;
     db_connection := Some d;
     clock := fun k => seconds (10000 + Z.of_nat k); clock_reads := 0;
     entropy := fun k => nth k drawn 0; draws := 0;
     fault_in := fault; log := [] |}.

(** A busy port: berths 1 and 4 free, berth 2 occupied by vessel 7, berth 3
    in maintenance; vessels 1, 2 and 3 waiting. *)
Definition busy_port : DB :=
  {| t_vessels := [vessel 7 "MT Titan 7" 2 80; vessel 1 "MV Baltic 1" 1 50;
                   vessel 2 "MS Nordic 2" 3 60; vessel 3 "SS Phoenix 3" 3 70];
     t_berths := [berth 1 berths.available None; berth 2 berths.occupied None;
                  berth 3 berths.maintenance (Some (seconds 20000));
                  berth 4 berths.available None];
     t_vessel_queue := [entry 7 (seconds 5000) vessel_queue.in_service;
                        entry 1 (seconds 6000) vessel_queue.waiting;
                        entry 2 (seconds 8000) vessel_queue.waiting;
                        entry 3 (seconds 7000) vessel_queue.waiting];
     t_operations := [operation 1 7 2 (seconds 9990) (seconds 10000) 10];
     t_customs_clearance := [] |}.

(** A quiet port: one berth, available, and nothing else. *)
Definition quiet_port : DB :=
  {| t_vessels := []; t_berths := [berth 1 berths.available None];
     t_vessel_queue := []; t_operations := []; t_customs_clearance := [] |}.

(** A closed port: one berth, in maintenance until second 10007, and
    nothing else. *)
Definition closed_port : DB :=
  {| t_vessels := [];
     t_berths := [berth 1 berths.maintenance (Some (seconds 10007))];
     t_vessel_queue := []; t_operations := []; t_customs_clearance := [] |}.

(** Three rounds on the closed port.  Round 1: a Tanker of priority 3 and
    50 seconds arrives.  Round 2: a Cargueiro of priority 1 and 100 seconds
    arrives.  Round 3: no arrival; the berth comes out of maintenance and
    is given to the head of the queue.  No maintenance is started. *)
Definition backlog_draws : list Z :=
  [0; 2; 5; 0; 0; 0; 0; 99;
   0; 0; 55; 0; 0; 0; 0; 99;
   99; 0; 99].

End Scenario.

(* ------------------------------------------------------------------ *)
(** ** [initialize_database] *)

Module Startup.
Import Try.
Local Open Scope try_scope.

(** [SELECT COUNT( * ) FROM berths] *)
Definition count_berths (d : DB) : Z := Z.of_nat (List.length (t_berths d)).

(** [INSERT INTO berths (berth_number, status, start_maintenance,
     end_maintenance) VALUES (%s, 'available', NULL, NULL)]; the key is
    handed out by the store, and [updated_at], which the statement does not
    name, is left empty. *)
Definition insert_berth (number : Z) (d : DB) : DB :=
  {| t_vessels := t_vessels d;
     t_berths :=
       t_berths d ++
       [ {| berths.berth_id := next_key (map berths.berth_id (t_berths d));
            berths.berth_number := number;
            berths.status := berths.available;
            berths.start_maintenance := None;
            berths.end_maintenance := None;
            berths.updated_at := None |} ];
     t_vessel_queue := t_vessel_queue d;
     t_operations := t_operations d;
     t_customs_clearance := t_customs_clearance d |}.

(** A store whose tables are all empty. *)
Definition empty_store : DB :=
  {| t_vessels := []; t_berths := []; t_vessel_queue := [];
     t_operations := []; t_customs_clearance := [] |}.

(** [range(1, n + 1)] *)
Definition range_from_1 (n : Z) : list Z := map Z.of_nat (seq 1 (Z.to_nat n)).

(** The [try] block of [initialize_database]; [berths_count] is the field
    [self.berths_count] of the simulator, set by its constructor. *)
Definition initialize_body (berths_count : Z) : M unit :=
  berth_count <- query count_berths ;;
  if berth_count =? 0 then
    for_each (range_from_1 berths_count) (fun i => execute (insert_berth i)) ;;;
    commit
  else ret tt.

Definition initialize_database (berths_count : Z) : World -> World :=
  guarded "initialize_database" (initialize_body berths_count).

End Startup.

(* ------------------------------------------------------------------ *)
(** ** What holds of the store between the steps *)

Module Invariant.

(** The constraints of [Integrity], together. *)
Definition integrity (d : DB) : Prop :=
  Integrity.vessel_keys_unique d /\ Integrity.berth_keys_unique d /\
  Integrity.operation_keys_unique d /\ Integrity.one_entry_per_vessel d /\
  Integrity.queue_refers_to_vessels d /\ Integrity.operations_refer d.

Definition is_in_progress (o : operations.row) : bool :=
  operations.status_eqb (operations.status o) operations.in_progress.

(** The berths of the operations in progress, in the order of the table. *)
Definition berths_in_use (d : DB) : list Z :=
  map operations.berth_id (filter is_in_progress (t_operations d)).

(** No two operations in progress share a berth, and the berth of an
    operation in progress is occupied. *)
Definition occupancy (d : DB) : Prop :=
  Integrity.berth_keys_unique d /\
  NoDup (berths_in_use d) /\
  forall o b,
    In o (t_operations d) -> operations.status o = operations.in_progress ->
    In b (t_berths d) -> berths.berth_id b = operations.berth_id o ->
    berths.status b = berths.occupied.

(** The vessels of the operations in progress, in the order of the table. *)
Definition vessels_in_service (d : DB) : list Z :=
  map operations.vessel_id (filter is_in_progress (t_operations d)).

(** No two operations in progress share a vessel, and the queue entries of
    the vessel of an operation in progress are in service. *)
Definition service (d : DB) : Prop :=
  NoDup (vessels_in_service d) /\
  forall o q,
    In o (t_operations d) -> operations.status o = operations.in_progress ->
    In q (t_vessel_queue d) ->
    vessel_queue.vessel_id q = operations.vessel_id o ->
    vessel_queue.status q = vessel_queue.in_service.

(** The key columns of the tables, which the constraints are about. *)
Definition keys (d : DB)
  : list Z * list Z * list Z * list (Z * Z) * list Z :=
  (map vessels.vessel_id (t_vessels d),
   map berths.berth_id (t_berths d),
   map operations.operation_id (t_operations d),
   map (fun o => (operations.vessel_id o, operations.berth_id o)) (t_operations d),
   map vessel_queue.vessel_id (t_vessel_queue d)).

(** What the hypotheses of the results on the allocation and on the
    finalization ask of the store, and what the store shows of the port. *)
Definition sound (d : DB) : Prop := integrity d /\ occupancy d /\ service d.

(** The number of berths, and how many more vessels there are than queue
    entries. *)
Definition shape (d : DB) : nat * Z :=
  (List.length (t_berths d),
   Z.of_nat (List.length (t_vessels d)) - Z.of_nat (List.length (t_vessel_queue d))).

(** A block that never ends in an exception. *)
Definition never_raises {A} (m : Try.M A) : Prop :=
  forall s s', m s <> (Try.Raise, s').

End Invariant.

(* ------------------------------------------------------------------ *)
(** ** [get_database_stats] and [run_simulation] *)

Module Statistics.
Import Try.
Local Open Scope try_scope.

(** The counts that [get_database_stats] fetches and writes to the log. *)
Record figures := {
  current_vessels : Z;
  queue_length : Z;
  active_operations : Z;
  completed_operations : Z;
  available_berths : Z;
  occupied_berths : Z;
  maintenance_berths : Z
}.

(** [SELECT COUNT( * ) FROM vessels] *)
Definition count_vessels (d : DB) : Z := Z.of_nat (List.length (t_vessels d)).

(** [SELECT COUNT( * ) FROM vessel_queue]: the entries of every status. *)
Definition count_queue (d : DB) : Z := Z.of_nat (List.length (t_vessel_queue d)).

Definition has_operation_status (st : operations.state) (o : operations.row) : bool :=
  operations.status_eqb (operations.status o) st.

(** [SELECT COUNT( * ) FROM operations WHERE status = ...] *)
Definition count_operations (st : operations.state) (d : DB) : Z :=
  Z.of_nat (List.length (filter (has_operation_status st) (t_operations d))).

Definition has_berth_status (st : berths.state) (b : berths.row) : bool :=
  berths.status_eqb (berths.status b) st.

(** [SELECT COUNT( * ) FROM berths WHERE status = ...] *)
Definition count_berths_in (st : berths.state) (d : DB) : Z :=
  Z.of_nat (List.length (filter (has_berth_status st) (t_berths d))).

(** A SELECT whose rows are not kept here: it is a call to the store like
    the others, and can fail like them. *)
Definition select_not_kept : M unit := query (fun _ => tt).

(** The ten SELECTs of [get_database_stats], in the order of the source.
    Three results are not kept: the average of [waiting_time], a column
    that no statement of the simulator writes; the operations in progress
    by type, which the source fetches and does not use; the operations
    completed in the 24 hours before the [NOW()] of the store. *)
Definition stats_body : M figures :=
  current_vessels <- query count_vessels ;;
  queue_length <- query count_queue ;;
  active_operations <- query (count_operations operations.in_progress) ;;
  completed_operations <- query (count_operations operations.completed) ;;
  select_not_kept ;;;
  available_berths <- query (count_berths_in berths.available) ;;
  occupied_berths <- query (count_berths_in berths.occupied) ;;
  maintenance_berths <- query (count_berths_in berths.maintenance) ;;
  select_not_kept ;;;
  select_not_kept ;;;
  ret {| current_vessels := current_vessels; queue_length := queue_length;
         active_operations := active_operations;
         completed_operations := completed_operations;
         available_berths := available_berths;
         occupied_berths := occupied_berths;
         maintenance_berths := maintenance_berths |}.

(** [get_database_stats]: the figures it writes to the log, or [None] when
    there is no connection or a SELECT has failed (the failure is logged).
    The block writes nothing to the store, so that the rollback of [run],
    which the handler of the source does not have, drops nothing. *)
Definition get_database_stats (w : World) : option figures * World :=
  run "get_database_stats" stats_body w.

(** [run_simulation], with the loop stopped by the interrupt after [n]
    rounds: the figures of the report that follows the loop.  The
    [time.sleep] before the loop and the closing of the connection, after
    which the object is not used, are left out. *)
Definition run_simulation (n : nat) (w : World) : option figures * World :=
  get_database_stats (snd (PortDataSimulator.simulate_real_time_data n w)).

End Statistics.

(* ------------------------------------------------------------------ *)
(** ** [class MovingAverage] of [grafana/main.py] *)

Module MovingAverage.

(** The fields of the object. *)
Record t := {
  window_sum : Z;
  window : list Z;
  count : Z
}.

(** [__init__]: [[0] * size] is the empty list for a size of zero or
    less. *)
Definition init (size : Z) : t :=
  {| window_sum := 0; window := repeat 0 (Z.to_nat size); count := 0 |}.

(** [l[index] = val], for an index within the list. *)
Definition set_item (l : list Z) (index : nat) (val : Z) : list Z :=
  firstn index l ++ val :: skipn (S index) l.

(** The float [dividend / divisor] of two integers, the divisor not zero,
    kept as the two integers: Python gives the double nearest to their
    quotient, or raises OverflowError when that is beyond the doubles.  The
    model does not round. *)
Record quotient := { dividend : Z; divisor : Z }.

(** [next]: the division whose float is returned, or [None] for the
    ZeroDivisionError of [%] or [/] on a zero divisor, and the object as the
    call leaves it. *)
Definition next (self : t) (val : Z) : option quotient * t :=
  let len := Z.of_nat (List.length (window self)) in
  if len =? 0 then (None, self)
  else
    let index := Z.to_nat (count self mod len) in
    let self1 :=
      {| window_sum := window_sum self + (val - nth index (window self) 0);
         window := set_item (window self) index val;
         count := count self + 1 |} in
    let window_size := Z.min (count self1) len in
    if window_size =? 0 then (None, self1)
    else (Some {| dividend := window_sum self1; divisor := window_size |}, self1).

(** The object after [next] has been called on each value of a list, in
    order. *)
Definition feed (self : t) (vals : list Z) : t :=
  fold_left (fun self val => snd (next self val)) vals self.

Definition sum (l : list Z) : Z := fold_right Z.add 0 l.

(** The last [k] values of a list (all of them when it has fewer). *)
Definition last_values (k : nat) (l : list Z) : list Z :=
  skipn (List.length l - k) l.

(** The values fed so far, after the [size] zeros the window starts with. *)
Definition padded (size : nat) (vals : list Z) : list Z := repeat 0 size ++ vals.

(** What holds of the object after the values [vals] have been fed to a
    window of [size] places: slot [p mod size] holds the value of position
    [p] of the padded stream, for the last [size] positions, and the running
    sum is the sum of these. *)
Definition consistent (size : nat) (vals : list Z) (self : t) : Prop :=
  List.length (window self) = size /\
  count self = Z.of_nat (List.length vals) /\
  window_sum self = sum (skipn (List.length vals) (padded size vals)) /\
  forall p : Z,
    Z.of_nat (List.length vals) <= p < Z.of_nat (List.length vals) + Z.of_nat size ->
    nth (Z.to_nat (p mod Z.of_nat size)) (window self) 0
    = nth (Z.to_nat p) (padded size vals) 0.

End MovingAverage.

(* ================================================================== *)
(** * Proofs *)

Import Try PortDataSimulator Integrity Effect.

(** ** The allocation pass and the connection *)

Lemma allocate_connected w d :
  db_connection w = Some d -> allocate_ships_to_berths w = allocate_block w.
Proof. unfold allocate_ships_to_berths. now intros ->. Qed.

Lemma allocate_disconnected w :
  db_connection w = None ->
  allocate_ships_to_berths w = write_log connection_unavailable w.
Proof. unfold allocate_ships_to_berths. now intros ->. Qed.

Lemma allocate_tables w :
  tables (allocate_ships_to_berths w) = tables (allocate_block w).
Proof.
  unfold allocate_ships_to_berths, allocate_block, guarded, run, tables.
  destruct (db_connection w) eqn:C; [reflexivity|]. simpl. now rewrite C.
Qed.

(** ** Blocks that meet no store failure *)

Lemma query_no_fault {A} (q : DB -> A) w d :
  fault_in w = None -> query q (w, d) = (Ok (q d), (w, d)).
Proof.
  intros H. unfold query, store_call. simpl. rewrite H. reflexivity.
Qed.

Lemma execute_no_fault (q : DB -> DB) w d :
  fault_in w = None -> execute q (w, d) = (Ok tt, (w, q d)).
Proof.
  intros H. unfold execute, store_call. simpl. rewrite H. reflexivity.
Qed.

Lemma execute_returning_no_fault {A} (q : DB -> A * DB) w d :
  fault_in w = None ->
  execute_returning q (w, d) = (Ok (fst (q d)), (w, snd (q d))).
Proof.
  intros H. unfold execute_returning, store_call. simpl. rewrite H.
  destruct (q d); reflexivity.
Qed.

Lemma commit_no_fault w d :
  fault_in w = None ->
  commit (w, d) = (Ok tt, (set_db_connection (Some d) w, d)).
Proof.
  intros H. unfold commit, store_call. simpl. rewrite H. reflexivity.
Qed.

Lemma bind_ok {A B} (m : M A) (f : A -> M B) s a s' :
  m s = (Ok a, s') -> bind m f s = f a s'.
Proof. intros H. unfold bind. rewrite H. reflexivity. Qed.

Lemma bind_raise {A B} (m : M A) (f : A -> M B) s s' :
  m s = (Raise, s') -> bind m f s = (Raise, s').
Proof. intros H. unfold bind. rewrite H. reflexivity. Qed.

(** ** The head of the queue *)

Lemma precedes_irrefl x : Sql.precedes x x = false.
Proof. unfold Sql.precedes. lia. Qed.

Lemma precedes_asym x y : Sql.precedes x y = true -> Sql.precedes y x = false.
Proof. unfold Sql.precedes. lia. Qed.

Lemma precedes_neg_trans x y z :
  Sql.precedes x y = false -> Sql.precedes y z = false -> Sql.precedes x z = false.
Proof. unfold Sql.precedes. lia. Qed.

Lemma first_in_order_none rows : Sql.first_in_order rows = None -> rows = [].
Proof.
  destruct rows as [|x rest]; [reflexivity|]. simpl.
  destruct (Sql.first_in_order rest) as [y|]; [|discriminate].
  destruct (Sql.precedes y x); discriminate.
Qed.

Lemma first_in_order_head rows h :
  Sql.first_in_order rows = Some h ->
  In h rows /\ forall c, In c rows -> Sql.precedes c h = false.
Proof.
  revert h. induction rows as [|x rest IH]; intros h; simpl; [discriminate|].
  destruct (Sql.first_in_order rest) as [y|] eqn:E.
  - destruct (IH y eq_refl) as [Hin Hbest].
    destruct (Sql.precedes y x) eqn:P; intros [= <-].
    + split; [now right|]. intros c [<-|Hc]; [now apply precedes_asym|now apply Hbest].
    + split; [now left|]. intros c [<-|Hc]; [apply precedes_irrefl|].
      apply precedes_neg_trans with y; [now apply Hbest|exact P].
  - intros [= <-]. apply first_in_order_none in E. subst rest.
    split; [now left|]. intros c [<-|[]]. apply precedes_irrefl.
Qed.

Lemma in_waiting_joined d vq v :
  In (vq, v) (Sql.waiting_joined d) <->
  In vq (t_vessel_queue d) /\ Sql.is_waiting vq = true /\
  In v (t_vessels d) /\ vessels.vessel_id v = vessel_queue.vessel_id vq.
Proof.
  unfold Sql.waiting_joined. rewrite in_flat_map. split.
  - intros (q & Hq & Hin). apply filter_In in Hq. apply in_map_iff in Hin.
    destruct Hin as (v' & [= <- <-] & Hv). apply filter_In in Hv.
    destruct Hq, Hv. repeat split; auto. now apply Z.eqb_eq.
  - intros (Hq & Hw & Hv & Hid). exists vq. split; [now apply filter_In|].
    apply in_map. apply filter_In. split; [assumption|now apply Z.eqb_eq].
Qed.

(** ** One round of the allocation loop *)

Lemma allocate_berth_no_fault berth w d :
  fault_in w = None ->
  exists w',
    fault_in w' = None /\ db_connection w' = db_connection w /\
    duration_seconds w' = duration_seconds w /\
    allocate_berth berth (w, d) =
    (Ok tt,
     (w', match Sql.first_in_order (Sql.waiting_joined d) with
          | None => d
          | Some (vq, _) =>
              bind_berth (vessel_queue.vessel_id vq) (fst berth)
                (Random.choice "" ["import"; "export"] (entropy w (draws w)))
                (clock w (clock_reads w)) (duration_seconds w) d
          end)).
Proof.
  intros H. destruct berth as [berth_id berth_number].
  unfold allocate_berth. rewrite (bind_ok _ _ _ _ _ (query_no_fault _ w d H)).
  unfold Sql.select_next_ship.
  destruct (Sql.first_in_order (Sql.waiting_joined d)) as [[vq v]|].
  - exists (write_log
              (allocated (vessels.vessel_name v) berth_number
                 (int_total_seconds
                    (clock w (clock_reads w) - vessel_queue.arrival_time vq)))
              (set_draws (S (draws w)) (set_clock_reads (S (clock_reads w)) w))).
    repeat split; auto.
    destruct w; simpl in H; subst; reflexivity.
  - exists w. repeat split; auto.
Qed.

Lemma allocation_loop_idle bs w d :
  fault_in w = None ->
  Sql.first_in_order (Sql.waiting_joined d) = None ->
  for_each bs allocate_berth (w, d) = (Ok tt, (w, d)).
Proof.
  intros H E. induction bs as [|[bid bn] bs IH]; [reflexivity|].
  simpl. erewrite bind_ok; [exact IH|].
  unfold allocate_berth. rewrite (bind_ok _ _ _ _ _ (query_no_fault _ w d H)).
  unfold Sql.select_next_ship. rewrite E. reflexivity.
Qed.

Lemma allocation_loop_rounds bs :
  forall w d, fault_in w = None ->
  exists w' d' heads,
    for_each bs allocate_berth (w, d) = (Ok tt, (w', d')) /\
    fault_in w' = None /\ db_connection w' = db_connection w /\
    rounds (duration_seconds w) (map fst bs) d heads d'.
Proof.
  induction bs as [|b bs IH]; intros w d H.
  - exists w, d, []. repeat split; auto. constructor.
  - destruct (Sql.first_in_order (Sql.waiting_joined d)) as [[vq v]|] eqn:E.
    + destruct (allocate_berth_no_fault b w d H) as (w1 & H1 & C1 & D1 & R1).
      rewrite E in R1.
      destruct (IH w1 (bind_berth (vessel_queue.vessel_id vq) (fst b)
                     (Random.choice "" ["import"; "export"] (entropy w (draws w)))
                     (clock w (clock_reads w)) (duration_seconds w) d) H1)
        as (w' & d' & heads & R & H' & C' & Rs).
      exists w', d', ((vq, v) :: heads). simpl.
      rewrite (bind_ok _ _ _ _ _ R1). repeat split; auto; [congruence|].
      rewrite D1 in Rs. eapply rounds_bind; eauto.
    + exists w, d, []. rewrite allocation_loop_idle by assumption.
      repeat split; auto. now apply rounds_idle.
Qed.

Lemma count_waiting_zero_no_candidate d :
  Sql.count_waiting d = 0 -> Sql.first_in_order (Sql.waiting_joined d) = None.
Proof.
  unfold Sql.count_waiting, Sql.waiting_joined. intros H.
  destruct (filter Sql.is_waiting (t_vessel_queue d)); [reflexivity|].
  simpl in H. lia.
Qed.

(** The allocation pass, when a connection is there and no store call fails:
    the committed tables after it are those the rounds lead to. *)
Lemma allocate_no_fault w d :
  db_connection w = Some d -> fault_in w = None ->
  exists heads d',
    rounds (duration_seconds w) (map fst (Sql.select_available_berths d)) d heads d' /\
    db_connection (allocate_ships_to_berths w) = Some d'.
Proof.
  intros C H. rewrite (allocate_connected w d C).
  unfold allocate_block, guarded, run. rewrite C.
  unfold allocate_body. rewrite (bind_ok _ _ _ _ _ (query_no_fault _ w d H)).
  destruct (Sql.count_waiting d =? 0) eqn:N.
  - exists [], d. simpl. split; [|assumption].
    apply rounds_idle, count_waiting_zero_no_candidate. lia.
  - rewrite (bind_ok _ _ _ _ _ (query_no_fault _ w d H)).
    destruct (Sql.select_available_berths d) as [|b bs] eqn:B.
    + exists [], d. simpl. split; [constructor|assumption].
    + destruct (allocation_loop_rounds (b :: bs) w d H) as (w' & d' & heads & R & H' & C' & Rs).
      exists heads, d'. split; [assumption|].
      rewrite (bind_ok _ _ _ _ _ R). rewrite (commit_no_fault _ _ H'). reflexivity.
Qed.

(** ** Rows with a key *)

Open Scope list_scope.

Lemma key_determines_row {A} (key : A -> Z) l x y :
  NoDup (map key l) -> In x l -> In y l -> key x = key y -> x = y.
Proof.
  induction l as [|a l IH]; simpl; [tauto|].
  intros N Hx Hy E. inversion N as [|? ? Hn N']; subst.
  destruct Hx as [<-|Hx], Hy as [<-|Hy]; auto.
  - exfalso. apply Hn. rewrite E. now apply in_map.
  - exfalso. apply Hn. rewrite <- E. now apply in_map.
Qed.

Lemma update_row_with_key {A} (key : A -> Z) (f : A -> A) l1 x l2 :
  NoDup (map key (l1 ++ x :: l2)) ->
  map (fun y => if key y =? key x then f y else y) (l1 ++ x :: l2)
  = l1 ++ f x :: l2.
Proof.
  intros N. rewrite map_app in N. simpl in N.
  pose proof (NoDup_remove_2 _ _ _ N) as Hn.
  assert (Hother : forall l, ~ In (key x) (map key l) ->
            map (fun y => if key y =? key x then f y else y) l = l).
  { intros l Hl. induction l as [|a l IH]; [reflexivity|]. simpl in *.
    destruct (Z.eqb_spec (key a) (key x)) as [E|E]; [exfalso; auto|].
    f_equal. apply IH. tauto. }
  rewrite map_app. simpl. rewrite Z.eqb_refl. f_equal; [|f_equal].
  - apply Hother. intro Hin. apply Hn, in_or_app. now left.
  - apply Hother. intro Hin. apply Hn, in_or_app. now right.
Qed.

(** ** What a binding does to the tables *)

Section Binding.
Variables (vid bid : Z) (ot : string) (t : datetime) (dur : Z) (d : DB).
Let d1 := bind_berth vid bid ot t dur d.

Lemma bind_berth_queue :
  t_vessel_queue d1 =
  map (fun q => if vessel_queue.vessel_id q =? vid then Sql.to_in_service t q else q)
      (t_vessel_queue d).
Proof. reflexivity. Qed.

Lemma bind_berth_berths :
  t_berths d1 =
  map (fun b => if berths.berth_id b =? bid then Sql.to_occupied t b else b)
      (t_berths d).
Proof. reflexivity. Qed.

Lemma bind_berth_queue_keys :
  map vessel_queue.vessel_id (t_vessel_queue d1)
  = map vessel_queue.vessel_id (t_vessel_queue d).
Proof.
  rewrite bind_berth_queue, map_map. apply map_ext. intros q.
  destruct (vessel_queue.vessel_id q =? vid); reflexivity.
Qed.

Lemma bind_berth_berth_keys :
  map berths.berth_id (t_berths d1) = map berths.berth_id (t_berths d).
Proof.
  rewrite bind_berth_berths, map_map. apply map_ext. intros b.
  destruct (berths.berth_id b =? bid); reflexivity.
Qed.

Lemma waiting_after_bind q :
  In q (t_vessel_queue d1) -> Sql.is_waiting q = true ->
  In q (t_vessel_queue d) /\ vessel_queue.vessel_id q <> vid.
Proof.
  rewrite bind_berth_queue, in_map_iff. intros (q0 & E & Hin) W.
  destruct (Z.eqb_spec (vessel_queue.vessel_id q0) vid); subst q.
  - discriminate W.
  - auto.
Qed.

Lemma joined_after_bind c :
  In c (Sql.waiting_joined d1) <->
  In c (Sql.waiting_joined d) /\ vessel_queue.vessel_id (fst c) <> vid.
Proof.
  destruct c as [q v]. rewrite !in_waiting_joined. simpl. split.
  - intros (Hq & W & Hv & E). destruct (waiting_after_bind q Hq W). tauto.
  - intros ((Hq & W & Hv & E) & N). repeat split; auto.
    unfold d1, bind_berth. simpl. apply in_map_iff. exists q. split; [|assumption].
    destruct (Z.eqb_spec (vessel_queue.vessel_id q) vid); [contradiction|reflexivity].
Qed.

Lemma one_entry_per_vessel_after_bind :
  one_entry_per_vessel d -> one_entry_per_vessel d1.
Proof. unfold one_entry_per_vessel. now rewrite bind_berth_queue_keys. Qed.

Lemma queue_refers_after_bind :
  queue_refers_to_vessels d -> queue_refers_to_vessels d1.
Proof.
  intros F q Hq. rewrite bind_berth_queue, in_map_iff in Hq.
  destruct Hq as (q0 & E & Hin). destruct (F q0 Hin) as (v & Hv & Ev).
  exists v. split; [exact Hv|]. rewrite Ev. subst q.
  destruct (vessel_queue.vessel_id q0 =? vid); reflexivity.
Qed.

Lemma counts_after_bind vq :
  one_entry_per_vessel d -> In vq (t_vessel_queue d) ->
  Sql.is_waiting vq = true -> vessel_queue.vessel_id vq = vid ->
  (List.length (filter Sql.is_waiting (t_vessel_queue d1)) + 1
   = List.length (filter Sql.is_waiting (t_vessel_queue d)))%nat /\
  (List.length (filter is_in_service (t_vessel_queue d1))
   = List.length (filter is_in_service (t_vessel_queue d)) + 1)%nat.
Proof.
  intros N Hin W E. rewrite bind_berth_queue.
  destruct (in_split _ _ Hin) as (l1 & l2 & Hl). unfold one_entry_per_vessel in N.
  rewrite Hl in *. rewrite <- E, update_row_with_key by assumption.
  rewrite !filter_app. simpl. rewrite W.
  assert (is_in_service vq = false) as ->.
  { unfold Sql.is_waiting in W. unfold is_in_service.
    destruct (vessel_queue.status vq); try discriminate; reflexivity. }
  rewrite !length_app. simpl. lia.
Qed.

End Binding.

(** ** The rounds of an allocation pass *)

Lemma rounds_operations dur bids d heads d' :
  rounds dur bids d heads d' ->
  exists new,
    t_operations d' = t_operations d ++ new /\
    map operations.vessel_id new = map (fun h => vessel_queue.vessel_id (fst h)) heads /\
    map operations.berth_id new = firstn (List.length heads) bids /\
    Forall (fun o => operations.planned_duration o = dur /\
                     operations.end_time o = operations.start_time o + seconds dur /\
                     operations.status o = operations.in_progress) new /\
    t_vessels d' = t_vessels d /\
    map berths.berth_id (t_berths d') = map berths.berth_id (t_berths d).
Proof.
  induction 1 as [d|bids d E|bid bids d h ot t heads d' E R IH].
  - exists []. rewrite app_nil_r. repeat split; auto.
  - exists []. rewrite app_nil_r. repeat split; auto.
  - destruct IH as (new & Ho & Hv & Hb & Hf & Hve & Hbe).
    eexists (_ :: new). simpl in Ho. rewrite <- app_assoc in Ho. simpl in Ho.
    split; [exact Ho|]. simpl. rewrite Hv, Hb.
    repeat split; auto.
    rewrite Hbe. apply bind_berth_berth_keys.
Qed.

Lemma rounds_heads_waiting dur bids d heads d' :
  rounds dur bids d heads d' ->
  forall h, In h heads -> In h (Sql.waiting_joined d).
Proof.
  induction 1 as [d|bids d E|bid bids d h ot t heads d' E R IH].
  - intros h [].
  - intros h [].
  - intros h' [<-|Hin].
    + now apply first_in_order_head.
    + apply IH in Hin. now apply joined_after_bind in Hin.
Qed.

Lemma no_candidate_no_waiting d :
  queue_refers_to_vessels d ->
  Sql.first_in_order (Sql.waiting_joined d) = None ->
  filter Sql.is_waiting (t_vessel_queue d) = [].
Proof.
  intros F E. apply first_in_order_none in E.
  destruct (filter Sql.is_waiting (t_vessel_queue d)) as [|q l] eqn:W; [reflexivity|].
  assert (Hq : In q (filter Sql.is_waiting (t_vessel_queue d))) by (rewrite W; now left).
  apply filter_In in Hq. destruct Hq as [Hq Hw].
  destruct (F q Hq) as (v & Hv & Ev).
  assert (In (q, v) (Sql.waiting_joined d)) by (apply in_waiting_joined; auto).
  rewrite E in *. contradiction.
Qed.

Lemma rounds_counts dur bids d heads d' :
  rounds dur bids d heads d' ->
  one_entry_per_vessel d -> queue_refers_to_vessels d ->
  List.length heads
  = Nat.min (List.length bids) (List.length (filter Sql.is_waiting (t_vessel_queue d))) /\
  NoDup (map (fun h => vessel_queue.vessel_id (fst h)) heads) /\
  (List.length (filter Sql.is_waiting (t_vessel_queue d')) + List.length heads
   = List.length (filter Sql.is_waiting (t_vessel_queue d)))%nat /\
  (List.length (filter is_in_service (t_vessel_queue d'))
   = List.length (filter is_in_service (t_vessel_queue d)) + List.length heads)%nat.
Proof.
  induction 1 as [d|bids d E|bid bids d h ot t heads d' E R IH]; intros N F.
  - simpl. repeat split; auto; try lia. constructor.
  - rewrite (no_candidate_no_waiting d F E). simpl.
    repeat split; auto; try lia. constructor.
  - destruct (first_in_order_head _ _ E) as [Hh _]. destruct h as [vq v].
    apply in_waiting_joined in Hh. destruct Hh as (Hq & W & Hv & Ev).
    cbn [fst] in *.
    destruct (counts_after_bind (vessel_queue.vessel_id vq) bid ot t dur d vq N Hq W eq_refl)
      as [Cw Cs].
    destruct (IH (one_entry_per_vessel_after_bind _ bid ot t dur d N)
                 (queue_refers_after_bind _ bid ot t dur d F)) as (L & ND & Kw & Ks).
    cbn [List.length map fst]. repeat split; try lia.
    constructor; [|exact ND]. intros Hin. apply in_map_iff in Hin.
    destruct Hin as (h' & Eh & Hin). apply (rounds_heads_waiting _ _ _ _ _ R) in Hin.
    apply joined_after_bind in Hin. tauto.
Qed.

Lemma candidate_determined_by_vessel d x y :
  one_entry_per_vessel d -> vessel_keys_unique d ->
  In x (Sql.waiting_joined d) -> In y (Sql.waiting_joined d) ->
  vessel_queue.vessel_id (fst x) = vessel_queue.vessel_id (fst y) -> x = y.
Proof.
  intros N K Hx Hy E. destruct x as [qx vx], y as [qy vy]. simpl in E.
  apply in_waiting_joined in Hx, Hy.
  destruct Hx as (Hqx & _ & Hvx & Ex), Hy as (Hqy & _ & Hvy & Ey).
  f_equal.
  - eapply key_determines_row; eauto.
  - eapply key_determines_row; eauto. congruence.
Qed.

Lemma rounds_order dur bids d heads d' :
  rounds dur bids d heads d' ->
  one_entry_per_vessel d -> vessel_keys_unique d ->
  served_in_order d (map (fun h => vessel_queue.vessel_id (fst h)) heads).
Proof.
  induction 1 as [d|bids d E|bid bids d h ot t heads d' E R IH]; intros N K.
  - intros a b _ _ _ [|j]; discriminate.
  - intros a b _ _ _ [|j]; discriminate.
  - intros a b Ha Hb P [|j] Hj; simpl in Hj.
    + exfalso. injection Hj as Hj.
      assert (b = h) by (symmetry; eapply candidate_determined_by_vessel; eauto;
                         now apply first_in_order_head).
      subst b. destruct (first_in_order_head _ _ E) as [_ Best].
      rewrite (Best a Ha) in P. discriminate.
    + destruct (Z.eq_dec (vessel_queue.vessel_id (fst a)) (vessel_queue.vessel_id (fst h)))
        as [Ea|Ea].
      * exists 0%nat. split; [lia|]. simpl. now rewrite Ea.
      * assert (Hb1 : vessel_queue.vessel_id (fst b) <> vessel_queue.vessel_id (fst h)).
        { apply nth_error_In, in_map_iff in Hj. destruct Hj as (h' & Eh & Hin).
          apply (rounds_heads_waiting _ _ _ _ _ R) in Hin.
          apply joined_after_bind in Hin. rewrite <- Eh. tauto. }
        destruct (IH (one_entry_per_vessel_after_bind _ bid ot t dur d N) K a b) with (j := j)
          as (i & Hi & Hn); auto.
        -- apply joined_after_bind. auto.
        -- apply joined_after_bind. auto.
        -- exists (S i). split; [lia|exact Hn].
Qed.

Lemma rounds_keep_in_service dur bids d heads d' :
  rounds dur bids d heads d' ->
  forall vid,
    (forall q, In q (t_vessel_queue d) -> vessel_queue.vessel_id q = vid ->
               vessel_queue.status q = vessel_queue.in_service) ->
    forall q, In q (t_vessel_queue d') -> vessel_queue.vessel_id q = vid ->
              vessel_queue.status q = vessel_queue.in_service.
Proof.
  induction 1 as [d|bids d E|bid bids d h ot t heads d' E R IH]; auto.
  intros vid Hd. apply IH. intros q Hq Eq.
  rewrite bind_berth_queue in Hq. apply in_map_iff in Hq.
  destruct Hq as (q0 & <- & Hq0).
  destruct (vessel_queue.vessel_id q0 =? vessel_queue.vessel_id (fst h)) eqn:T;
    [reflexivity|auto].
Qed.

Lemma rounds_keep_occupied dur bids d heads d' :
  rounds dur bids d heads d' ->
  forall bid,
    (forall b, In b (t_berths d) -> berths.berth_id b = bid ->
               berths.status b = berths.occupied) ->
    forall b, In b (t_berths d') -> berths.berth_id b = bid ->
              berths.status b = berths.occupied.
Proof.
  induction 1 as [d|bids d E|bid0 bids d h ot t heads d' E R IH]; auto.
  intros bid Hd. apply IH. intros b Hb Eb.
  rewrite bind_berth_berths in Hb. apply in_map_iff in Hb.
  destruct Hb as (b0 & <- & Hb0).
  destruct (berths.berth_id b0 =? bid0) eqn:T; [reflexivity|auto].
Qed.

(** Each operation opened by a pass has its berth occupied and its queue
    entry in service. *)
Lemma rounds_bound_together dur bids d heads d' :
  rounds dur bids d heads d' ->
  forall new, t_operations d' = t_operations d ++ new ->
  forall o, In o new ->
    (forall q, In q (t_vessel_queue d') ->
               vessel_queue.vessel_id q = operations.vessel_id o ->
               vessel_queue.status q = vessel_queue.in_service) /\
    (forall b, In b (t_berths d') ->
               berths.berth_id b = operations.berth_id o ->
               berths.status b = berths.occupied).
Proof.
  induction 1 as [d|bids d E|bid bids d h ot t heads d' E R IH]; intros new Hn o Ho.
  - rewrite <- (app_nil_r (t_operations d)) in Hn at 1.
    apply app_inv_head in Hn. subst new. destruct Ho.
  - rewrite <- (app_nil_r (t_operations d)) in Hn at 1.
    apply app_inv_head in Hn. subst new. destruct Ho.
  - destruct (rounds_operations _ _ _ _ _ R) as (new' & Hn' & _).
    pose proof Hn' as Hn''. simpl in Hn''. rewrite <- app_assoc in Hn''.
    rewrite Hn in Hn''. apply app_inv_head in Hn''. subst new.
    destruct Ho as [<-|Ho]; [|exact (IH new' Hn' o Ho)].
    simpl. split.
    + apply (rounds_keep_in_service _ _ _ _ _ R). intros q Hq Eq.
      rewrite bind_berth_queue in Hq. apply in_map_iff in Hq.
      destruct Hq as (q0 & <- & Hq0).
      destruct (Z.eqb_spec (vessel_queue.vessel_id q0) (vessel_queue.vessel_id (fst h)));
        [reflexivity|contradiction].
    + apply (rounds_keep_occupied _ _ _ _ _ R). intros b Hb Eb.
      rewrite bind_berth_berths in Hb. apply in_map_iff in Hb.
      destruct Hb as (b0 & <- & Hb0).
      destruct (Z.eqb_spec (berths.berth_id b0) bid); [reflexivity|contradiction].
Qed.

Lemma NoDup_map_filter {A} (key : A -> Z) (p : A -> bool) l :
  NoDup (map key l) -> NoDup (map key (filter p l)).
Proof.
  induction l as [|a l IH]; simpl; [auto|].
  intros N. inversion N as [|? ? Hn N']; subst.
  destruct (p a); auto. simpl. constructor; auto.
  intros Hin. apply Hn. apply in_map_iff in Hin. destruct Hin as (x & E & Hx).
  apply filter_In in Hx. rewrite <- E. apply in_map. tauto.
Qed.

Lemma available_berth_ids d :
  map fst (Sql.select_available_berths d)
  = map berths.berth_id (filter Sql.is_available (t_berths d)).
Proof. unfold Sql.select_available_berths. rewrite map_map. reflexivity. Qed.

Lemma is_available_status b :
  Sql.is_available b = true -> berths.status b = berths.available.
Proof. unfold Sql.is_available. destruct (berths.status b); simpl; congruence. Qed.

Lemma is_waiting_status q :
  Sql.is_waiting q = true -> vessel_queue.status q = vessel_queue.waiting.
Proof. unfold Sql.is_waiting. destruct (vessel_queue.status q); simpl; congruence. Qed.

(** ** The allocation pass *)

Lemma allocation_pass_counts w d :
  db_connection w = Some d -> fault_in w = None ->
  one_entry_per_vessel d -> queue_refers_to_vessels d -> berth_keys_unique d ->
  (List.length (Sql.select_available_berths d)
   <= List.length (filter Sql.is_waiting (t_vessel_queue d)))%nat ->
  exists d' new,
    db_connection (allocate_ships_to_berths w) = Some d' /\
    t_operations d' = t_operations d ++ new /\
    List.length new = List.length (Sql.select_available_berths d) /\
    count_in_service d' = count_in_service d + Z.of_nat (List.length new) /\
    Sql.count_waiting d' = Sql.count_waiting d - Z.of_nat (List.length new) /\
    NoDup (map operations.berth_id new) /\
    NoDup (map operations.vessel_id new) /\
    forall o, In o new ->
      (forall b, In b (t_berths d) -> berths.berth_id b = operations.berth_id o ->
                 berths.status b = berths.available) /\
      (exists q, In q (t_vessel_queue d) /\
                 vessel_queue.vessel_id q = operations.vessel_id o /\
                 vessel_queue.status q = vessel_queue.waiting) /\
      (forall q, In q (t_vessel_queue d') ->
                 vessel_queue.vessel_id q = operations.vessel_id o ->
                 vessel_queue.status q = vessel_queue.in_service) /\
      (forall b, In b (t_berths d') -> berths.berth_id b = operations.berth_id o ->
                 berths.status b = berths.occupied).
Proof.
  intros C H N F K Hmn.
  destruct (allocate_no_fault w d C H) as (heads & d' & R & C').
  destruct (rounds_operations _ _ _ _ _ R) as (new & Ho & Hv & Hb & Hf & _).
  destruct (rounds_counts _ _ _ _ _ R N F) as (L & ND & Kw & Ks).
  rewrite length_map in L. rewrite Nat.min_l in L by assumption.
  assert (Ln : List.length new = List.length heads).
  { rewrite <- (length_map operations.vessel_id), Hv. apply length_map. }
  rewrite L in Hb. rewrite <- (length_map fst) in Hb. rewrite firstn_all in Hb.
  rewrite available_berth_ids in Hb.
  exists d', new. split; [exact C'|]. split; [exact Ho|].
  split; [congruence|].
  split; [unfold count_in_service; lia|].
  split; [unfold Sql.count_waiting; lia|].
  split; [rewrite Hb; now apply NoDup_map_filter|].
  split; [now rewrite Hv|].
  intros o Hin. split; [|split].
  - intros b Hbin Eb.
    assert (Hid : In (operations.berth_id o)
                     (map berths.berth_id (filter Sql.is_available (t_berths d)))).
    { rewrite <- Hb. now apply in_map. }
    apply in_map_iff in Hid. destruct Hid as (b0 & E0 & Hb0).
    apply filter_In in Hb0. destruct Hb0 as [Hb0 Av].
    assert (b = b0) by (eapply key_determines_row; eauto; congruence).
    subst b0. now apply is_available_status.
  - assert (Hid : In (operations.vessel_id o)
                     (map (fun h => vessel_queue.vessel_id (fst h)) heads)).
    { rewrite <- Hv. now apply in_map. }
    apply in_map_iff in Hid. destruct Hid as ([q v] & E0 & Hh).
    apply (rounds_heads_waiting _ _ _ _ _ R) in Hh.
    apply in_waiting_joined in Hh. destruct Hh as (Hq & W & _).
    exists q. repeat split; auto. now apply is_waiting_status.
  - exact (rounds_bound_together _ _ _ _ _ R new Ho o Hin).
Qed.

Ltac distinct_keys := repeat constructor; simpl; lia.

Ltac row_with_key :=
  first
    [ solve [eexists; split; [apply in_eq | reflexivity]]
    | solve [eexists; split; [apply in_cons, in_eq | reflexivity]]
    | solve [eexists; split; [apply in_cons, in_cons, in_eq | reflexivity]]
    | solve [eexists; split; [apply in_cons, in_cons, in_cons, in_eq | reflexivity]] ].

Lemma busy_port_queue_refers : queue_refers_to_vessels Scenario.busy_port.
Proof.
  intros q Hq. simpl in Hq.
  destruct Hq as [<-|[<-|[<-|[<-|[]]]]]; row_with_key.
Defined.

Lemma rows_available d : Rows.available d = filter Sql.is_available (t_berths d).
Proof.
  unfold Rows.available. apply filter_ext. intros b.
  unfold Rows.is_available, Sql.is_available. now destruct (berths.status b).
Qed.

Lemma rows_waiting d : Rows.waiting d = filter Sql.is_waiting (t_vessel_queue d).
Proof.
  unfold Rows.waiting. apply filter_ext. intros q.
  unfold Rows.is_waiting, Sql.is_waiting. now destruct (vessel_queue.status q).
Qed.

Lemma rows_in_service d : Rows.in_service d = filter is_in_service (t_vessel_queue d).
Proof.
  unfold Rows.in_service. apply filter_ext. intros q.
  unfold Rows.is_in_service, is_in_service. now destruct (vessel_queue.status q).
Qed.

Lemma length_select_available d :
  List.length (Sql.select_available_berths d) = List.length (Rows.available d).
Proof. unfold Sql.select_available_berths. now rewrite length_map, rows_available. Qed.

(** C3.  An allocation pass that meets no store failure, over the M rows of
    the berths table that are Available and N >= M rows of the queue that are
    Waiting (one entry per vessel, each referring to a vessel; berth_id a key
    of berths), opens exactly M operations; exactly M entries leave Waiting
    and exactly M more are InService; no two of the new operations share a
    berth and no two share a vessel; every berth given was Available before
    the pass (so none in Maintenance or Occupied is given) and is Occupied
    after it; every vessel bound was Waiting before and is InService
    after. *)
Theorem allocation_pass_no_double_allocation w d :
  db_connection w = Some d -> fault_in w = None ->
  one_entry_per_vessel d -> queue_refers_to_vessels d -> berth_keys_unique d ->
  (List.length (Rows.available d) <= List.length (Rows.waiting d))%nat ->
  exists d' new,
    db_connection (allocate_ships_to_berths w) = Some d' /\
    t_operations d' = t_operations d ++ new /\
    List.length new = List.length (Rows.available d) /\
    (List.length (Rows.in_service d')
     = List.length (Rows.in_service d) + List.length new)%nat /\
    (List.length (Rows.waiting d') + List.length new
     = List.length (Rows.waiting d))%nat /\
    NoDup (map operations.berth_id new) /\
    NoDup (map operations.vessel_id new) /\
    forall o, In o new ->
      (forall b, In b (t_berths d) -> berths.berth_id b = operations.berth_id o ->
                 berths.status b = berths.available) /\
      (exists q, In q (t_vessel_queue d) /\
                 vessel_queue.vessel_id q = operations.vessel_id o /\
                 vessel_queue.status q = vessel_queue.waiting) /\
      (forall q, In q (t_vessel_queue d') ->
                 vessel_queue.vessel_id q = operations.vessel_id o ->
                 vessel_queue.status q = vessel_queue.in_service) /\
      (forall b, In b (t_berths d') -> berths.berth_id b = operations.berth_id o ->
                 berths.status b = berths.occupied).
Proof.
  intros C H N F K Hmn.
  rewrite <- length_select_available, rows_waiting in Hmn.
  destruct (allocation_pass_counts w d C H N F K Hmn)
    as (d' & new & C' & Ho & Ln & Ks & Kw & Nb & Nv & Hall).
  exists d', new. rewrite !rows_in_service, !rows_waiting, <- length_select_available.
  unfold count_in_service, Sql.count_waiting in Ks, Kw.
  repeat (split; [assumption || lia|]). exact Hall.
Qed.

Lemma allocation_pass_no_double_allocation_witness :
  let w := Scenario.world Scenario.busy_port 70 [] None in
  let d := Scenario.busy_port in
  exists d' new,
    db_connection (allocate_ships_to_berths w) = Some d' /\
    t_operations d' = t_operations d ++ new /\
    List.length new = List.length (Rows.available d) /\
    (List.length (Rows.in_service d')
     = List.length (Rows.in_service d) + List.length new)%nat /\
    (List.length (Rows.waiting d') + List.length new
     = List.length (Rows.waiting d))%nat /\
    NoDup (map operations.berth_id new) /\
    NoDup (map operations.vessel_id new) /\
    forall o, In o new ->
      (forall b, In b (t_berths d) -> berths.berth_id b = operations.berth_id o ->
                 berths.status b = berths.available) /\
      (exists q, In q (t_vessel_queue d) /\
                 vessel_queue.vessel_id q = operations.vessel_id o /\
                 vessel_queue.status q = vessel_queue.waiting) /\
      (forall q, In q (t_vessel_queue d') ->
                 vessel_queue.vessel_id q = operations.vessel_id o ->
                 vessel_queue.status q = vessel_queue.in_service) /\
      (forall b, In b (t_berths d') -> berths.berth_id b = operations.berth_id o ->
                 berths.status b = berths.occupied).
Proof.
  apply (allocation_pass_no_double_allocation
           (Scenario.world Scenario.busy_port 70 [] None) Scenario.busy_port).
  - reflexivity.
  - reflexivity.
  - unfold one_entry_per_vessel. simpl. distinct_keys.
  - exact busy_port_queue_refers.
  - unfold berth_keys_unique. simpl. distinct_keys.
  - simpl. lia.
Defined.

Lemma rounds_first dur bids d heads d' h :
  rounds dur bids d heads d' -> bids <> [] ->
  Sql.first_in_order (Sql.waiting_joined d) = Some h ->
  exists rest, heads = h :: rest.
Proof.
  destruct 1; intros B E; [contradiction|congruence|].
  eexists. f_equal. congruence.
Qed.

Lemma allocation_order_of_candidates w d :
  db_connection w = Some d -> fault_in w = None ->
  one_entry_per_vessel d -> vessel_keys_unique d ->
  exists d' new,
    db_connection (allocate_ships_to_berths w) = Some d' /\
    t_operations d' = t_operations d ++ new /\
    (forall h, Sql.select_available_berths d <> [] ->
       Sql.first_in_order (Sql.waiting_joined d) = Some h ->
       (forall c, In c (Sql.waiting_joined d) -> Sql.precedes c h = false) /\
       exists o rest, new = o :: rest /\
                      operations.vessel_id o = vessel_queue.vessel_id (fst h)) /\
    (forall a b,
       In a (Sql.waiting_joined d) -> In b (Sql.waiting_joined d) ->
       vessels.priority (snd b) < vessels.priority (snd a)
       \/ (vessels.priority (snd a) = vessels.priority (snd b)
           /\ vessel_queue.arrival_time (fst a) < vessel_queue.arrival_time (fst b)) ->
       forall j,
         nth_error (map operations.vessel_id new) j
         = Some (vessel_queue.vessel_id (fst b)) ->
         exists i, (i < j)%nat /\
                   nth_error (map operations.vessel_id new) i
                   = Some (vessel_queue.vessel_id (fst a))).
Proof.
  intros C H N K.
  destruct (allocate_no_fault w d C H) as (heads & d' & R & C').
  destruct (rounds_operations _ _ _ _ _ R) as (new & Ho & Hv & _).
  exists d', new. split; [exact C'|]. split; [exact Ho|]. split.
  - intros h B E. split; [now apply first_in_order_head|].
    destruct (rounds_first _ _ _ _ _ h R) as (hs & ->); auto.
    { destruct (Sql.select_available_berths d); [contradiction|discriminate]. }
    destruct new as [|o rest]; [discriminate|].
    simpl in Hv. injection Hv as Hv _. eauto.
  - intros a b Ha Hb P j Hj. rewrite Hv in *.
    apply (rounds_order _ _ _ _ _ R N K a b); auto.
    unfold Sql.precedes. lia.
Qed.

Lemma waiting_status_is_waiting q :
  vessel_queue.status q = vessel_queue.waiting -> Sql.is_waiting q = true.
Proof. unfold Sql.is_waiting. now intros ->. Qed.

Lemma available_status_is_available b :
  berths.status b = berths.available -> Sql.is_available b = true.
Proof. unfold Sql.is_available. now intros ->. Qed.

(** C4.  In an allocation pass that meets no store failure (one queue entry
    per vessel, vessel_id a key of vessels), the operations are opened in the
    order of the queue, priority descending then arrival ascending.  When
    the berths table has a row that is Available and the queue a row that is
    Waiting for a vessel of the vessels table, an operation is opened, and
    the first one is for a vessel at the head of that order: it has a Waiting
    entry, and no Waiting entry is for a vessel of higher priority, or of the
    same priority and earlier arrival.  And whenever a vessel with a Waiting
    entry is served, every vessel with a Waiting entry of higher priority, or
    of the same priority and earlier arrival, was served in an earlier round
    of the pass.  Nothing is said of two entries that tie on both keys. *)
Theorem allocation_follows_priority_then_arrival w d :
  db_connection w = Some d -> fault_in w = None ->
  one_entry_per_vessel d -> vessel_keys_unique d ->
  exists d' new,
    db_connection (allocate_ships_to_berths w) = Some d' /\
    t_operations d' = t_operations d ++ new /\
    (forall b q v,
       In b (t_berths d) -> berths.status b = berths.available ->
       In q (t_vessel_queue d) -> vessel_queue.status q = vessel_queue.waiting ->
       In v (t_vessels d) -> vessels.vessel_id v = vessel_queue.vessel_id q ->
       exists o rest qh vh,
         new = o :: rest /\
         operations.vessel_id o = vessel_queue.vessel_id qh /\
         In qh (t_vessel_queue d) /\
         vessel_queue.status qh = vessel_queue.waiting /\
         In vh (t_vessels d) /\
         vessels.vessel_id vh = vessel_queue.vessel_id qh /\
         forall q' v',
           In q' (t_vessel_queue d) ->
           vessel_queue.status q' = vessel_queue.waiting ->
           In v' (t_vessels d) -> vessels.vessel_id v' = vessel_queue.vessel_id q' ->
           ~ (vessels.priority vh < vessels.priority v'
              \/ (vessels.priority v' = vessels.priority vh
                  /\ vessel_queue.arrival_time q' < vessel_queue.arrival_time qh))) /\
    (forall qa va qb vb,
       In qa (t_vessel_queue d) -> vessel_queue.status qa = vessel_queue.waiting ->
       In va (t_vessels d) -> vessels.vessel_id va = vessel_queue.vessel_id qa ->
       In qb (t_vessel_queue d) -> vessel_queue.status qb = vessel_queue.waiting ->
       In vb (t_vessels d) -> vessels.vessel_id vb = vessel_queue.vessel_id qb ->
       vessels.priority vb < vessels.priority va
       \/ (vessels.priority va = vessels.priority vb
           /\ vessel_queue.arrival_time qa < vessel_queue.arrival_time qb) ->
       forall j,
         nth_error (map operations.vessel_id new) j
         = Some (vessel_queue.vessel_id qb) ->
         exists i, (i < j)%nat /\
                   nth_error (map operations.vessel_id new) i
                   = Some (vessel_queue.vessel_id qa)).
Proof.
  intros C H N K.
  destruct (allocation_order_of_candidates w d C H N K)
    as (d' & new & C' & Ho & Ha & Hb).
  exists d', new. split; [exact C'|]. split; [exact Ho|]. split.
  - intros b q v Hbin Av Hq Wq Hv Ev.
    assert (B : Sql.select_available_berths d <> []).
    { intros E. apply (f_equal (@List.length _)) in E.
      unfold Sql.select_available_berths in E. rewrite length_map in E.
      assert (Hin : In b (filter Sql.is_available (t_berths d)))
        by (apply filter_In; split; [exact Hbin|now apply available_status_is_available]).
      destruct (filter Sql.is_available (t_berths d)); [destruct Hin|discriminate]. }
    assert (Hc : In (q, v) (Sql.waiting_joined d)).
    { apply in_waiting_joined. repeat split; auto.
      now apply waiting_status_is_waiting. }
    destruct (Sql.first_in_order (Sql.waiting_joined d)) as [[qh vh]|] eqn:E.
    2: { apply first_in_order_none in E. rewrite E in Hc. destruct Hc. }
    destruct (Ha (qh, vh) B eq_refl) as (Best & o & rest & -> & Eo).
    destruct (first_in_order_head _ _ E) as [Hh _].
    apply in_waiting_joined in Hh. destruct Hh as (Hqh & Wh & Hvh & Eh).
    exists o, rest, qh, vh. split; [reflexivity|]. split; [exact Eo|].
    split; [exact Hqh|]. split; [now apply is_waiting_status|].
    split; [exact Hvh|]. split; [exact Eh|].
    intros q' v' Hq' W' Hv' E'.
    assert (P : Sql.precedes (q', v') (qh, vh) = false).
    { apply Best. apply in_waiting_joined. repeat split; auto.
      now apply waiting_status_is_waiting. }
    unfold Sql.precedes in P. simpl in P. lia.
  - intros qa va qb vb Hqa Wa Hva Ea Hqb Wb Hvb Eb P j Hj.
    apply (Hb (qa, va) (qb, vb)); auto;
      apply in_waiting_joined; repeat split; auto;
      now apply waiting_status_is_waiting.
Qed.

Lemma allocation_follows_priority_then_arrival_witness :
  let w := Scenario.world Scenario.busy_port 70 [] None in
  let d := Scenario.busy_port in
  exists d' new,
    db_connection (allocate_ships_to_berths w) = Some d' /\
    t_operations d' = t_operations d ++ new /\
    (forall b q v,
       In b (t_berths d) -> berths.status b = berths.available ->
       In q (t_vessel_queue d) -> vessel_queue.status q = vessel_queue.waiting ->
       In v (t_vessels d) -> vessels.vessel_id v = vessel_queue.vessel_id q ->
       exists o rest qh vh,
         new = o :: rest /\
         operations.vessel_id o = vessel_queue.vessel_id qh /\
         In qh (t_vessel_queue d) /\
         vessel_queue.status qh = vessel_queue.waiting /\
         In vh (t_vessels d) /\
         vessels.vessel_id vh = vessel_queue.vessel_id qh /\
         forall q' v',
           In q' (t_vessel_queue d) ->
           vessel_queue.status q' = vessel_queue.waiting ->
           In v' (t_vessels d) -> vessels.vessel_id v' = vessel_queue.vessel_id q' ->
           ~ (vessels.priority vh < vessels.priority v'
              \/ (vessels.priority v' = vessels.priority vh
                  /\ vessel_queue.arrival_time q' < vessel_queue.arrival_time qh))) /\
    (forall qa va qb vb,
       In qa (t_vessel_queue d) -> vessel_queue.status qa = vessel_queue.waiting ->
       In va (t_vessels d) -> vessels.vessel_id va = vessel_queue.vessel_id qa ->
       In qb (t_vessel_queue d) -> vessel_queue.status qb = vessel_queue.waiting ->
       In vb (t_vessels d) -> vessels.vessel_id vb = vessel_queue.vessel_id qb ->
       vessels.priority vb < vessels.priority va
       \/ (vessels.priority va = vessels.priority vb
           /\ vessel_queue.arrival_time qa < vessel_queue.arrival_time qb) ->
       forall j,
         nth_error (map operations.vessel_id new) j
         = Some (vessel_queue.vessel_id qb) ->
         exists i, (i < j)%nat /\
                   nth_error (map operations.vessel_id new) i
                   = Some (vessel_queue.vessel_id qa)).
Proof.
  apply (allocation_follows_priority_then_arrival
           (Scenario.world Scenario.busy_port 70 [] None) Scenario.busy_port).
  - reflexivity.
  - reflexivity.
  - unfold one_entry_per_vessel. simpl. distinct_keys.
  - unfold vessel_keys_unique. simpl. distinct_keys.
Defined.

(** The pass on the busy port: vessel 3 (priority 3, earlier arrival) takes
    berth 1, vessel 2 (priority 3, later arrival) takes berth 4, vessel 1
    (priority 1, earliest arrival) keeps waiting. *)
Example busy_port_pass :
  let d' := tables (allocate_ships_to_berths
                      (Scenario.world Scenario.busy_port 70 [] None)) in
  map (fun o => (operations.vessel_id o, operations.berth_id o)) (t_operations d')
  = [(7, 2); (3, 1); (2, 4)]
  /\ map (fun q => (vessel_queue.vessel_id q, vessel_queue.status q)) (t_vessel_queue d')
     = [(7, vessel_queue.in_service); (1, vessel_queue.waiting);
        (2, vessel_queue.in_service); (3, vessel_queue.in_service)]
  /\ map berths.status (t_berths d')
     = [berths.occupied; berths.occupied; berths.maintenance; berths.occupied].
Proof. vm_compute. repeat split. Qed.

(** ** Blocks and store failures *)

Section Blocks.
Context {A B : Type}.

Lemma ret_insensitive (a : A) : fault_insensitive (ret a).
Proof. intros s a' s' [= <- <-]. reflexivity. Qed.

Lemma bind_insensitive (m : M A) (f : A -> M B) :
  fault_insensitive m -> (forall a, fault_insensitive (f a)) ->
  fault_insensitive (bind m f).
Proof.
  intros Hm Hf s b s'. unfold bind.
  destruct (m s) as [[a|] s1] eqn:E; [|discriminate].
  intros Hb. rewrite (Hm _ _ _ E). now apply Hf.
Qed.

Lemma query_insensitive (q : DB -> A) : fault_insensitive (query q).
Proof.
  intros [w d] a s'. unfold query, store_call, without_faults. simpl.
  destruct (fault_in w) as [[|k]|]; intros [= <- <-]; reflexivity.
Qed.

Lemma execute_returning_insensitive (q : DB -> A * DB) :
  fault_insensitive (execute_returning q).
Proof.
  intros [w d] a s'. unfold execute_returning, store_call, without_faults. simpl.
  destruct (fault_in w) as [[|k]|]; destruct (q d); intros [= <- <-]; reflexivity.
Qed.

Lemma get_insensitive (f : World -> A) :
  (forall w, f (set_fault_in None w) = f w) -> fault_insensitive (get f).
Proof.
  intros Hf [w d] a s' [= <- <-]. unfold get, without_faults. simpl.
  now rewrite Hf.
Qed.

Lemma ret_keeps (a : A) : keeps_committed (ret a).
Proof. intros s r s' [= <- <-]. reflexivity. Qed.

Lemma bind_keeps (m : M A) (f : A -> M B) :
  keeps_committed m -> (forall a, keeps_committed (f a)) ->
  keeps_committed (bind m f).
Proof.
  intros Hm Hf s r s'. unfold bind.
  destruct (m s) as [[a|] s1] eqn:E.
  - intros Hb. rewrite (Hf _ _ _ _ Hb). exact (Hm _ _ _ E).
  - intros [= <- <-]. exact (Hm _ _ _ E).
Qed.

Lemma query_keeps (q : DB -> A) : keeps_committed (query q).
Proof.
  intros [w d] r s'. unfold query, store_call. simpl.
  destruct (fault_in w) as [[|k]|]; intros [= <- <-]; reflexivity.
Qed.

Lemma execute_returning_keeps (q : DB -> A * DB) :
  keeps_committed (execute_returning q).
Proof.
  intros [w d] r s'. unfold execute_returning, store_call. simpl.
  destruct (fault_in w) as [[|k]|]; destruct (q d); intros [= <- <-]; reflexivity.
Qed.

Lemma get_keeps (f : World -> A) : keeps_committed (get f).
Proof. intros s r s' [= <- <-]. reflexivity. Qed.

Lemma keeps_then_commits_or_raises (m : M A) :
  keeps_committed m -> commits_or_raises m.
Proof. intros H s s' E. exact (H _ _ _ E). Qed.

Lemma bind_commits_or_raises (m : M A) (f : A -> M B) :
  keeps_committed m -> (forall a, commits_or_raises (f a)) ->
  commits_or_raises (bind m f).
Proof.
  intros Hm Hf s s'. unfold bind.
  destruct (m s) as [[a|] s1] eqn:E.
  - intros Hb. rewrite (Hf _ _ _ Hb). exact (Hm _ _ _ E).
  - intros [= <-]. exact (Hm _ _ _ E).
Qed.

End Blocks.

Lemma execute_insensitive (q : DB -> DB) : fault_insensitive (execute q).
Proof.
  intros [w d] a s'. unfold execute, store_call, without_faults. simpl.
  destruct (fault_in w) as [[|k]|]; intros [= <- <-]; reflexivity.
Qed.

Lemma commit_insensitive : fault_insensitive commit.
Proof.
  intros [w d] a s'. unfold commit, store_call, without_faults. simpl.
  destruct (fault_in w) as [[|k]|]; intros [= <- <-]; reflexivity.
Qed.

Lemma now_insensitive : fault_insensitive now.
Proof. intros [w d] a s' [= <- <-]. reflexivity. Qed.

Lemma draw_insensitive : fault_insensitive draw.
Proof. intros [w d] a s' [= <- <-]. reflexivity. Qed.

Lemma modify_insensitive (f : World -> World) :
  (forall w, f (set_fault_in None w) = set_fault_in None (f w)) ->
  fault_insensitive (modify f).
Proof.
  intros Hf [w d] a s' [= <- <-]. unfold modify, without_faults. simpl.
  now rewrite Hf.
Qed.

Lemma info_insensitive r : fault_insensitive (info r).
Proof. apply modify_insensitive. reflexivity. Qed.

Lemma for_each_insensitive {A} (xs : list A) (body : A -> M unit) :
  (forall x, fault_insensitive (body x)) -> fault_insensitive (for_each xs body).
Proof.
  intros Hb. induction xs as [|x xs IH]; simpl.
  - apply ret_insensitive.
  - apply bind_insensitive; auto.
Qed.

Lemma execute_keeps (q : DB -> DB) : keeps_committed (execute q).
Proof.
  intros [w d] r s'. unfold execute, store_call. simpl.
  destruct (fault_in w) as [[|k]|]; intros [= <- <-]; reflexivity.
Qed.

Lemma now_keeps : keeps_committed now.
Proof. intros [w d] r s' [= <- <-]. reflexivity. Qed.

Lemma draw_keeps : keeps_committed draw.
Proof. intros [w d] r s' [= <- <-]. reflexivity. Qed.

Lemma modify_keeps (f : World -> World) :
  (forall w, db_connection (f w) = db_connection w) -> keeps_committed (modify f).
Proof. intros Hf [w d] r s' [= <- <-]. simpl. apply Hf. Qed.

Lemma info_keeps r : keeps_committed (info r).
Proof. apply modify_keeps. reflexivity. Qed.

Lemma for_each_keeps {A} (xs : list A) (body : A -> M unit) :
  (forall x, keeps_committed (body x)) -> keeps_committed (for_each xs body).
Proof.
  intros Hb. induction xs as [|x xs IH]; simpl.
  - apply ret_keeps.
  - apply bind_keeps; auto.
Qed.

Lemma commit_commits_or_raises : commits_or_raises commit.
Proof.
  intros [w d] s'. unfold commit, store_call. simpl.
  destruct (fault_in w) as [[|k]|]; intros [= <-]; reflexivity.
Qed.

Create HintDb blocks.
#[local] Hint Resolve
  ret_insensitive query_insensitive execute_insensitive
  execute_returning_insensitive commit_insensitive now_insensitive
  draw_insensitive info_insensitive
  ret_keeps query_keeps execute_keeps execute_returning_keeps now_keeps
  draw_keeps info_keeps get_keeps commit_commits_or_raises : blocks.

Ltac block :=
  repeat first
    [ progress auto with blocks
    | apply bind_insensitive; [|intros ?]
    | apply bind_keeps; [|intros ?]
    | apply for_each_insensitive; intros ?
    | apply for_each_keeps; intros ?
    | apply get_insensitive; reflexivity
    | apply modify_insensitive; reflexivity
    | apply modify_keeps; reflexivity ].

Lemma allocate_berth_insensitive berth : fault_insensitive (allocate_berth berth).
Proof.
  destruct berth as [bid bn]. unfold allocate_berth.
  apply bind_insensitive; [block|]. intros [[[[[vid vn] pr] est] arr]|]; block.
Qed.

Lemma allocate_berth_keeps berth : keeps_committed (allocate_berth berth).
Proof.
  destruct berth as [bid bn]. unfold allocate_berth.
  apply bind_keeps; [block|]. intros [[[[[vid vn] pr] est] arr]|]; block.
Qed.

Lemma allocate_body_insensitive : fault_insensitive allocate_body.
Proof.
  unfold allocate_body. apply bind_insensitive; [block|]. intros n.
  destruct (n =? 0); [block|].
  apply bind_insensitive; [block|]. intros [|b bs]; [block|].
  apply bind_insensitive; [|block].
  apply for_each_insensitive, allocate_berth_insensitive.
Qed.

Lemma allocate_body_commits_or_raises : commits_or_raises allocate_body.
Proof.
  unfold allocate_body. apply bind_commits_or_raises; [block|]. intros n.
  destruct (n =? 0); [apply keeps_then_commits_or_raises; block|].
  apply bind_commits_or_raises; [block|].
  intros [|b bs]; [apply keeps_then_commits_or_raises; block|].
  apply bind_commits_or_raises; [|block].
  apply for_each_keeps, allocate_berth_keeps.
Qed.

(** C7.  An allocation pass is applied to the store as one unit, whatever
    store call fails.  Either the block of the pass ends in an exception,
    and then the committed tables are those from before the pass: no berth
    has become Occupied and no queue entry InService; or it ends without
    one, and then the committed tables are those of the pass in which no
    store call can fail, where every operation opened has its berth Occupied
    and its queue entry InService together.  Without a connection the pass
    writes its warning to the log and does nothing else. *)
Theorem allocation_is_all_or_nothing w :
  match db_connection w with
  | None => allocate_ships_to_berths w = write_log connection_unavailable w
  | Some d =>
      (exists s', allocate_body (w, d) = (Raise, s') /\
                  db_connection (allocate_ships_to_berths w) = Some d)
      \/
      (exists s', allocate_body (w, d) = (Ok tt, s') /\
         db_connection (allocate_ships_to_berths w)
         = db_connection (allocate_ships_to_berths (set_fault_in None w)) /\
         exists new,
           t_operations (tables (allocate_ships_to_berths w)) = t_operations d ++ new /\
           forall o, In o new ->
             (forall q, In q (t_vessel_queue (tables (allocate_ships_to_berths w))) ->
                        vessel_queue.vessel_id q = operations.vessel_id o ->
                        vessel_queue.status q = vessel_queue.in_service) /\
             (forall b, In b (t_berths (tables (allocate_ships_to_berths w))) ->
                        berths.berth_id b = operations.berth_id o ->
                        berths.status b = berths.occupied))
  end.
Proof.
  destruct (db_connection w) as [d|] eqn:C.
  2: { now apply allocate_disconnected. }
  destruct (allocate_body (w, d)) as [[[]|] [w1 d1]] eqn:E.
  - right. exists (w1, d1). split; [reflexivity|].
    assert (Hw : allocate_ships_to_berths w = w1).
    { rewrite (allocate_connected w d C).
      unfold allocate_block, guarded, run. now rewrite C, E. }
    assert (Hn : allocate_ships_to_berths (set_fault_in None w) = set_fault_in None w1).
    { pose proof (allocate_body_insensitive _ _ _ E) as E'.
      unfold without_faults in E'. simpl in E'.
      rewrite (allocate_connected (set_fault_in None w) d C).
      unfold allocate_block, guarded, run. simpl. now rewrite C, E'. }
    destruct (allocate_no_fault (set_fault_in None w) d C eq_refl)
      as (heads & d' & R & C').
    rewrite Hn in C'. simpl in C'. rewrite Hw, Hn. split; [reflexivity|].
    destruct (rounds_operations _ _ _ _ _ R) as (new & Ho & _).
    unfold tables. rewrite C'. exists new. split; [exact Ho|].
    exact (rounds_bound_together _ _ _ _ _ R new Ho).
  - left. exists (w1, d1). split; [reflexivity|].
    rewrite (allocate_connected w d C).
    unfold allocate_block, guarded, run. rewrite C, E. simpl.
    rewrite <- C. exact (allocate_body_commits_or_raises _ _ E).
Qed.

(** A store failure in the middle of a binding, after the queue entry of the
    head has been rewritten and before the berth is: the committed tables are
    those of before, and the failure is logged. *)
Example allocation_fault_mid_binding :
  let w := Scenario.world Scenario.busy_port 70 [] (Some 4%nat) in
  db_connection (allocate_ships_to_berths w) = Some Scenario.busy_port
  /\ log (allocate_ships_to_berths w) = [failed "allocate_ships_to_berths"].
Proof. vm_compute. split; reflexivity. Qed.

(** ** The efficiency figure *)

Lemma efficiency_value planned actual :
  exists q, Efficiency.efficiency planned actual = Efficiency.Value q.
Proof.
  unfold Efficiency.efficiency, Efficiency.truediv.
  destruct (0 <? actual) eqn:P; [|eexists; reflexivity].
  destruct (Z.eqb_spec actual 0); [lia|eexists; reflexivity].
Qed.

(** ** The finalization pass *)

Lemma finalize_operation_no_fault current_time op w d :
  fault_in w = None ->
  exists w',
    fault_in w' = None /\ db_connection w' = db_connection w /\
    finalize_operation current_time op (w, d)
    = (Ok tt, (w', finalize current_time op d)).
Proof.
  intros H. destruct op as [[[[[[op_id bid] vid] st] pl] vn] bn].
  unfold finalize_operation.
  destruct (efficiency_value pl (int_total_seconds (current_time - st))) as [q Eq].
  rewrite Eq. destruct w; simpl in H; subst.
  eexists. split; [|split].
  3: { unfold bind, execute, store_call, modify, get, info. simpl. reflexivity. }
  all: reflexivity.
Qed.

Lemma finalize_loop_no_fault current_time rows :
  forall w d, fault_in w = None ->
  exists w',
    fault_in w' = None /\ db_connection w' = db_connection w /\
    for_each rows (finalize_operation current_time) (w, d)
    = (Ok tt, (w', finalize_all current_time rows d)).
Proof.
  induction rows as [|r rows IH]; intros w d H.
  - exists w. auto.
  - destruct (finalize_operation_no_fault current_time r w d H) as (w1 & H1 & C1 & E1).
    destruct (IH w1 (finalize current_time r d) H1) as (w' & H' & C' & E').
    exists w'. repeat split; auto; [congruence|].
    simpl. rewrite (bind_ok _ _ _ _ _ E1). exact E'.
Qed.

Lemma update_no_fault w d :
  db_connection w = Some d -> fault_in w = None ->
  db_connection (update_ongoing_operations w)
  = Some (finalize_all (clock w (clock_reads w))
            (Sql.select_due_operations (clock w (clock_reads w)) d) d).
Proof.
  intros C H. unfold update_ongoing_operations, guarded, run. rewrite C.
  unfold update_body.
  set (t := clock w (clock_reads w)).
  assert (En : now (w, d) = (Ok t, (set_clock_reads (S (clock_reads w)) w, d)))
    by reflexivity.
  rewrite (bind_ok _ _ _ _ _ En).
  rewrite (bind_ok _ _ _ _ _
             (query_no_fault _ (set_clock_reads (S (clock_reads w)) w) d H)).
  destruct (finalize_loop_no_fault t (Sql.select_due_operations t d)
              (set_clock_reads (S (clock_reads w)) w) d H) as (w' & H' & C' & E').
  rewrite (bind_ok _ _ _ _ _ E'). rewrite (commit_no_fault _ _ H'). reflexivity.
Qed.

Section Finalization.
Variable current_time : datetime.

Lemma finalize_operations r d :
  t_operations (finalize current_time r d)
  = map (fun o =>
           if operations.operation_id o =? fetched_operation_id r
           then Sql.to_completed
                  (int_total_seconds (current_time - fetched_start_time r)) o
           else o)
        (t_operations d).
Proof. destruct r as [[[[[[? ?] ?] ?] ?] ?] ?]. reflexivity. Qed.

Lemma finalize_berths r d :
  t_berths (finalize current_time r d)
  = map (fun b => if berths.berth_id b =? fetched_berth_id r
                  then Sql.to_available current_time b else b)
        (t_berths d).
Proof. destruct r as [[[[[[? ?] ?] ?] ?] ?] ?]. reflexivity. Qed.

Lemma finalize_queue r d :
  t_vessel_queue (finalize current_time r d)
  = map (fun q => if vessel_queue.vessel_id q =? fetched_vessel_id r
                  then Sql.to_served current_time q else q)
        (t_vessel_queue d).
Proof. destruct r as [[[[[[? ?] ?] ?] ?] ?] ?]. reflexivity. Qed.

Lemma completed_stays rows :
  forall d c,
    In c (t_operations d) -> completed_at current_time c = c ->
    (forall r, In r rows -> fetched_operation_id r = operations.operation_id c ->
               fetched_start_time r = operations.start_time c) ->
    In c (t_operations (finalize_all current_time rows d)).
Proof.
  induction rows as [|r rows IH]; intros d c Hc Fix Hs; [exact Hc|].
  simpl. apply IH; auto; [|intros; apply Hs; auto; now right].
  rewrite finalize_operations. apply in_map_iff. exists c. split; [|exact Hc].
  destruct (Z.eqb_spec (operations.operation_id c) (fetched_operation_id r)) as [E|E];
    [|reflexivity].
  rewrite (Hs r (or_introl eq_refl) (eq_sym E)). exact Fix.
Qed.

Lemma due_operation_completed rows :
  forall d o,
    In o (t_operations d) ->
    (forall r, In r rows -> fetched_operation_id r = operations.operation_id o ->
               fetched_start_time r = operations.start_time o) ->
    (exists r, In r rows /\ fetched_operation_id r = operations.operation_id o) ->
    In (completed_at current_time o)
       (t_operations (finalize_all current_time rows d)).
Proof.
  induction rows as [|r rows IH]; intros d o Ho Hs (r0 & Hr0 & E0); [destruct Hr0|].
  simpl.
  destruct (Z.eqb_spec (operations.operation_id o) (fetched_operation_id r)) as [E|E].
  - apply completed_stays; [|reflexivity|intros; apply Hs; auto; now right].
    rewrite finalize_operations. apply in_map_iff. exists o. split; [|exact Ho].
    apply Z.eqb_eq in E. rewrite E.
    apply Z.eqb_eq in E. rewrite (Hs r (or_introl eq_refl) (eq_sym E)). reflexivity.
  - apply IH.
    + rewrite finalize_operations. apply in_map_iff. exists o. split; [|exact Ho].
      apply Z.eqb_neq in E. now rewrite E.
    + intros; apply Hs; auto; now right.
    + destruct Hr0 as [<-|Hr0]; [congruence|eauto].
Qed.

Lemma available_stays rows :
  forall d bid,
    (forall b, In b (t_berths d) -> berths.berth_id b = bid ->
               berths.status b = berths.available) ->
    forall b, In b (t_berths (finalize_all current_time rows d)) ->
              berths.berth_id b = bid -> berths.status b = berths.available.
Proof.
  induction rows as [|r rows IH]; intros d bid Hd; [exact Hd|].
  simpl. apply IH. intros b Hb Eb. rewrite finalize_berths in Hb.
  apply in_map_iff in Hb. destruct Hb as (b0 & <- & Hb0).
  destruct (berths.berth_id b0 =? fetched_berth_id r); [reflexivity|auto].
Qed.

Lemma berth_of_fetched_released rows :
  forall d r, In r rows ->
    forall b, In b (t_berths (finalize_all current_time rows d)) ->
              berths.berth_id b = fetched_berth_id r ->
              berths.status b = berths.available.
Proof.
  induction rows as [|r0 rows IH]; intros d r Hr; [destruct Hr|].
  destruct Hr as [->|Hr]; [|simpl; now apply IH].
  simpl. apply available_stays. intros b Hb Eb. rewrite finalize_berths in Hb.
  apply in_map_iff in Hb. destruct Hb as (b0 & <- & Hb0).
  destruct (Z.eqb_spec (berths.berth_id b0) (fetched_berth_id r));
    [reflexivity|contradiction].
Qed.

Lemma served_stays rows :
  forall d vid,
    (forall q, In q (t_vessel_queue d) -> vessel_queue.vessel_id q = vid ->
               vessel_queue.status q = vessel_queue.completed /\
               vessel_queue.end_service_time q = Some current_time) ->
    forall q, In q (t_vessel_queue (finalize_all current_time rows d)) ->
              vessel_queue.vessel_id q = vid ->
              vessel_queue.status q = vessel_queue.completed /\
              vessel_queue.end_service_time q = Some current_time.
Proof.
  induction rows as [|r rows IH]; intros d vid Hd; [exact Hd|].
  simpl. apply IH. intros q Hq Eq. rewrite finalize_queue in Hq.
  apply in_map_iff in Hq. destruct Hq as (q0 & <- & Hq0).
  destruct (vessel_queue.vessel_id q0 =? fetched_vessel_id r); [split; reflexivity|auto].
Qed.

Lemma entry_of_fetched_served rows :
  forall d r, In r rows ->
    forall q, In q (t_vessel_queue (finalize_all current_time rows d)) ->
              vessel_queue.vessel_id q = fetched_vessel_id r ->
              vessel_queue.status q = vessel_queue.completed /\
              vessel_queue.end_service_time q = Some current_time.
Proof.
  induction rows as [|r0 rows IH]; intros d r Hr; [destruct Hr|].
  destruct Hr as [->|Hr]; [|simpl; now apply IH].
  simpl. apply served_stays. intros q Hq Eq. rewrite finalize_queue in Hq.
  apply in_map_iff in Hq. destruct Hq as (q0 & <- & Hq0).
  destruct (Z.eqb_spec (vessel_queue.vessel_id q0) (fetched_vessel_id r));
    [split; reflexivity|contradiction].
Qed.

Lemma fetched_is_due d r :
  In r (Sql.select_due_operations current_time d) ->
  exists o, In o (t_operations d) /\ Sql.operation_due current_time o = true /\
            fetched_operation_id r = operations.operation_id o /\
            fetched_start_time r = operations.start_time o.
Proof.
  unfold Sql.select_due_operations. rewrite in_flat_map.
  intros (o & Ho & Hr). apply filter_In in Ho. destruct Ho as [Ho Due].
  apply in_flat_map in Hr. destruct Hr as (v & Hv & Hr).
  apply in_map_iff in Hr. destruct Hr as (b & <- & Hb).
  exists o. repeat split; auto.
Qed.

Lemma due_is_fetched d o :
  operations_refer d -> In o (t_operations d) ->
  Sql.operation_due current_time o = true ->
  exists r, In r (Sql.select_due_operations current_time d) /\
            fetched_operation_id r = operations.operation_id o /\
            fetched_berth_id r = operations.berth_id o /\
            fetched_vessel_id r = operations.vessel_id o.
Proof.
  intros F Ho Due. destruct (F o Ho) as ((v & Hv & Ev) & (b & Hb & Eb)).
  exists (operations.operation_id o, operations.berth_id o, operations.vessel_id o,
          operations.start_time o, operations.planned_duration o,
          vessels.vessel_name v, berths.berth_number b).
  split; [|repeat split].
  unfold Sql.select_due_operations. apply in_flat_map. exists o.
  split; [now apply filter_In|].
  apply in_flat_map. exists v. split; [apply filter_In; split; auto; now apply Z.eqb_eq|].
  apply in_map_iff. exists b. split; [reflexivity|].
  apply filter_In; split; auto. now apply Z.eqb_eq.
Qed.

End Finalization.

Lemma int_total_seconds_within td : whole_seconds_of td (int_total_seconds td).
Proof.
  unfold whole_seconds_of, int_total_seconds, seconds.
  pose proof (Z.quot_rem' td 1000000) as E.
  pose proof (Z.rem_bound_abs td 1000000) as B. lia.
Qed.

Lemma due_operations_finalized w d :
  db_connection w = Some d -> fault_in w = None ->
  operation_keys_unique d -> operations_refer d ->
  exists d',
    db_connection (update_ongoing_operations w) = Some d' /\
    forall o,
      In o (t_operations d) ->
      operations.status o = operations.in_progress ->
      operations.end_time o <= clock w (clock_reads w) ->
      (exists o',
         In o' (t_operations d') /\
         o' = completed_at (clock w (clock_reads w)) o /\
         operations.status o' = operations.completed /\
         operations.actual_duration o'
         = Some (int_total_seconds (clock w (clock_reads w) - operations.start_time o))) /\
      (forall b, In b (t_berths d') -> berths.berth_id b = operations.berth_id o ->
                 berths.status b = berths.available) /\
      (forall q, In q (t_vessel_queue d') ->
                 vessel_queue.vessel_id q = operations.vessel_id o ->
                 vessel_queue.status q = vessel_queue.completed /\
                 vessel_queue.end_service_time q = Some (clock w (clock_reads w))).
Proof.
  intros C H K F. rewrite (update_no_fault w d C H).
  set (t := clock w (clock_reads w)).
  eexists. split; [reflexivity|].
  intros o Ho St En.
  assert (Due : Sql.operation_due t o = true).
  { unfold Sql.operation_due. rewrite St. simpl. now apply Z.leb_le. }
  destruct (due_is_fetched t d o F Ho Due) as (r & Hr & Eo & Eb & Ev).
  split; [|split].
  - exists (completed_at t o). repeat split.
    apply due_operation_completed; [exact Ho| |eauto].
    intros r' Hr' E'. destruct (fetched_is_due t d r' Hr') as (o2 & Ho2 & _ & E2 & S2).
    assert (o2 = o) by (eapply key_determines_row; eauto; congruence).
    congruence.
  - rewrite <- Eb. now apply berth_of_fetched_released.
  - rewrite <- Ev. now apply entry_of_fetched_served.
Qed.

Lemma busy_port_operations_refer : operations_refer Scenario.busy_port.
Proof.
  intros o Ho. simpl in Ho. destruct Ho as [<-|[]].
  split; row_with_key.
Defined.

(** C5.  A finalization pass that meets no store failure (operation_id a key
    of operations, each operation referring to a vessel and a berth), run at
    the clock reading [now]: every operation that was InProgress with its end
    timestamp reached (end <= now) is Completed after the pass, its other
    columns as they were, with an actual_duration that is now - start in
    seconds, to within less than a second (so exactly now - start when that
    is a whole number of seconds); every queue entry of its vessel is
    Completed with service end [now]; and its berth is Available: no berth
    stays Occupied by a completed operation. *)
Theorem finalization_completes_due_operations w d :
  db_connection w = Some d -> fault_in w = None ->
  operation_keys_unique d -> operations_refer d ->
  exists d',
    db_connection (update_ongoing_operations w) = Some d' /\
    forall o,
      In o (t_operations d) ->
      operations.status o = operations.in_progress ->
      operations.end_time o <= clock w (clock_reads w) ->
      (exists o' actual,
         In o' (t_operations d') /\
         operations.operation_id o' = operations.operation_id o /\
         operations.vessel_id o' = operations.vessel_id o /\
         operations.berth_id o' = operations.berth_id o /\
         operations.operation_type o' = operations.operation_type o /\
         operations.start_time o' = operations.start_time o /\
         operations.end_time o' = operations.end_time o /\
         operations.planned_duration o' = operations.planned_duration o /\
         operations.status o' = operations.completed /\
         operations.actual_duration o' = Some actual /\
         whole_seconds_of (clock w (clock_reads w) - operations.start_time o) actual) /\
      (forall b, In b (t_berths d') -> berths.berth_id b = operations.berth_id o ->
                 berths.status b = berths.available) /\
      (forall q, In q (t_vessel_queue d') ->
                 vessel_queue.vessel_id q = operations.vessel_id o ->
                 vessel_queue.status q = vessel_queue.completed /\
                 vessel_queue.end_service_time q = Some (clock w (clock_reads w))).
Proof.
  intros C H K F.
  destruct (due_operations_finalized w d C H K F) as (d' & C' & Hall).
  exists d'. split; [exact C'|]. intros o Ho St En.
  destruct (Hall o Ho St En) as ((o' & Hin & -> & _) & Hb & Hq).
  split; [|split; assumption].
  exists (completed_at (clock w (clock_reads w)) o),
         (int_total_seconds (clock w (clock_reads w) - operations.start_time o)).
  split; [exact Hin|]. simpl. repeat split. apply int_total_seconds_within.
Qed.

Lemma finalization_completes_due_operations_witness :
  let w := Scenario.world Scenario.busy_port 70 [] None in
  let d := Scenario.busy_port in
  exists d',
    db_connection (update_ongoing_operations w) = Some d' /\
    forall o,
      In o (t_operations d) ->
      operations.status o = operations.in_progress ->
      operations.end_time o <= clock w (clock_reads w) ->
      (exists o' actual,
         In o' (t_operations d') /\
         operations.operation_id o' = operations.operation_id o /\
         operations.vessel_id o' = operations.vessel_id o /\
         operations.berth_id o' = operations.berth_id o /\
         operations.operation_type o' = operations.operation_type o /\
         operations.start_time o' = operations.start_time o /\
         operations.end_time o' = operations.end_time o /\
         operations.planned_duration o' = operations.planned_duration o /\
         operations.status o' = operations.completed /\
         operations.actual_duration o' = Some actual /\
         whole_seconds_of (clock w (clock_reads w) - operations.start_time o) actual) /\
      (forall b, In b (t_berths d') -> berths.berth_id b = operations.berth_id o ->
                 berths.status b = berths.available) /\
      (forall q, In q (t_vessel_queue d') ->
                 vessel_queue.vessel_id q = operations.vessel_id o ->
                 vessel_queue.status q = vessel_queue.completed /\
                 vessel_queue.end_service_time q = Some (clock w (clock_reads w))).
Proof.
  apply (finalization_completes_due_operations
           (Scenario.world Scenario.busy_port 70 [] None) Scenario.busy_port).
  - reflexivity.
  - reflexivity.
  - unfold operation_keys_unique. simpl. distinct_keys.
  - exact busy_port_operations_refer.
Defined.

(** The pass on the busy port at second 10000: the operation of vessel 7 at
    berth 2, started at second 9990 with its end at second 10000, is
    completed with an actual duration of 10 seconds and berth 2 is free. *)
Example busy_port_finalization :
  let d' := tables (update_ongoing_operations
                      (Scenario.world Scenario.busy_port 70 [] None)) in
  map (fun o => (operations.status o, operations.actual_duration o)) (t_operations d')
  = [(operations.completed, Some 10)]
  /\ map berths.status (t_berths d')
     = [berths.available; berths.available; berths.maintenance; berths.available]
  /\ map (fun q => (vessel_queue.vessel_id q, vessel_queue.status q,
                    vessel_queue.end_service_time q)) (t_vessel_queue d')
     = [(7, vessel_queue.completed, Some (seconds 10000));
        (1, vessel_queue.waiting, None); (2, vessel_queue.waiting, None);
        (3, vessel_queue.waiting, None)].
Proof. vm_compute. repeat split. Qed.

(** ** The maintenance scheduler *)

Lemma commit_then_info_commits_or_raises r :
  commits_or_raises (bind commit (fun _ => info r)).
Proof.
  intros [w d] s'. unfold bind, commit, store_call, info, modify. simpl.
  destruct (fault_in w) as [[|k]|]; intros [= <-]; reflexivity.
Qed.

Lemma maintenance_body_insensitive : fault_insensitive maintenance_body.
Proof.
  unfold maintenance_body. apply bind_insensitive; [block|]. intros r.
  apply bind_insensitive; [block|]. intros [[bid bn]|]; block.
Qed.

Lemma maintenance_body_commits_or_raises : commits_or_raises maintenance_body.
Proof.
  unfold maintenance_body. apply bind_commits_or_raises; [block|]. intros r.
  apply bind_commits_or_raises; [block|].
  intros [[bid bn]|]; [|apply keeps_then_commits_or_raises; block].
  apply bind_commits_or_raises; [block|]. intros r'.
  apply bind_commits_or_raises; [block|]. intros t.
  apply bind_commits_or_raises; [block|]. intros _.
  apply commit_then_info_commits_or_raises.
Qed.

(** What the scheduler leaves in the store: the tables as they were, or one
    UPDATE of the berths that are available. *)
Lemma maintenance_event_tables w :
  tables (simulate_maintenance_event w) = tables w
  \/ exists start_ end_ bid,
       tables (simulate_maintenance_event w)
       = Sql.berth_start_maintenance start_ end_ bid (tables w).
Proof.
  unfold tables at 1 3. unfold simulate_maintenance_event, guarded, run.
  destruct (db_connection w) as [d|] eqn:C; [|left; reflexivity].
  destruct (maintenance_body (w, d)) as [[[]|] [w1 d1]] eqn:E; simpl.
  - apply maintenance_body_insensitive in E. unfold without_faults in E. simpl in E.
    assert (K : db_connection w1
                = db_connection (fst (snd (maintenance_body (set_fault_in None w, d)))))
      by now rewrite E.
    rewrite K. clear K E. unfold tables. rewrite C.
    unfold maintenance_body, bind, draw, query, store_call, take_draw. simpl.
    destruct (Sql.select_random_available_berth (entropy w (draws w)) d)
      as [[bid bn]|]; simpl.
    + right. eauto.
    + left. now rewrite C.
  - pose proof (maintenance_body_commits_or_raises _ _ E) as K. simpl in K.
    left. unfold tables. now rewrite K, C.
Qed.

Lemma start_maintenance_berths start_ end_ bid d :
  Forall2 (fun b b' =>
             b' = b \/ (berths.status b = berths.available /\
                        berths.status b' = berths.maintenance /\
                        berths.berth_id b' = berths.berth_id b))
          (t_berths d) (t_berths (Sql.berth_start_maintenance start_ end_ bid d)).
Proof.
  unfold Sql.berth_start_maintenance, Sql.update_berths. simpl.
  induction (t_berths d) as [|b l IH]; simpl; constructor; [|exact IH].
  destruct (berths.berth_id b =? bid); simpl; [|now left].
  destruct (Sql.is_available b) eqn:A; [|now left].
  right. repeat split. now apply is_available_status.
Qed.

Lemma Forall2_same {A} (R : A -> A -> Prop) l :
  (forall x, R x x) -> Forall2 R l l.
Proof. intros H. induction l; constructor; auto. Qed.

(** C6.  Whatever is drawn and whatever store call fails, the maintenance
    scheduler leaves every berth row as it was, or takes it from Available to
    Maintenance: a berth that is Occupied or already in Maintenance is never
    moved, and the operations and the queue are left as they were, so no
    operation in progress is interrupted. *)
Theorem maintenance_only_takes_available_berths w :
  Forall2 (fun b b' =>
             b' = b \/ (berths.status b = berths.available /\
                        berths.status b' = berths.maintenance /\
                        berths.berth_id b' = berths.berth_id b))
          (t_berths (tables w))
          (t_berths (tables (simulate_maintenance_event w)))
  /\ t_operations (tables (simulate_maintenance_event w)) = t_operations (tables w)
  /\ t_vessel_queue (tables (simulate_maintenance_event w)) = t_vessel_queue (tables w).
Proof.
  destruct (maintenance_event_tables w) as [E|(s & e & bid & E)]; rewrite E.
  - repeat split. apply Forall2_same. now left.
  - repeat split. apply start_maintenance_berths.
Qed.

(** The scheduler on the busy port, for every first draw from 0 to 3: the
    berth taken is berth 1 or berth 4, the two that are available. *)
Example busy_port_maintenance :
  map (fun r => map berths.status
                  (t_berths (tables (simulate_maintenance_event
                                       (Scenario.world Scenario.busy_port 70 [r; 2] None)))))
      [0; 1; 2; 3]
  = [ [berths.maintenance; berths.occupied; berths.maintenance; berths.available];
      [berths.available; berths.occupied; berths.maintenance; berths.maintenance];
      [berths.maintenance; berths.occupied; berths.maintenance; berths.available];
      [berths.available; berths.occupied; berths.maintenance; berths.maintenance] ].
Proof. vm_compute. reflexivity. Qed.

(** ** The efficiency figure is total *)

(** C8.  The efficiency figure of a finalized operation is computed without
    a division by zero, for every planned and actual duration: the
    computation always yields a value and never the ZeroDivisionError that
    the division raises on a zero divisor; with an actual duration of 0 the
    division is not made and the figure is the fixed value 0. *)
Theorem efficiency_never_divides_by_zero planned actual :
  (exists q, Efficiency.efficiency planned actual = Efficiency.Value q)
  /\ Efficiency.efficiency planned 0 = Efficiency.Value 0
  /\ Efficiency.truediv planned 0 = Efficiency.ZeroDivisionError.
Proof.
  split; [apply efficiency_value|]. split; reflexivity.
Qed.

(** An operation finalized within the second it was started in has an actual
    duration of 0: the pass goes through, and logs an efficiency of 0. *)
Example finalization_with_zero_duration :
  let d := {| t_vessels := [Scenario.vessel 7 "MT Titan 7" 2 80];
              t_berths := [Scenario.berth 1 berths.occupied None];
              t_vessel_queue := [Scenario.entry 7 (seconds 5000) vessel_queue.in_service];
              t_operations := [Scenario.operation 1 7 1 9999500000 9999500000 0];
              t_customs_clearance := [] |} in
  let w' := update_ongoing_operations (Scenario.world d 0 [] None) in
  log w' = [concluded "MT Titan 7" 1 0 0 0 1]
  /\ map (fun o => (operations.status o, operations.actual_duration o))
         (t_operations (tables w'))
     = [(operations.completed, Some 0)].
Proof. vm_compute. split; reflexivity. Qed.

(** ** The arrival generator of the simulator *)

Lemma randint_range a b raw : a <= b -> a <= Random.randint a b raw <= b.
Proof.
  intros H. unfold Random.randint.
  pose proof (Z.mod_pos_bound raw (b - a + 1)). lia.
Qed.

Lemma generate_ship_data_arrival w :
  arrival_time (fst (generate_ship_data w))
  = clock w (clock_reads w)
    - minutes (Random.randint 5 120 (entropy w (5 + draws w)%nat)).
Proof.
  unfold generate_ship_data. simpl.
  destruct (Random.choice ("", 0, (0, 0), "") ship_types (entropy w (draws w)))
    as [[[ship_type prio] range] op].
  reflexivity.
Qed.

(** C10.  The arrival timestamp of a generated vessel is the clock reading
    of its generation less a whole number of minutes from 5 to 120, so it is
    strictly before the moment of generation; and the wait measured at a
    service start that is not before the generation is at least that many
    minutes. *)
Theorem arrival_is_backdated w start_time :
  clock w (clock_reads w) <= start_time ->
  exists offset,
    5 <= offset <= 120 /\
    arrival_time (fst (generate_ship_data w))
    = clock w (clock_reads w) - minutes offset /\
    arrival_time (fst (generate_ship_data w)) < clock w (clock_reads w) /\
    60 * offset
    <= int_total_seconds (start_time - arrival_time (fst (generate_ship_data w))).
Proof.
  intros Hs. rewrite generate_ship_data_arrival.
  set (offset := Random.randint 5 120 (entropy w (5 + draws w)%nat)).
  assert (Ho : 5 <= offset <= 120) by (apply randint_range; lia).
  exists offset. unfold minutes, seconds, int_total_seconds.
  repeat split; try lia.
  rewrite <- (Z.quot_mul (60 * offset) 1000000) at 1 by lia.
  apply Z.quot_le_mono; lia.
Qed.

Lemma arrival_is_backdated_witness :
  let w := Scenario.world Scenario.busy_port 70 [2; 5; 0; 0; 0; 7] None in
  let start_time := seconds 10050 in
  clock w (clock_reads w) <= start_time /\
  exists offset,
    5 <= offset <= 120 /\
    arrival_time (fst (generate_ship_data w))
    = clock w (clock_reads w) - minutes offset /\
    arrival_time (fst (generate_ship_data w)) < clock w (clock_reads w) /\
    60 * offset
    <= int_total_seconds (start_time - arrival_time (fst (generate_ship_data w))).
Proof.
  split.
  - vm_compute. discriminate.
  - apply (arrival_is_backdated
             (Scenario.world Scenario.busy_port 70 [2; 5; 0; 0; 0; 7] None)
             (seconds 10050)).
    vm_compute. discriminate.
Defined.

(** ** The order of the steps of a round *)

(** C2, as amended.  Every round of the loop runs its five steps in this
    order: maybe spawn a vessel, finalize the completed operations, release
    the berths whose maintenance has ended, allocate, maybe start a
    maintenance; so both steps that free berths run before the allocation of
    the same round. *)
Theorem tick_runs_the_steps_in_the_order_of_the_loop st :
  tick st = run_steps order_of_the_loop st
  /\ snd (tick st)
     = maybe_start_maintenance
         (allocate_ships_to_berths
            (release_maintenance_berths
               (update_ongoing_operations (snd (maybe_spawn_vessel st))))).
Proof.
  unfold tick, run_steps, order_of_the_loop. simpl.
  destruct (maybe_spawn_vessel st) as [n w]. split; reflexivity.
Qed.

(** C2, as stated, fails: a round on the quiet port in which a vessel arrives
    and no maintenance starts.  The loop stores the vessel first and binds it
    to the free berth in the same round; in the order of the specification
    the allocation runs before the arrival and the vessel is left waiting. *)
Lemma tick_is_not_in_the_order_of_the_specification :
  let st := (0, Scenario.world Scenario.quiet_port 0 (repeat 35 20) None) in
  tick st <> run_steps order_of_the_specification st.
Proof.
  intros st E.
  apply (f_equal (fun st => map vessel_queue.status
                              (t_vessel_queue (tables (snd st))))) in E.
  vm_compute in E. discriminate E.
Qed.

(** A round on the busy port with no arrival: berth 2 is freed by the
    finalization of the operation of vessel 7 and given away again by the
    allocation of the same round, so that all three waiting vessels are
    served. *)
Example busy_port_round :
  let d' := tables (snd (tick (0, Scenario.world Scenario.busy_port 70
                                    [99; 0; 0; 0; 99] None))) in
  map (fun o => (operations.vessel_id o, operations.berth_id o, operations.status o))
      (t_operations d')
  = [(7, 2, operations.completed); (3, 1, operations.in_progress);
     (2, 2, operations.in_progress); (1, 4, operations.in_progress)].
Proof. vm_compute. reflexivity. Qed.

(** ** The duration an operation is planned with *)

(** What the allocation writes, in general: the planned duration and the end
    timestamp of every operation it opens come from the [duration_seconds]
    field of the simulator, which holds the duration of the vessel stored
    last. *)
Lemma allocation_plans_with_last_stored_duration w d :
  db_connection w = Some d -> fault_in w = None ->
  exists new,
    t_operations (tables (allocate_ships_to_berths w)) = t_operations d ++ new /\
    Forall (fun o => operations.planned_duration o = duration_seconds w /\
                     operations.end_time o
                     = operations.start_time o + seconds (duration_seconds w)) new.
Proof.
  intros C H. destruct (allocate_no_fault w d C H) as (heads & d' & R & C').
  destruct (rounds_operations _ _ _ _ _ R) as (new & Ho & _ & _ & Hf & _).
  exists new. unfold tables. rewrite C'. split; [exact Ho|].
  eapply Forall_impl; [|exact Hf]. simpl. tauto.
Qed.

(** C1 fails on the code.  Three rounds on the closed port: vessel 1 is
    stored with an estimated duration of 50 seconds, vessel 2 with 100
    seconds; vessel 1, of higher priority, is the head of the queue when the
    berth opens, and its operation is planned with the 100 seconds of
    vessel 2, its end timestamp 100 seconds after its start. *)
Theorem backlog_operation_takes_the_duration_of_another_vessel :
  let d := tables (snd (simulate_real_time_data 3
                          (Scenario.world Scenario.closed_port 0
                                          Scenario.backlog_draws None))) in
  map (fun v => (vessels.vessel_id v, vessels.priority v, vessels.estimated_duration v))
      (t_vessels d)
  = [(1, 3, 50); (2, 1, 100)]
  /\ map (fun o => (operations.vessel_id o, operations.planned_duration o,
                    operations.end_time o - operations.start_time o))
         (t_operations d)
     = [(1, 100, seconds 100)].
Proof. vm_compute. split; reflexivity. Qed.

(** ** The duration a vessel is generated with *)

Lemma ship_types_priority raw :
  let '(_, prio, _, _) := Random.choice ("", 0, (0, 0), "") ship_types raw in
  prio = 1 \/ prio = 2 \/ prio = 3.
Proof.
  unfold Random.choice. change (List.length ship_types) with 6%nat.
  pose proof (Z.mod_pos_bound raw (Z.of_nat 6) eq_refl) as Hb.
  set (n := Z.to_nat (raw mod Z.of_nat 6)).
  assert (Hn : (n < 6)%nat) by (unfold n; lia).
  clearbody n. clear Hb.
  do 6 (destruct n as [|n]; [simpl; tauto|]). lia.
Qed.

Lemma generate_ship_data_duration w :
  service_duration (fst (generate_ship_data w))
  = seconds (Random.randint 45 120 (entropy w (1 + draws w)%nat)).
Proof.
  unfold generate_ship_data. simpl.
  destruct (Random.choice ("", 0, (0, 0), "") ship_types (entropy w (draws w)))
    as [[[ship_type prio] range] op].
  reflexivity.
Qed.

Lemma generate_ship_data_priority w :
  priority (fst (generate_ship_data w))
  = let '(_, prio, _, _) :=
      Random.choice ("", 0, (0, 0), "") ship_types (entropy w (draws w)) in prio.
Proof.
  unfold generate_ship_data. simpl.
  destruct (Random.choice ("", 0, (0, 0), "") ship_types (entropy w (draws w)))
    as [[[ship_type prio] range] op].
  reflexivity.
Qed.

(** What the generator of the simulator does keep to: a priority of 1, 2 or
    3, given by the type drawn, and a duration of 45 to 120 seconds that is
    the second draw alone, whatever the type. *)
Lemma generate_ship_data_bounds w :
  (priority (fst (generate_ship_data w)) = 1
   \/ priority (fst (generate_ship_data w)) = 2
   \/ priority (fst (generate_ship_data w)) = 3)
  /\ service_duration (fst (generate_ship_data w))
     = seconds (Random.randint 45 120 (entropy w (1 + draws w)%nat))
  /\ 45 <= Random.randint 45 120 (entropy w (1 + draws w)%nat) <= 120.
Proof.
  rewrite generate_ship_data_priority, generate_ship_data_duration.
  pose proof (ship_types_priority (entropy w (draws w))) as Hp.
  destruct (Random.choice ("", 0, (0, 0), "") ship_types (entropy w (draws w)))
    as [[[ship_type prio] range] op].
  split; [exact Hp|]. split; [reflexivity|]. apply randint_range. lia.
Qed.

(** The generator of [vessel.py] does key the duration by type: it is in the
    range of hours that [SERVICE_HOURS] gives for the type, or in the default
    range of 8 to 16 for a type that is not in the table. *)
Lemma get_realistic_service_hours_in_range_of_type ship_type w :
  fst (VesselGenerator.dict_get VesselGenerator.SERVICE_HOURS ship_type (8, 16))
  <= fst (VesselGenerator.get_realistic_service_hours ship_type w)
  <= snd (VesselGenerator.dict_get VesselGenerator.SERVICE_HOURS ship_type (8, 16)).
Proof.
  unfold VesselGenerator.get_realistic_service_hours.
  assert (Hr : let r := VesselGenerator.dict_get VesselGenerator.SERVICE_HOURS
                          ship_type (8, 16) in fst r <= snd r).
  { unfold VesselGenerator.dict_get, VesselGenerator.SERVICE_HOURS, find.
    cbn [fst snd].
    repeat match goal with
           | |- context [String.eqb ?a ?b] => destruct (String.eqb a b); cbn [fst snd]
           end; lia. }
  destruct (VesselGenerator.dict_get VesselGenerator.SERVICE_HOURS ship_type (8, 16))
    as [min_h max_h].
  simpl in *. now apply randint_range.
Qed.

(** C9 fails on the code of the simulator.  With the type draw on the sixth
    type and the duration draw at the top of its range, the vessel generated
    is a "Frigorífico", whose range in the table of types is 45 to 55, with a
    duration of 120 seconds. *)
Theorem generated_duration_is_not_keyed_by_type :
  let ship := fst (generate_ship_data
                     (Scenario.world Scenario.quiet_port 0 [5; 75; 0; 0; 0; 0] None)) in
  type ship = "Frigorífico"
  /\ In ("Frigorífico", 3, (45, 55), "import") ship_types
  /\ priority ship = 3
  /\ service_duration ship = seconds 120.
Proof. vm_compute. repeat split; auto 7. Qed.

(* ================================================================== *)
(** * More of the simulator *)

Import Startup Invariant.

(** ** Steps and store failures, in general *)

Lemma ret_never_raises {A} (a : A) : never_raises (ret a).
Proof. intros s s'. discriminate. Qed.

Lemma info_never_raises r : never_raises (info r).
Proof. intros s s'. discriminate. Qed.

Lemma bind_never_raises {A B} (m : M A) (f : A -> M B) :
  never_raises m -> (forall a, never_raises (f a)) -> never_raises (bind m f).
Proof.
  intros Hm Hf s s'. unfold bind. destruct (m s) as [[a|] s1] eqn:E.
  - apply Hf.
  - exfalso. exact (Hm _ _ E).
Qed.

Lemma for_each_never_raises {A} (xs : list A) (body : A -> M unit) :
  (forall x, never_raises (body x)) -> never_raises (for_each xs body).
Proof.
  intros Hb. induction xs as [|x xs IH]; simpl.
  - apply ret_never_raises.
  - apply bind_never_raises; auto.
Qed.

Lemma commit_then_commits_or_raises {A} (m : M A) :
  never_raises m -> commits_or_raises (bind commit (fun _ => m)).
Proof.
  intros NR [w d] s'. unfold bind, commit, store_call. simpl.
  destruct (fault_in w) as [[|k]|].
  - intros [= <-]. reflexivity.
  - intros E. exfalso. exact (NR _ _ E).
  - intros E. exfalso. exact (NR _ _ E).
Qed.

(** A step whose block commits at its end, or not at all, leaves the
    committed tables as they were or as the step does when no store call can
    fail. *)
Lemma run_tables_cases {A} step (body : M A) w :
  fault_insensitive body -> commits_or_raises body ->
  tables (snd (run step body w)) = tables w
  \/ tables (snd (run step body w))
     = tables (snd (run step body (set_fault_in None w))).
Proof.
  intros FI CR. unfold run at 1 2.
  destruct (db_connection w) as [d|] eqn:C; [|left; reflexivity].
  destruct (body (w, d)) as [[a|] [w1 d1]] eqn:E.
  - right. apply FI in E. unfold without_faults in E. simpl in E.
    unfold run. simpl (db_connection (set_fault_in None w)). rewrite C, E.
    reflexivity.
  - left. pose proof (CR _ _ E) as K. simpl in K.
    unfold tables. simpl. now rewrite K, C.
Qed.

Lemma guarded_tables_cases step body w :
  fault_insensitive body -> commits_or_raises body ->
  tables (guarded step body w) = tables w
  \/ tables (guarded step body w) = tables (guarded step body (set_fault_in None w)).
Proof. apply run_tables_cases. Qed.

Lemma tables_connected w d : db_connection w = Some d -> tables w = d.
Proof. unfold tables. now intros ->. Qed.

Lemma tables_disconnected step body w :
  db_connection w = None -> guarded step body w = w.
Proof. unfold guarded, run. now intros ->. Qed.

(** ** The blocks of the other steps *)

Lemma finalize_operation_insensitive t op : fault_insensitive (finalize_operation t op).
Proof.
  destruct op as [[[[[[op_id bid] vid] st] pl] vn] bn]. unfold finalize_operation.
  do 4 (apply bind_insensitive; [block|intros ?]).
  destruct (Efficiency.efficiency pl (int_total_seconds (t - st))); [block|].
  intros s a' s'. discriminate.
Qed.

Lemma finalize_operation_keeps t op : keeps_committed (finalize_operation t op).
Proof.
  destruct op as [[[[[[op_id bid] vid] st] pl] vn] bn]. unfold finalize_operation.
  do 4 (apply bind_keeps; [block|intros ?]).
  destruct (Efficiency.efficiency pl (int_total_seconds (t - st))); [block|].
  intros s r s' [= <- <-]. reflexivity.
Qed.

Lemma update_body_insensitive : fault_insensitive update_body.
Proof.
  unfold update_body. apply bind_insensitive; [block|]. intros t.
  apply bind_insensitive; [block|]. intros rows.
  apply bind_insensitive; [|block].
  apply for_each_insensitive, finalize_operation_insensitive.
Qed.

Lemma update_body_commits_or_raises : commits_or_raises update_body.
Proof.
  unfold update_body. apply bind_commits_or_raises; [block|]. intros t.
  apply bind_commits_or_raises; [block|]. intros rows.
  apply bind_commits_or_raises; [|block].
  apply for_each_keeps, finalize_operation_keeps.
Qed.

Lemma release_body_insensitive : fault_insensitive release_body.
Proof. unfold release_body. block. Qed.

Lemma release_body_commits_or_raises : commits_or_raises release_body.
Proof.
  unfold release_body. apply bind_commits_or_raises; [block|]. intros t.
  apply bind_commits_or_raises; [block|]. intros rel.
  apply commit_then_commits_or_raises, for_each_never_raises.
  intros x. apply info_never_raises.
Qed.

(** A property of the tables before and after a step that holds when the
    tables are left alone and when no store call can fail holds whatever
    fails. *)
Lemma step_tables_cases step body w (P : DB -> DB -> Prop) :
  fault_insensitive body -> commits_or_raises body ->
  (forall d, P d d) ->
  (forall d, db_connection w = Some d ->
             P d (tables (guarded step body (set_fault_in None w)))) ->
  P (tables w) (tables (guarded step body w)).
Proof.
  intros FI CR Hrefl Hok.
  destruct (guarded_tables_cases step body w FI CR) as [E|E]; rewrite E; [apply Hrefl|].
  destruct (db_connection w) as [d|] eqn:C.
  - rewrite (tables_connected w d C). apply Hok. reflexivity.
  - rewrite tables_disconnected by exact C.
    unfold tables. simpl. rewrite C. apply Hrefl.
Qed.

Lemma for_each_info_no_fault {A} (f : A -> log_record) xs :
  forall w d,
  exists w',
    for_each xs (fun x => info (f x)) (w, d) = (Ok tt, (w', d)) /\
    db_connection w' = db_connection w /\ fault_in w' = fault_in w /\
    clock_reads w' = clock_reads w /\ draws w' = draws w /\
    log w' = log w ++ map f xs.
Proof.
  induction xs as [|x xs IH]; intros w d.
  - exists w. simpl. rewrite app_nil_r. repeat split.
  - destruct (IH (write_log (f x) w) d) as (w' & E & C & F & K & D & L).
    exists w'. simpl. unfold bind at 1. simpl. rewrite E.
    repeat split; auto. rewrite L. simpl. now rewrite <- app_assoc.
Qed.

Lemma release_no_fault w d :
  db_connection w = Some d -> fault_in w = None ->
  db_connection (release_maintenance_berths w)
  = Some (snd (Sql.berths_end_maintenance (clock w (clock_reads w)) d)).
Proof.
  intros C H. unfold release_maintenance_berths, guarded, run. rewrite C.
  unfold release_body.
  set (t := clock w (clock_reads w)).
  set (w1 := set_clock_reads (S (clock_reads w)) w).
  assert (En : now (w, d) = (Ok t, (w1, d))) by reflexivity.
  rewrite (bind_ok _ _ _ _ _ En).
  rewrite (bind_ok _ _ _ _ _ (execute_returning_no_fault _ w1 d H)).
  rewrite (bind_ok _ _ _ _ _ (commit_no_fault w1 _ H)).
  destruct (for_each_info_no_fault released
              (fst (Sql.berths_end_maintenance t d))
              (set_db_connection (Some (snd (Sql.berths_end_maintenance t d))) w1)
              (snd (Sql.berths_end_maintenance t d)))
    as (w' & E & C' & _).
  rewrite E. simpl. exact C'.
Qed.

Lemma maintenance_no_fault w d :
  db_connection w = Some d -> fault_in w = None ->
  db_connection (simulate_maintenance_event w)
  = Some match Sql.select_random_available_berth (entropy w (draws w)) d with
         | None => d
         | Some (berth_id, _) =>
             Sql.berth_start_maintenance
               (clock w (clock_reads w))
               (clock w (clock_reads w)
                + minutes (Random.randint 5 10 (entropy w (S (draws w)))))
               berth_id d
         end.
Proof.
  intros C H. unfold simulate_maintenance_event, guarded, run. rewrite C.
  unfold maintenance_body.
  set (w1 := set_draws (S (draws w)) w).
  assert (E1 : draw (w, d) = (Ok (entropy w (draws w)), (w1, d))) by reflexivity.
  rewrite (bind_ok _ _ _ _ _ E1).
  rewrite (bind_ok _ _ _ _ _ (query_no_fault _ w1 d H)).
  destruct (Sql.select_random_available_berth (entropy w (draws w)) d)
    as [[bid bn]|]; [|exact C].
  set (w2 := set_draws (S (S (draws w))) w1).
  assert (E2 : draw (w1, d) = (Ok (entropy w (S (draws w))), (w2, d))) by reflexivity.
  rewrite (bind_ok _ _ _ _ _ E2).
  set (w3 := set_clock_reads (S (clock_reads w)) w2).
  assert (E3 : now (w2, d) = (Ok (clock w (clock_reads w)), (w3, d))) by reflexivity.
  rewrite (bind_ok _ _ _ _ _ E3).
  rewrite (bind_ok _ _ _ _ _ (execute_no_fault _ w3 d H)).
  rewrite (bind_ok _ _ _ _ _ (commit_no_fault w3 _ H)).
  reflexivity.
Qed.

Lemma insert_no_fault ship w d :
  db_connection w = Some d -> fault_in w = None ->
  let vid := next_key (map vessels.vessel_id (t_vessels d)) in
  let duration := int_total_seconds (service_duration ship) in
  fst (insert_vessel_to_db ship w) = Some vid /\
  db_connection (snd (insert_vessel_to_db ship w))
  = Some (Sql.insert_queue vid (arrival_time ship)
            (Sql.insert_customs vid (customs_status ship)
               (snd (Sql.insert_vessel (name ship) (type ship) (priority ship)
                                       duration d)))) /\
  duration_seconds (snd (insert_vessel_to_db ship w)) = duration /\
  log (snd (insert_vessel_to_db ship w)) = log w.
Proof.
  intros C H. unfold insert_vessel_to_db, run. rewrite C.
  destruct w; simpl in C, H; subst. repeat split.
Qed.

(** ** The release of berths from maintenance *)

Lemma end_maintenance_berths t d :
  Forall2 (fun b b' =>
             b' = b \/ (berths.status b = berths.maintenance /\
                        (exists e, berths.end_maintenance b = Some e /\ e <= t) /\
                        b' = Sql.out_of_maintenance t b))
          (t_berths d) (t_berths (snd (Sql.berths_end_maintenance t d))).
Proof.
  unfold Sql.berths_end_maintenance, Sql.update_berths. simpl.
  induction (t_berths d) as [|b l IH]; simpl; constructor; [|exact IH].
  destruct (Sql.maintenance_elapsed t b) eqn:M; [|now left].
  right. unfold Sql.maintenance_elapsed in M. apply andb_true_iff in M.
  destruct M as [M1 M2]. repeat split.
  - destruct (berths.status b); simpl in M1; congruence.
  - destruct (berths.end_maintenance b) as [e|]; [|discriminate].
    exists e. split; [reflexivity|]. now apply Z.leb_le.
Qed.

(** X1.  Whatever store call fails, the release step leaves every berth row
    as it was, or takes it from Maintenance, with a window that has ended at
    the clock reading of the step, to Available with the window cleared: a
    berth that is Occupied, Available, in a window that has not ended or in
    one without an end is never touched, nor are the other tables. *)
Theorem release_only_frees_elapsed_maintenance w :
  Forall2 (fun b b' =>
             b' = b \/ (berths.status b = berths.maintenance /\
                        (exists e, berths.end_maintenance b = Some e /\
                                   e <= clock w (clock_reads w)) /\
                        b' = Sql.out_of_maintenance (clock w (clock_reads w)) b))
          (t_berths (tables w))
          (t_berths (tables (release_maintenance_berths w)))
  /\ t_operations (tables (release_maintenance_berths w)) = t_operations (tables w)
  /\ t_vessel_queue (tables (release_maintenance_berths w)) = t_vessel_queue (tables w)
  /\ t_vessels (tables (release_maintenance_berths w)) = t_vessels (tables w).
Proof.
  unfold release_maintenance_berths.
  apply (step_tables_cases "release_maintenance_berths" release_body w
           (fun d d' =>
              Forall2 (fun b b' =>
                         b' = b \/ (berths.status b = berths.maintenance /\
                                    (exists e, berths.end_maintenance b = Some e /\
                                               e <= clock w (clock_reads w)) /\
                                    b' = Sql.out_of_maintenance (clock w (clock_reads w)) b))
                      (t_berths d) (t_berths d')
              /\ t_operations d' = t_operations d
              /\ t_vessel_queue d' = t_vessel_queue d
              /\ t_vessels d' = t_vessels d)).
  - apply release_body_insensitive.
  - apply release_body_commits_or_raises.
  - intros d. repeat split. apply Forall2_same. now left.
  - intros d C.
    pose proof (release_no_fault (set_fault_in None w) d C eq_refl) as E.
    unfold release_maintenance_berths in E.
    rewrite (tables_connected _ _ E). simpl.
    repeat split. apply end_maintenance_berths.
Qed.

(** X2.  A release step that meets no store failure frees every berth whose
    maintenance window has ended at its clock reading: the row is Available
    after it, with both ends of the window cleared. *)
Theorem release_frees_every_elapsed_berth w d :
  db_connection w = Some d -> fault_in w = None ->
  forall b e,
    In b (t_berths d) -> berths.status b = berths.maintenance ->
    berths.end_maintenance b = Some e -> e <= clock w (clock_reads w) ->
    exists b',
      In b' (t_berths (tables (release_maintenance_berths w))) /\
      berths.berth_id b' = berths.berth_id b /\
      berths.status b' = berths.available /\
      berths.start_maintenance b' = None /\ berths.end_maintenance b' = None.
Proof.
  intros C H b e Hb St En Le.
  rewrite (tables_connected _ _ (release_no_fault w d C H)).
  exists (Sql.out_of_maintenance (clock w (clock_reads w)) b).
  split; [|repeat split].
  unfold Sql.berths_end_maintenance, Sql.update_berths. simpl.
  apply in_map_iff. exists b. split; [|exact Hb].
  unfold Sql.maintenance_elapsed. rewrite St, En. simpl.
  apply Z.leb_le in Le. now rewrite Le.
Qed.

Lemma release_frees_every_elapsed_berth_witness :
  let w := set_clock_reads 8 (Scenario.world Scenario.closed_port 0 [] None) in
  let b := Scenario.berth 1 berths.maintenance (Some (seconds 10007)) in
  exists b',
    In b' (t_berths (tables (release_maintenance_berths w))) /\
    berths.berth_id b' = berths.berth_id b /\
    berths.status b' = berths.available /\
    berths.start_maintenance b' = None /\ berths.end_maintenance b' = None.
Proof.
  apply (release_frees_every_elapsed_berth
           (set_clock_reads 8 (Scenario.world Scenario.closed_port 0 [] None))
           Scenario.closed_port eq_refl eq_refl
           (Scenario.berth 1 berths.maintenance (Some (seconds 10007)))
           (seconds 10007)).
  - left. reflexivity.
  - reflexivity.
  - reflexivity.
  - vm_compute. discriminate.
Defined.

(** ** The window of a maintenance *)

Lemma choice_in {A} (dflt : A) l raw : l <> [] -> In (Random.choice dflt l raw) l.
Proof.
  intros Hl. unfold Random.choice. apply nth_In.
  destruct l as [|x l]; [contradiction|].
  pose proof (Z.mod_pos_bound raw (Z.of_nat (List.length (x :: l)))) as Hb.
  simpl List.length in *. lia.
Qed.

Lemma maintenance_of_a_fetched_berth w d :
  db_connection w = Some d -> fault_in w = None -> berth_keys_unique d ->
  (Sql.select_available_berths d = [] ->
   tables (simulate_maintenance_event w) = d)
  /\ (Sql.select_available_berths d <> [] ->
      exists b minutes_,
        In b (t_berths d) /\ berths.status b = berths.available /\
        5 <= minutes_ <= 10 /\
        In (Sql.to_maintenance (clock w (clock_reads w))
              (clock w (clock_reads w) + minutes minutes_) b)
           (t_berths (tables (simulate_maintenance_event w))) /\
        forall b2, In b2 (t_berths d) -> b2 <> b ->
                   In b2 (t_berths (tables (simulate_maintenance_event w)))).
Proof.
  intros C H K. rewrite (tables_connected _ _ (maintenance_no_fault w d C H)).
  unfold Sql.select_random_available_berth.
  destruct (Sql.select_available_berths d) as [|a l] eqn:A.
  - split; [reflexivity|]. intros N. contradiction.
  - split; [discriminate|]. intros _.
    assert (Hin : In (Random.choice a (a :: l) (entropy w (draws w)))
                     (Sql.select_available_berths d)).
    { rewrite A. apply choice_in. discriminate. }
    destruct (Random.choice a (a :: l) (entropy w (draws w))) as [bid bn].
    unfold Sql.select_available_berths in Hin. apply in_map_iff in Hin.
    destruct Hin as (b & [= Eb En] & Hb). apply filter_In in Hb.
    destruct Hb as [Hb Av].
    exists b, (Random.randint 5 10 (entropy w (S (draws w)))).
    split; [exact Hb|]. split; [now apply is_available_status|].
    split; [apply randint_range; lia|]. split.
    + unfold Sql.berth_start_maintenance, Sql.update_berths. simpl.
      apply in_map_iff. exists b. split; [|exact Hb].
      rewrite Av. apply Z.eqb_eq in Eb. now rewrite Eb.
    + intros b2 Hb2 Ne.
      unfold Sql.berth_start_maintenance, Sql.update_berths. simpl.
      apply in_map_iff. exists b2. split; [|exact Hb2].
      destruct (Z.eqb_spec (berths.berth_id b2) bid) as [E2|E2]; [|reflexivity].
      exfalso. apply Ne. eapply key_determines_row; eauto. congruence.
Qed.

Lemma no_available_row d :
  Sql.select_available_berths d = [] <->
  forall b, In b (t_berths d) -> berths.status b <> berths.available.
Proof.
  unfold Sql.select_available_berths. split.
  - intros E b Hb Av. apply map_eq_nil in E.
    assert (Hin : In b (filter Sql.is_available (t_berths d)))
      by (apply filter_In; split; [exact Hb|now apply available_status_is_available]).
    rewrite E in Hin. destruct Hin.
  - intros Hno. destruct (filter Sql.is_available (t_berths d)) as [|b l] eqn:E;
      [reflexivity|].
    assert (Hin : In b (filter Sql.is_available (t_berths d))) by (rewrite E; now left).
    apply filter_In in Hin. destruct Hin as [Hb Av].
    apply is_available_status in Av. now destruct (Hno b Hb).
Qed.

(** X3.  A maintenance event that meets no store failure: when no row of
    the berths table is Available it changes nothing; when one is, one berth
    that was Available is in Maintenance after it, with a window that starts
    at the clock reading of the event and lasts a whole number of minutes
    from 5 to 10, and (the berth_id being a key) every other berth row is as
    it was. *)
Theorem maintenance_window_is_5_to_10_minutes w d :
  db_connection w = Some d -> fault_in w = None -> berth_keys_unique d ->
  ((forall b, In b (t_berths d) -> berths.status b <> berths.available) ->
   tables (simulate_maintenance_event w) = d)
  /\ ((exists b, In b (t_berths d) /\ berths.status b = berths.available) ->
      exists b minutes_,
        In b (t_berths d) /\ berths.status b = berths.available /\
        5 <= minutes_ <= 10 /\
        In (Sql.to_maintenance (clock w (clock_reads w))
              (clock w (clock_reads w) + minutes minutes_) b)
           (t_berths (tables (simulate_maintenance_event w))) /\
        forall b2, In b2 (t_berths d) -> b2 <> b ->
                   In b2 (t_berths (tables (simulate_maintenance_event w)))).
Proof.
  intros C H K.
  destruct (maintenance_of_a_fetched_berth w d C H K) as [Hnone Hsome].
  split.
  - intros Hno. apply Hnone. now apply no_available_row.
  - intros (b & Hb & Av). apply Hsome. intros E.
    now destruct (proj1 (no_available_row d) E b Hb).
Qed.

Lemma maintenance_window_is_5_to_10_minutes_witness :
  let w := Scenario.world Scenario.busy_port 70 [1; 3] None in
  let d := Scenario.busy_port in
  ((forall b, In b (t_berths d) -> berths.status b <> berths.available) ->
   tables (simulate_maintenance_event w) = d)
  /\ ((exists b, In b (t_berths d) /\ berths.status b = berths.available) ->
      exists b minutes_,
        In b (t_berths d) /\ berths.status b = berths.available /\
        5 <= minutes_ <= 10 /\
        In (Sql.to_maintenance (clock w (clock_reads w))
              (clock w (clock_reads w) + minutes minutes_) b)
           (t_berths (tables (simulate_maintenance_event w))) /\
        forall b2, In b2 (t_berths d) -> b2 <> b ->
                   In b2 (t_berths (tables (simulate_maintenance_event w)))).
Proof.
  apply (maintenance_window_is_5_to_10_minutes
           (Scenario.world Scenario.busy_port 70 [1; 3] None) Scenario.busy_port).
  - reflexivity.
  - reflexivity.
  - unfold berth_keys_unique. simpl. distinct_keys.
Defined.

(** ** Storing a vessel *)

Lemma next_key_is_new keys : ~ In (next_key keys) keys.
Proof.
  assert (Hmax : forall x, In x keys -> x <= fold_right Z.max 0 keys).
  { induction keys as [|k keys IH]; simpl; [tauto|].
    intros x [<-|Hx]; [lia|]. specialize (IH x Hx). lia. }
  intros Hin. apply Hmax in Hin. unfold next_key in Hin. lia.
Qed.

Lemma next_key_positive keys : 1 <= next_key keys.
Proof.
  unfold next_key.
  assert (0 <= fold_right Z.max 0 keys) by (induction keys; simpl; lia). lia.
Qed.

(** X4.  A vessel stored without a store failure gets a key that no vessel
    had, and is a candidate of the next allocation: the vessels table has a
    row with that key, the name and the priority of the descriptor and an
    estimated duration that is the descriptor's service duration in seconds,
    to within less than a second; the queue has a row for that key, Waiting,
    with the arrival of the descriptor; and the rows there were in both
    tables are there still. *)
Theorem stored_vessel_is_a_waiting_candidate ship w d :
  db_connection w = Some d -> fault_in w = None ->
  exists vid,
    fst (insert_vessel_to_db ship w) = Some vid /\
    ~ In vid (map vessels.vessel_id (t_vessels d)) /\
    (exists q v,
       In q (t_vessel_queue (tables (snd (insert_vessel_to_db ship w)))) /\
       In v (t_vessels (tables (snd (insert_vessel_to_db ship w)))) /\
       vessel_queue.status q = vessel_queue.waiting /\
       vessel_queue.vessel_id q = vid /\ vessels.vessel_id v = vid /\
       vessels.vessel_name v = name ship /\
       vessels.priority v = priority ship /\
       whole_seconds_of (service_duration ship) (vessels.estimated_duration v) /\
       vessel_queue.arrival_time q = arrival_time ship) /\
    (forall q, In q (t_vessel_queue d) ->
               In q (t_vessel_queue (tables (snd (insert_vessel_to_db ship w))))) /\
    (forall v, In v (t_vessels d) ->
               In v (t_vessels (tables (snd (insert_vessel_to_db ship w))))).
Proof.
  intros C H. destruct (insert_no_fault ship w d C H) as (R & D & _).
  exists (next_key (map vessels.vessel_id (t_vessels d))).
  split; [exact R|]. split; [apply next_key_is_new|].
  rewrite (tables_connected _ _ D). split; [|split].
  - eexists. eexists.
    split; [simpl; apply in_or_app; right; left; reflexivity|].
    split; [simpl; apply in_or_app; right; left; reflexivity|].
    simpl. repeat split. apply int_total_seconds_within.
  - intros q Hq. simpl. apply in_or_app. now left.
  - intros v Hv. simpl. apply in_or_app. now left.
Qed.

Lemma stored_vessel_is_a_waiting_candidate_witness :
  let ship := fst (generate_ship_data
                     (Scenario.world Scenario.busy_port 70 [2; 5; 0; 0; 0; 7] None)) in
  let w := Scenario.world Scenario.busy_port 70 [] None in
  let d := Scenario.busy_port in
  exists vid,
    fst (insert_vessel_to_db ship w) = Some vid /\
    ~ In vid (map vessels.vessel_id (t_vessels d)) /\
    (exists q v,
       In q (t_vessel_queue (tables (snd (insert_vessel_to_db ship w)))) /\
       In v (t_vessels (tables (snd (insert_vessel_to_db ship w)))) /\
       vessel_queue.status q = vessel_queue.waiting /\
       vessel_queue.vessel_id q = vid /\ vessels.vessel_id v = vid /\
       vessels.vessel_name v = name ship /\
       vessels.priority v = priority ship /\
       whole_seconds_of (service_duration ship) (vessels.estimated_duration v) /\
       vessel_queue.arrival_time q = arrival_time ship) /\
    (forall q, In q (t_vessel_queue d) ->
               In q (t_vessel_queue (tables (snd (insert_vessel_to_db ship w))))) /\
    (forall v, In v (t_vessels d) ->
               In v (t_vessels (tables (snd (insert_vessel_to_db ship w))))).
Proof.
  apply (stored_vessel_is_a_waiting_candidate
           (fst (generate_ship_data
                   (Scenario.world Scenario.busy_port 70 [2; 5; 0; 0; 0; 7] None)))
           (Scenario.world Scenario.busy_port 70 [] None) Scenario.busy_port);
    reflexivity.
Defined.

(** X5.  When one of the four store calls of [insert_vessel_to_db] fails
    (the three INSERTs and the commit), no vessel id is returned, the
    committed tables are those from before and the failure is logged; the
    field [duration_seconds] of the simulator has taken the duration of the
    vessel that was not stored all the same: it is the service duration of
    the descriptor in seconds, to within less than a second. *)
Theorem failed_insert_leaves_the_store ship w d k :
  db_connection w = Some d -> fault_in w = Some k -> (k < 4)%nat ->
  fst (insert_vessel_to_db ship w) = None /\
  db_connection (snd (insert_vessel_to_db ship w)) = Some d /\
  log (snd (insert_vessel_to_db ship w)) = log w ++ [failed "insert_vessel_to_db"] /\
  whole_seconds_of (service_duration ship)
                   (duration_seconds (snd (insert_vessel_to_db ship w))).
Proof.
  intros C H Hk. unfold insert_vessel_to_db, run. rewrite C.
  destruct w; simpl in C, H; subst.
  do 4 (destruct k as [|k];
        [repeat split; apply int_total_seconds_within|]). lia.
Qed.

Lemma failed_insert_leaves_the_store_witness :
  let ship := fst (generate_ship_data
                     (Scenario.world Scenario.busy_port 70 [2; 5; 0; 0; 0; 7] None)) in
  let w := Scenario.world Scenario.busy_port 70 [] (Some 2%nat) in
  fst (insert_vessel_to_db ship w) = None /\
  db_connection (snd (insert_vessel_to_db ship w)) = Some Scenario.busy_port /\
  log (snd (insert_vessel_to_db ship w)) = log w ++ [failed "insert_vessel_to_db"] /\
  whole_seconds_of (service_duration ship)
                   (duration_seconds (snd (insert_vessel_to_db ship w))).
Proof.
  apply (failed_insert_leaves_the_store
           (fst (generate_ship_data
                   (Scenario.world Scenario.busy_port 70 [2; 5; 0; 0; 0; 7] None)))
           (Scenario.world Scenario.busy_port 70 [] (Some 2%nat))
           Scenario.busy_port 2%nat).
  - reflexivity.
  - reflexivity.
  - lia.
Defined.

(** ** The descriptor of a generated vessel *)

Lemma pick_weighted_in {A} (dflt : A) items :
  forall r, 0 <= r < fold_right Z.add 0 (map snd items) ->
            In (Random.pick_weighted dflt items r) (map fst items).
Proof.
  induction items as [|[x wt] items IH]; simpl; intros r Hr; [lia|].
  destruct (Z.ltb_spec r wt); [now left|]. right. apply IH. lia.
Qed.

Lemma choices_in {A} (dflt : A) items raw :
  0 < fold_right Z.add 0 (map snd items) ->
  In (Random.choices dflt items raw) (map fst items).
Proof.
  intros Hp. unfold Random.choices. apply pick_weighted_in.
  now apply Z.mod_pos_bound.
Qed.

(** The world after a generation: the counter of ships one up, six draws and
    one clock reading taken, the rest as it was. *)
Lemma generate_ship_data_world w :
  snd (generate_ship_data w)
  = {| ship_counter := ship_counter w + 1;
       duration_seconds := duration_seconds w;
       total_ships_handled := total_ships_handled w;
       db_connection := db_connection w;
       clock := clock w; clock_reads := S (clock_reads w);
       entropy := entropy w; draws := (6 + draws w)%nat;
       fault_in := fault_in w; log := log w |}.
Proof.
  unfold generate_ship_data. simpl.
  destruct (Random.choice ("", 0, (0, 0), "") ship_types (entropy w (draws w)))
    as [[[ship_type prio] range] op].
  reflexivity.
Qed.

(** X6.  The descriptor of a generated vessel takes its type, its priority
    and its operation from one row of the table of types, so the priority is
    the one of the type; its customs status is one of the three statuses; its
    name is a prefix, a name of the list and the counter of ships, which the
    generation has put one up. *)
Theorem generated_descriptor_is_a_row_of_ship_types w :
  (exists range,
     In (type (fst (generate_ship_data w)), priority (fst (generate_ship_data w)),
         range, operation_type (fst (generate_ship_data w))) ship_types)
  /\ In (customs_status (fst (generate_ship_data w)))
        ["pending"; "under_review"; "approved"]
  /\ (exists prefix nm,
        In prefix prefixes /\ In nm names /\
        name (fst (generate_ship_data w))
        = (prefix ++ " " ++ nm ++ " " ++ str (ship_counter w + 1))%string)
  /\ ship_counter (snd (generate_ship_data w)) = ship_counter w + 1.
Proof.
  split; [|split; [|split]].
  - unfold generate_ship_data. simpl.
    pose proof (choice_in ("", 0, (0, 0), "") ship_types (entropy w (draws w))) as Hin.
    destruct (Random.choice ("", 0, (0, 0), "") ship_types (entropy w (draws w)))
      as [[[ship_type prio] range] op].
    exists range. simpl. apply Hin. discriminate.
  - unfold generate_ship_data. simpl.
    destruct (Random.choice ("", 0, (0, 0), "") ship_types (entropy w (draws w)))
      as [[[ship_type prio] range] op].
    simpl. apply (choices_in "" customs_statuses). reflexivity.
  - exists (Random.choice "" prefixes (entropy w (2 + draws w)%nat)),
           (Random.choice "" names (entropy w (3 + draws w)%nat)).
    split; [apply choice_in; discriminate|].
    split; [apply choice_in; discriminate|].
    unfold generate_ship_data. simpl.
    destruct (Random.choice ("", 0, (0, 0), "") ship_types (entropy w (draws w)))
      as [[[ship_type prio] range] op].
    reflexivity.
  - now rewrite generate_ship_data_world.
Qed.

(** ** A simulator without a connection *)

(** X7.  Without a connection to the store (the constructor could not
    connect), a round of the loop stores nothing and counts no ship as
    generated; every step returns at its first test, and the only record the
    round adds to the log is the warning of the allocation pass: no other
    step logs anything, not even a failure. *)
Theorem round_without_connection n w :
  db_connection w = None ->
  fst (tick (n, w)) = n /\
  db_connection (snd (tick (n, w))) = None /\
  log (snd (tick (n, w))) = log w ++ [connection_unavailable] /\
  duration_seconds (snd (tick (n, w))) = duration_seconds w.
Proof.
  intros C. unfold tick, maybe_spawn_vessel. simpl.
  assert (Hstep : forall w0, db_connection w0 = None ->
            maybe_start_maintenance
              (allocate_ships_to_berths
                 (release_maintenance_berths (update_ongoing_operations w0)))
            = set_draws (S (draws w0)) (write_log connection_unavailable w0)).
  { intros w0 C0. unfold update_ongoing_operations, release_maintenance_berths.
    rewrite (tables_disconnected _ _ w0 C0).
    rewrite (tables_disconnected _ _ w0 C0).
    rewrite (allocate_disconnected w0 C0).
    unfold maybe_start_maintenance. simpl.
    destruct (Random.random_below 30 (entropy w0 (draws w0))); [|reflexivity].
    unfold simulate_maintenance_event. now rewrite tables_disconnected. }
  destruct (Random.choices 0 [(0, 40); (1, 60)] (entropy w (draws w)) =? 0).
  - destruct (generate_ship_data (set_draws (S (draws w)) w)) as [ship w1] eqn:G.
    assert (W1 : w1 = snd (generate_ship_data (set_draws (S (draws w)) w)))
      by now rewrite G.
    rewrite generate_ship_data_world in W1. simpl in W1.
    assert (C1 : db_connection w1 = None) by (subst w1; exact C).
    unfold insert_vessel_to_db, run. rewrite C1. simpl.
    rewrite Hstep by exact C1. subst w1. simpl. auto.
  - simpl. rewrite Hstep by exact C. simpl. auto.
Qed.

Lemma round_without_connection_witness :
  let w := set_db_connection None (Scenario.world Scenario.busy_port 70 [0; 2; 5] None) in
  fst (tick (0, w)) = 0 /\
  db_connection (snd (tick (0, w))) = None /\
  log (snd (tick (0, w))) = log w ++ [connection_unavailable] /\
  duration_seconds (snd (tick (0, w))) = duration_seconds w.
Proof.
  apply (round_without_connection 0
           (set_db_connection None (Scenario.world Scenario.busy_port 70 [0; 2; 5] None))).
  reflexivity.
Defined.

(** ** An allocation pass with nothing to do, or with more berths than
    vessels *)

Lemma rounds_without_candidate dur bids d heads d' :
  rounds dur bids d heads d' ->
  Sql.first_in_order (Sql.waiting_joined d) = None -> d' = d /\ heads = [].
Proof. destruct 1; intros E; [auto|auto|congruence]. Qed.

Lemma rounds_without_berth dur d heads d' :
  rounds dur [] d heads d' -> d' = d /\ heads = [].
Proof. inversion 1; auto. Qed.

(** X8.  An allocation pass over a queue with no waiting entry, or with no
    berth available, leaves the committed tables as they are, whatever store
    call fails. *)
Theorem allocation_without_work_changes_nothing w d :
  db_connection w = Some d ->
  Sql.count_waiting d = 0 \/ Sql.select_available_berths d = [] ->
  tables (allocate_ships_to_berths w) = d.
Proof.
  intros C Hnone. rewrite allocate_tables. unfold allocate_block.
  destruct (guarded_tables_cases "allocate_ships_to_berths" allocate_body w
              allocate_body_insensitive allocate_body_commits_or_raises) as [E|E];
    [rewrite <- (tables_connected w d C); exact E|].
  rewrite E. fold allocate_block.
  rewrite <- (allocate_connected (set_fault_in None w) d C).
  destruct (allocate_no_fault (set_fault_in None w) d C eq_refl)
    as (heads & d' & R & C').
  rewrite (tables_connected _ _ C').
  destruct Hnone as [N|B].
  - now apply (rounds_without_candidate _ _ _ _ _ R),
      count_waiting_zero_no_candidate.
  - rewrite B in R. now apply (rounds_without_berth _ _ _ _ R).
Qed.

Lemma allocation_without_work_changes_nothing_witness :
  tables (allocate_ships_to_berths
            (Scenario.world Scenario.quiet_port 0 [] (Some 1%nat)))
  = Scenario.quiet_port.
Proof.
  apply (allocation_without_work_changes_nothing
           (Scenario.world Scenario.quiet_port 0 [] (Some 1%nat))
           Scenario.quiet_port).
  - reflexivity.
  - left. reflexivity.
Defined.

Lemma allocation_takes_the_first_berths w d :
  db_connection w = Some d -> fault_in w = None ->
  one_entry_per_vessel d -> queue_refers_to_vessels d ->
  exists new,
    t_operations (tables (allocate_ships_to_berths w)) = t_operations d ++ new /\
    List.length new
    = Nat.min (List.length (Sql.select_available_berths d))
              (List.length (filter Sql.is_waiting (t_vessel_queue d))) /\
    map operations.berth_id new
    = firstn (List.length new) (map fst (Sql.select_available_berths d)) /\
    (List.length (filter Sql.is_waiting
                    (t_vessel_queue (tables (allocate_ships_to_berths w))))
     + List.length new
     = List.length (filter Sql.is_waiting (t_vessel_queue d)))%nat.
Proof.
  intros C H N F.
  destruct (allocate_no_fault w d C H) as (heads & d' & R & C').
  destruct (rounds_operations _ _ _ _ _ R) as (new & Ho & Hv & Hb & _).
  destruct (rounds_counts _ _ _ _ _ R N F) as (L & _ & Kw & _).
  assert (Ln : List.length new = List.length heads).
  { rewrite <- (length_map operations.vessel_id), Hv. apply length_map. }
  rewrite length_map in L.
  exists new. rewrite (tables_connected _ _ C'). rewrite Ln.
  repeat split; auto.
Qed.

(** X9.  An allocation pass that meets no store failure (one queue entry per
    vessel, each referring to a vessel) is work conserving: over the M rows
    of the berths table that are Available and the N rows of the queue that
    are Waiting it opens min(M, N) operations, on the first min(M, N) of the
    Available berths in the order of the table, and leaves N - min(M, N)
    entries Waiting. *)
Theorem allocation_is_work_conserving w d :
  db_connection w = Some d -> fault_in w = None ->
  one_entry_per_vessel d -> queue_refers_to_vessels d ->
  exists new,
    t_operations (tables (allocate_ships_to_berths w)) = t_operations d ++ new /\
    List.length new
    = Nat.min (List.length (Rows.available d)) (List.length (Rows.waiting d)) /\
    map operations.berth_id new
    = firstn (List.length new) (map berths.berth_id (Rows.available d)) /\
    (List.length (Rows.waiting (tables (allocate_ships_to_berths w)))
     + List.length new
     = List.length (Rows.waiting d))%nat.
Proof.
  intros C H N F.
  destruct (allocation_takes_the_first_berths w d C H N F) as (new & Ho & Ln & Hb & Kw).
  exists new. rewrite !rows_waiting, <- length_select_available.
  rewrite rows_available, <- available_berth_ids. auto.
Qed.

Lemma allocation_is_work_conserving_witness :
  let w := Scenario.world Scenario.busy_port 70 [] None in
  let d := Scenario.busy_port in
  exists new,
    t_operations (tables (allocate_ships_to_berths w)) = t_operations d ++ new /\
    List.length new
    = Nat.min (List.length (Rows.available d)) (List.length (Rows.waiting d)) /\
    map operations.berth_id new
    = firstn (List.length new) (map berths.berth_id (Rows.available d)) /\
    (List.length (Rows.waiting (tables (allocate_ships_to_berths w)))
     + List.length new
     = List.length (Rows.waiting d))%nat.
Proof.
  apply (allocation_is_work_conserving
           (Scenario.world Scenario.busy_port 70 [] None) Scenario.busy_port).
  - reflexivity.
  - reflexivity.
  - unfold one_entry_per_vessel. simpl. distinct_keys.
  - exact busy_port_queue_refers.
Defined.

(** ** The constraints of the store are kept *)

Lemma queue_refers_keys d :
  queue_refers_to_vessels d <->
  incl (map vessel_queue.vessel_id (t_vessel_queue d))
       (map vessels.vessel_id (t_vessels d)).
Proof.
  unfold queue_refers_to_vessels, incl. split.
  - intros F k Hk. apply in_map_iff in Hk. destruct Hk as (q & <- & Hq).
    destruct (F q Hq) as (v & Hv & E). rewrite <- E. now apply in_map.
  - intros I q Hq. specialize (I _ (in_map vessel_queue.vessel_id _ _ Hq)).
    apply in_map_iff in I. destruct I as (v & E & Hv). eauto.
Qed.

Lemma operations_refer_keys d :
  operations_refer d <->
  forall vb, In vb (map (fun o => (operations.vessel_id o, operations.berth_id o))
                        (t_operations d)) ->
             In (fst vb) (map vessels.vessel_id (t_vessels d)) /\
             In (snd vb) (map berths.berth_id (t_berths d)).
Proof.
  unfold operations_refer. split.
  - intros F vb Hk. apply in_map_iff in Hk. destruct Hk as (o & <- & Ho).
    destruct (F o Ho) as ((v & Hv & Ev) & (b & Hb & Eb)). simpl.
    rewrite <- Ev, <- Eb. split; now apply in_map.
  - intros I o Ho.
    destruct (I _ (in_map (fun o => (operations.vessel_id o, operations.berth_id o))
                          _ _ Ho)) as [Iv Ib]. simpl in Iv, Ib.
    apply in_map_iff in Iv, Ib.
    destruct Iv as (v & Ev & Hv), Ib as (b & Eb & Hb). split; eauto.
Qed.

Lemma integrity_same_keys d d' : keys d' = keys d -> integrity d -> integrity d'.
Proof.
  unfold keys. intros [= Kv Kb Ko Kr Kq] (I1 & I2 & I3 & I4 & I5 & I6).
  unfold integrity, vessel_keys_unique, berth_keys_unique, operation_keys_unique,
    one_entry_per_vessel in *.
  rewrite queue_refers_keys in *. rewrite operations_refer_keys in *.
  rewrite Kv, Kb, Ko, Kr, Kq. auto 7.
Qed.

Lemma map_update_key {A K} (key : A -> K) (f : A -> A) (sel : A -> bool) l :
  (forall x, key (f x) = key x) ->
  map key (map (fun x => if sel x then f x else x) l) = map key l.
Proof.
  intros Hk. rewrite map_map. apply map_ext. intros x.
  destruct (sel x); auto.
Qed.

Lemma keys_update_berths f sel d :
  (forall b, berths.berth_id (f b) = berths.berth_id b) ->
  keys (Sql.update_berths f sel d) = keys d.
Proof.
  intros Hk. unfold keys, Sql.update_berths. simpl.
  now rewrite (map_update_key berths.berth_id f sel).
Qed.

Lemma keys_update_vessel_queue f sel d :
  (forall q, vessel_queue.vessel_id (f q) = vessel_queue.vessel_id q) ->
  keys (Sql.update_vessel_queue f sel d) = keys d.
Proof.
  intros Hk. unfold keys, Sql.update_vessel_queue. simpl.
  now rewrite (map_update_key vessel_queue.vessel_id f sel).
Qed.

Lemma keys_update_operations f sel d :
  (forall o, operations.operation_id (f o) = operations.operation_id o) ->
  (forall o, operations.vessel_id (f o) = operations.vessel_id o) ->
  (forall o, operations.berth_id (f o) = operations.berth_id o) ->
  keys (Sql.update_operations f sel d) = keys d.
Proof.
  intros H1 H2 H3. unfold keys, Sql.update_operations. simpl.
  rewrite (map_update_key operations.operation_id f sel) by exact H1.
  rewrite (map_update_key (fun o => (operations.vessel_id o, operations.berth_id o))
             f sel); [reflexivity|].
  intros o. now rewrite H2, H3.
Qed.

Lemma keys_finalize t r d : keys (finalize t r d) = keys d.
Proof.
  destruct r as [[[[[[op_id bid] vid] st] pl] vn] bn]. unfold finalize.
  unfold Sql.queue_complete, Sql.berth_release, Sql.operation_complete.
  rewrite keys_update_vessel_queue, keys_update_berths, keys_update_operations;
    reflexivity.
Qed.

Lemma keys_finalize_all t rows : forall d, keys (finalize_all t rows d) = keys d.
Proof.
  induction rows as [|r rows IH]; intros d; [reflexivity|].
  change (finalize_all t (r :: rows) d) with (finalize_all t rows (finalize t r d)).
  rewrite IH. apply keys_finalize.
Qed.

Lemma NoDup_snoc {A} (l : list A) a : NoDup l -> ~ In a l -> NoDup (l ++ [a]).
Proof.
  induction l as [|x l IH]; simpl; intros N Hn.
  - constructor; [tauto|constructor].
  - inversion N as [|? ? Hx N']; subst. constructor.
    + intros Hin. apply in_app_or in Hin. destruct Hin as [Hin|[<-|[]]]; tauto.
    + apply IH; tauto.
Qed.

Lemma integrity_bind_berth vid bid ot t dur d :
  integrity d ->
  In vid (map vessels.vessel_id (t_vessels d)) ->
  In bid (map berths.berth_id (t_berths d)) ->
  integrity (bind_berth vid bid ot t dur d).
Proof.
  intros I Hv Hb. unfold bind_berth.
  set (d0 := Sql.berth_occupy t bid (Sql.queue_start_service t vid d)).
  assert (K0 : keys d0 = keys d).
  { unfold d0, Sql.berth_occupy, Sql.queue_start_service.
    rewrite keys_update_berths, keys_update_vessel_queue; reflexivity. }
  destruct (integrity_same_keys d d0 K0 I) as (I1 & I2 & I3 & I4 & I5 & I6).
  clearbody d0. revert K0. unfold keys. intros [= Kv Kb Ko Kr Kq].
  unfold integrity, vessel_keys_unique, berth_keys_unique, operation_keys_unique,
    one_entry_per_vessel in *.
  rewrite queue_refers_keys in *. rewrite operations_refer_keys in *.
  split; [exact I1|]. split; [exact I2|]. split; [|split; [exact I4|split; [exact I5|]]].
  - simpl. rewrite map_app. simpl. apply NoDup_snoc; [exact I3|apply next_key_is_new].
  - simpl. intros vb Hin. rewrite map_app in Hin. apply in_app_or in Hin.
    destruct Hin as [Hin|[<-|[]]]; [now apply I6|].
    simpl. now rewrite Kv, Kb.
Qed.

(** ** Operations in progress and their berths *)

Lemma is_in_progress_status o :
  is_in_progress o = true <-> operations.status o = operations.in_progress.
Proof.
  unfold is_in_progress. destruct (operations.status o); simpl; split; congruence.
Qed.

Lemma filter_both {A} (p q : A -> bool) l :
  filter (fun x => p x && q x) l = filter q (filter p l).
Proof.
  induction l as [|x l IH]; simpl; [reflexivity|].
  destruct (p x); simpl; [|exact IH]. destruct (q x); simpl; now rewrite IH.
Qed.

(** The operations in progress after the operations with one key have been
    completed. *)
Lemma in_progress_after_completion actual k l :
  filter is_in_progress
         (map (fun o => if operations.operation_id o =? k
                        then Sql.to_completed actual o else o) l)
  = filter (fun o => negb (operations.operation_id o =? k))
           (filter is_in_progress l).
Proof.
  rewrite <- filter_both.
  induction l as [|o l IH]; simpl; [reflexivity|]. rewrite IH.
  destruct (operations.operation_id o =? k); simpl.
  - now rewrite andb_false_r.
  - now rewrite andb_true_r.
Qed.

Lemma occupancy_same d d' :
  t_berths d' = t_berths d -> t_operations d' = t_operations d ->
  occupancy d -> occupancy d'.
Proof.
  unfold occupancy, berths_in_use, berth_keys_unique. now intros -> ->.
Qed.

Lemma occupancy_update_berths f sel d :
  (forall b, berths.berth_id (f b) = berths.berth_id b) ->
  (forall b, sel b = true -> berths.status b <> berths.occupied) ->
  occupancy d -> occupancy (Sql.update_berths f sel d).
Proof.
  intros Hid Hsel (K & N & I). unfold occupancy, berth_keys_unique, berths_in_use.
  simpl. rewrite (map_update_key berths.berth_id f sel) by exact Hid.
  split; [exact K|]. split; [exact N|].
  intros o b' Ho St Hb' Eb. apply in_map_iff in Hb'. destruct Hb' as (b & <- & Hb).
  destruct (sel b) eqn:S.
  - exfalso. apply (Hsel b S). apply (I o b Ho St Hb). now rewrite <- Hid.
  - now apply (I o b).
Qed.

Lemma occupancy_bind_berth vid bid ot t dur d :
  occupancy d ->
  (exists b, In b (t_berths d) /\ berths.berth_id b = bid /\
             berths.status b = berths.available) ->
  occupancy (bind_berth vid bid ot t dur d).
Proof.
  intros (K & N & I) (b0 & Hb0 & Eb0 & Av). unfold occupancy.
  split; [|split].
  - unfold berth_keys_unique. now rewrite bind_berth_berth_keys.
  - unfold berths_in_use. simpl. rewrite filter_app, map_app. simpl.
    apply NoDup_snoc; [exact N|].
    intros Hin. apply in_map_iff in Hin. destruct Hin as (o & Eo & Ho).
    apply filter_In in Ho. destruct Ho as [Ho Ip]. apply is_in_progress_status in Ip.
    specialize (I o b0 Ho Ip Hb0). rewrite Av in I.
    assert (berths.available = berths.occupied) by (apply I; congruence).
    discriminate.
  - intros o b' Ho St Hb' Eb. rewrite bind_berth_berths in Hb'.
    apply in_map_iff in Hb'. destruct Hb' as (b & <- & Hb).
    destruct (Z.eqb_spec (berths.berth_id b) bid) as [E|E]; [reflexivity|].
    simpl in Ho. apply in_app_or in Ho. destruct Ho as [Ho|[<-|[]]].
    + now apply (I o b).
    + simpl in Eb. contradiction.
Qed.

Lemma occupancy_finalize t r d :
  occupancy d ->
  (forall o, In o (t_operations d) -> operations.status o = operations.in_progress ->
             operations.berth_id o = fetched_berth_id r ->
             operations.operation_id o = fetched_operation_id r) ->
  occupancy (finalize t r d).
Proof.
  intros (K & N & I) Hr. unfold occupancy. split; [|split].
  - unfold berth_keys_unique. rewrite finalize_berths.
    rewrite (map_update_key berths.berth_id); auto.
  - unfold berths_in_use. rewrite finalize_operations, in_progress_after_completion.
    now apply NoDup_map_filter.
  - intros o b' Ho St Hb' Eb.
    assert (Hf : In o (filter is_in_progress (t_operations (finalize t r d)))).
    { apply filter_In. split; [exact Ho|now apply is_in_progress_status]. }
    rewrite finalize_operations, in_progress_after_completion in Hf.
    apply filter_In in Hf. destruct Hf as [Hf Ne]. apply filter_In in Hf.
    destruct Hf as [Ho0 _].
    rewrite finalize_berths in Hb'. apply in_map_iff in Hb'.
    destruct Hb' as (b & <- & Hb).
    destruct (Z.eqb_spec (berths.berth_id b) (fetched_berth_id r)) as [E|E].
    + exfalso. simpl in Eb. rewrite (Hr o Ho0 St) in Ne by congruence.
      rewrite Z.eqb_refl in Ne. discriminate.
    + now apply (I o b).
Qed.

Lemma in_progress_before_finalize t r d o :
  In o (t_operations (finalize t r d)) ->
  operations.status o = operations.in_progress ->
  In o (t_operations d).
Proof.
  intros Ho St.
  assert (Hf : In o (filter is_in_progress (t_operations (finalize t r d)))).
  { apply filter_In. split; [exact Ho|now apply is_in_progress_status]. }
  rewrite finalize_operations, in_progress_after_completion in Hf.
  apply filter_In in Hf. destruct Hf as [Hf _]. now apply filter_In in Hf.
Qed.

Lemma occupancy_finalize_all t rows :
  forall d,
    occupancy d ->
    (forall r o, In r rows -> In o (t_operations d) ->
                 operations.status o = operations.in_progress ->
                 operations.berth_id o = fetched_berth_id r ->
                 operations.operation_id o = fetched_operation_id r) ->
    occupancy (finalize_all t rows d).
Proof.
  induction rows as [|r rows IH]; intros d O Hr; [exact O|].
  change (finalize_all t (r :: rows) d) with (finalize_all t rows (finalize t r d)).
  apply IH.
  - apply occupancy_finalize; [exact O|]. intros o. apply Hr. now left.
  - intros r' o Hr' Ho St. apply Hr; [now right| |exact St].
    now apply (in_progress_before_finalize t r).
Qed.

Lemma fetched_comes_from_due t d r :
  In r (Sql.select_due_operations t d) ->
  exists o, In o (t_operations d) /\
            operations.status o = operations.in_progress /\
            fetched_operation_id r = operations.operation_id o /\
            fetched_berth_id r = operations.berth_id o /\
            fetched_vessel_id r = operations.vessel_id o.
Proof.
  unfold Sql.select_due_operations. rewrite in_flat_map.
  intros (o & Ho & Hr). apply filter_In in Ho. destruct Ho as [Ho Due].
  apply in_flat_map in Hr. destruct Hr as (v & Hv & Hr).
  apply in_map_iff in Hr. destruct Hr as (b & <- & Hb).
  exists o. repeat split; auto.
  unfold Sql.operation_due in Due. apply andb_true_iff in Due.
  destruct Due as [Due _]. destruct (operations.status o); simpl in Due; congruence.
Qed.

Lemma occupancy_finalization t d :
  occupancy d ->
  occupancy (finalize_all t (Sql.select_due_operations t d) d).
Proof.
  intros O. apply occupancy_finalize_all; [exact O|].
  intros r o Hr Ho St Eb.
  destruct (fetched_comes_from_due t d r Hr) as (o0 & Ho0 & St0 & Eo & Eb0 & _).
  destruct O as (_ & N & _). unfold berths_in_use in N.
  assert (o = o0).
  { apply (key_determines_row operations.berth_id
             (filter is_in_progress (t_operations d))); auto.
    - apply filter_In. split; [exact Ho|now apply is_in_progress_status].
    - apply filter_In. split; [exact Ho0|now apply is_in_progress_status].
    - congruence. }
  subst o0. now symmetry.
Qed.

(** ** Operations in progress and their queue entries *)

Lemma service_same d d' :
  t_vessel_queue d' = t_vessel_queue d -> t_operations d' = t_operations d ->
  service d -> service d'.
Proof. unfold service, vessels_in_service. now intros -> ->. Qed.

Lemma service_bind_berth vid bid ot t dur d :
  service d ->
  (exists q, In q (t_vessel_queue d) /\ vessel_queue.vessel_id q = vid /\
             vessel_queue.status q = vessel_queue.waiting) ->
  service (bind_berth vid bid ot t dur d).
Proof.
  intros (N & I) (q0 & Hq0 & Eq0 & W). unfold service. split.
  - unfold vessels_in_service. simpl. rewrite filter_app, map_app. simpl.
    apply NoDup_snoc; [exact N|].
    intros Hin. apply in_map_iff in Hin. destruct Hin as (o & Eo & Ho).
    apply filter_In in Ho. destruct Ho as [Ho Ip]. apply is_in_progress_status in Ip.
    specialize (I o q0 Ho Ip Hq0). rewrite W in I.
    assert (vessel_queue.waiting = vessel_queue.in_service) by (apply I; congruence).
    discriminate.
  - intros o q' Ho St Hq' Eq. rewrite bind_berth_queue in Hq'.
    apply in_map_iff in Hq'. destruct Hq' as (q & <- & Hq).
    destruct (Z.eqb_spec (vessel_queue.vessel_id q) vid) as [E|E]; [reflexivity|].
    simpl in Ho. apply in_app_or in Ho. destruct Ho as [Ho|[<-|[]]].
    + now apply (I o q).
    + simpl in Eq. contradiction.
Qed.

Lemma service_finalize t r d :
  service d ->
  (forall o, In o (t_operations d) -> operations.status o = operations.in_progress ->
             operations.vessel_id o = fetched_vessel_id r ->
             operations.operation_id o = fetched_operation_id r) ->
  service (finalize t r d).
Proof.
  intros (N & I) Hr. unfold service. split.
  - unfold vessels_in_service. rewrite finalize_operations, in_progress_after_completion.
    now apply NoDup_map_filter.
  - intros o q' Ho St Hq' Eq.
    assert (Hf : In o (filter is_in_progress (t_operations (finalize t r d)))).
    { apply filter_In. split; [exact Ho|now apply is_in_progress_status]. }
    rewrite finalize_operations, in_progress_after_completion in Hf.
    apply filter_In in Hf. destruct Hf as [Hf Ne]. apply filter_In in Hf.
    destruct Hf as [Ho0 _].
    rewrite finalize_queue in Hq'. apply in_map_iff in Hq'.
    destruct Hq' as (q & <- & Hq).
    destruct (Z.eqb_spec (vessel_queue.vessel_id q) (fetched_vessel_id r)) as [E|E].
    + exfalso. simpl in Eq. rewrite (Hr o Ho0 St) in Ne by congruence.
      rewrite Z.eqb_refl in Ne. discriminate.
    + now apply (I o q).
Qed.

Lemma service_finalize_all t rows :
  forall d,
    service d ->
    (forall r o, In r rows -> In o (t_operations d) ->
                 operations.status o = operations.in_progress ->
                 operations.vessel_id o = fetched_vessel_id r ->
                 operations.operation_id o = fetched_operation_id r) ->
    service (finalize_all t rows d).
Proof.
  induction rows as [|r rows IH]; intros d O Hr; [exact O|].
  change (finalize_all t (r :: rows) d) with (finalize_all t rows (finalize t r d)).
  apply IH.
  - apply service_finalize; [exact O|]. intros o. apply Hr. now left.
  - intros r' o Hr' Ho St. apply Hr; [now right| |exact St].
    now apply (in_progress_before_finalize t r).
Qed.

Lemma service_finalization t d :
  service d ->
  service (finalize_all t (Sql.select_due_operations t d) d).
Proof.
  intros O. apply service_finalize_all; [exact O|].
  intros r o Hr Ho St Ev.
  destruct (fetched_comes_from_due t d r Hr) as (o0 & Ho0 & St0 & Eo & _ & Ev0).
  destruct O as (N & _). unfold vessels_in_service in N.
  assert (o = o0).
  { apply (key_determines_row operations.vessel_id
             (filter is_in_progress (t_operations d))); auto.
    - apply filter_In. split; [exact Ho|now apply is_in_progress_status].
    - apply filter_In. split; [exact Ho0|now apply is_in_progress_status].
    - congruence. }
  subst o0. now symmetry.
Qed.

(** ** Every step keeps the store sound *)

Lemma sound_finalization t d :
  sound d -> sound (finalize_all t (Sql.select_due_operations t d) d).
Proof.
  intros (I & O & S). split; [|split].
  - apply (integrity_same_keys d); [apply keys_finalize_all|exact I].
  - now apply occupancy_finalization.
  - now apply service_finalization.
Qed.

Lemma sound_update_berths f sel d :
  (forall b, berths.berth_id (f b) = berths.berth_id b) ->
  (forall b, sel b = true -> berths.status b <> berths.occupied) ->
  sound d -> sound (Sql.update_berths f sel d).
Proof.
  intros Hid Hsel (I & O & S). split; [|split].
  - apply (integrity_same_keys d); [now apply keys_update_berths|exact I].
  - now apply occupancy_update_berths.
  - now apply (service_same d).
Qed.

Lemma sound_end_maintenance t d :
  sound d -> sound (snd (Sql.berths_end_maintenance t d)).
Proof.
  apply sound_update_berths; [reflexivity|].
  intros b M. unfold Sql.maintenance_elapsed in M. apply andb_true_iff in M.
  destruct M as [M _]. destruct (berths.status b); simpl in M; congruence.
Qed.

Lemma sound_start_maintenance s e bid d :
  sound d -> sound (Sql.berth_start_maintenance s e bid d).
Proof.
  apply sound_update_berths; [reflexivity|].
  intros b M. apply andb_true_iff in M. destruct M as [_ M].
  rewrite (is_available_status b M). discriminate.
Qed.

Lemma sound_bind_berth vq v bid ot t dur d :
  sound d -> In (vq, v) (Sql.waiting_joined d) ->
  (exists b, In b (t_berths d) /\ berths.berth_id b = bid /\
             berths.status b = berths.available) ->
  sound (bind_berth (vessel_queue.vessel_id vq) bid ot t dur d).
Proof.
  intros (I & O & S) Hc Hb. apply in_waiting_joined in Hc.
  destruct Hc as (Hq & W & Hv & Ev). split; [|split].
  - apply integrity_bind_berth; [exact I| |].
    + rewrite <- Ev. now apply in_map.
    + destruct Hb as (b & Hb & <- & _). now apply in_map.
  - now apply occupancy_bind_berth.
  - apply service_bind_berth; [exact S|].
    exists vq. repeat split; auto. now apply is_waiting_status.
Qed.

Lemma rounds_sound dur bids d heads d' :
  rounds dur bids d heads d' ->
  NoDup bids ->
  (forall bid, In bid bids ->
     exists b, In b (t_berths d) /\ berths.berth_id b = bid /\
               berths.status b = berths.available) ->
  sound d -> sound d'.
Proof.
  induction 1 as [d|bids d E|bid bids d [vq v] ot t heads d' E R IH];
    intros N Av S; auto.
  inversion N as [|? ? Hn N']; subst. apply IH; [exact N'| |].
  - intros bid' Hin. destruct (Av bid' (or_intror Hin)) as (b & Hb & Eb & A).
    exists b. split; [|auto]. rewrite bind_berth_berths. apply in_map_iff.
    exists b. split; [|exact Hb].
    destruct (Z.eqb_spec (berths.berth_id b) bid); [|reflexivity].
    exfalso. apply Hn. congruence.
  - apply (sound_bind_berth vq v); [exact S| |apply Av; now left].
    now apply first_in_order_head.
Qed.

Lemma sound_allocation dur d heads d' :
  rounds dur (map fst (Sql.select_available_berths d)) d heads d' ->
  sound d -> sound d'.
Proof.
  intros R S. apply (rounds_sound _ _ _ _ _ R); [| |exact S].
  - rewrite available_berth_ids. apply NoDup_map_filter.
    destruct S as (_ & (K & _) & _). exact K.
  - intros bid Hin. rewrite available_berth_ids in Hin. apply in_map_iff in Hin.
    destruct Hin as (b & Eb & Hb). apply filter_In in Hb. destruct Hb as [Hb A].
    exists b. repeat split; auto. now apply is_available_status.
Qed.

Lemma sound_insert nm ty prio dur cs arr d :
  sound d ->
  sound (Sql.insert_queue (next_key (map vessels.vessel_id (t_vessels d))) arr
           (Sql.insert_customs (next_key (map vessels.vessel_id (t_vessels d))) cs
              (snd (Sql.insert_vessel nm ty prio dur d)))).
Proof.
  intros ((I1 & I2 & I3 & I4 & I5 & I6) & O & (N & S)).
  pose proof (next_key_is_new (map vessels.vessel_id (t_vessels d))) as New.
  set (vid := next_key (map vessels.vessel_id (t_vessels d))) in *.
  split; [|split].
  - unfold integrity, vessel_keys_unique, berth_keys_unique, operation_keys_unique,
      one_entry_per_vessel in *.
    rewrite queue_refers_keys in *. rewrite operations_refer_keys in *.
    simpl. fold vid. rewrite !map_app. simpl.
    split; [now apply NoDup_snoc|]. split; [exact I2|]. split; [exact I3|].
    split; [apply NoDup_snoc; [exact I4|]; intros Hin; apply New, I5, Hin|].
    split.
    + intros k Hk. apply in_app_or in Hk. apply in_or_app.
      destruct Hk as [Hk|[<-|[]]]; [left; now apply I5|right; now left].
    + intros vb Hin. destruct (I6 vb Hin) as [Hv Hb]. split; [|exact Hb].
      apply in_or_app. now left.
  - now apply (occupancy_same d).
  - split; [exact N|]. intros o q Ho St Hq Eq. simpl in Ho, Hq.
    apply in_app_or in Hq. destruct Hq as [Hq|[<-|[]]]; [now apply (S o q)|].
    exfalso. simpl in Eq. apply New. rewrite Eq.
    destruct (I6 o Ho) as ((v & Hv & Ev) & _). rewrite <- Ev. now apply in_map.
Qed.

Lemma guarded_preserves (Q : DB -> Prop) step body :
  fault_insensitive body -> commits_or_raises body ->
  (forall w d, db_connection w = Some d -> fault_in w = None -> Q d ->
               Q (tables (guarded step body w))) ->
  forall w, Q (tables w) -> Q (tables (guarded step body w)).
Proof.
  intros FI CR Hok w.
  apply (step_tables_cases step body w (fun d d' => Q d -> Q d') FI CR); [auto|].
  intros d C. apply (Hok (set_fault_in None w) d C eq_refl).
Qed.

Lemma update_keeps_sound w :
  sound (tables w) -> sound (tables (update_ongoing_operations w)).
Proof.
  apply guarded_preserves;
    [apply update_body_insensitive|apply update_body_commits_or_raises|].
  intros w0 d C H S. fold update_ongoing_operations.
  rewrite (tables_connected _ _ (update_no_fault w0 d C H)).
  now apply sound_finalization.
Qed.

Lemma release_keeps_sound w :
  sound (tables w) -> sound (tables (release_maintenance_berths w)).
Proof.
  apply guarded_preserves;
    [apply release_body_insensitive|apply release_body_commits_or_raises|].
  intros w0 d C H S. fold release_maintenance_berths.
  rewrite (tables_connected _ _ (release_no_fault w0 d C H)).
  now apply sound_end_maintenance.
Qed.

Lemma allocate_keeps_sound w :
  sound (tables w) -> sound (tables (allocate_ships_to_berths w)).
Proof.
  rewrite allocate_tables. unfold allocate_block.
  apply guarded_preserves;
    [apply allocate_body_insensitive|apply allocate_body_commits_or_raises|].
  intros w0 d C H S. fold allocate_block. rewrite <- (allocate_connected w0 d C).
  destruct (allocate_no_fault w0 d C H) as (heads & d' & R & C').
  rewrite (tables_connected _ _ C'). exact (sound_allocation _ _ _ _ R S).
Qed.

Lemma maintenance_keeps_sound w :
  sound (tables w) -> sound (tables (simulate_maintenance_event w)).
Proof.
  apply guarded_preserves;
    [apply maintenance_body_insensitive|apply maintenance_body_commits_or_raises|].
  intros w0 d C H S. fold simulate_maintenance_event.
  rewrite (tables_connected _ _ (maintenance_no_fault w0 d C H)).
  destruct (Sql.select_random_available_berth (entropy w0 (draws w0)) d)
    as [[bid bn]|]; [|exact S].
  now apply sound_start_maintenance.
Qed.

Lemma insert_tables_cases ship w :
  tables (snd (insert_vessel_to_db ship w)) = tables w
  \/ tables (snd (insert_vessel_to_db ship w))
     = tables (snd (insert_vessel_to_db ship (set_fault_in None w))).
Proof.
  unfold insert_vessel_to_db. apply run_tables_cases.
  - block.
  - apply bind_commits_or_raises; [block|]. intros _.
    apply bind_commits_or_raises; [block|]. intros dur.
    apply bind_commits_or_raises; [block|]. intros vid.
    apply bind_commits_or_raises; [block|]. intros _.
    apply bind_commits_or_raises; [block|]. intros _.
    apply commit_then_commits_or_raises, ret_never_raises.
Qed.

Lemma insert_keeps_sound ship w :
  sound (tables w) -> sound (tables (snd (insert_vessel_to_db ship w))).
Proof.
  intros S. destruct (insert_tables_cases ship w) as [E|E]; rewrite E; [exact S|].
  destruct (db_connection w) as [d|] eqn:C.
  - destruct (insert_no_fault ship (set_fault_in None w) d C eq_refl) as (_ & D & _).
    rewrite (tables_connected _ _ D). apply sound_insert.
    now rewrite (tables_connected w d C) in S.
  - unfold insert_vessel_to_db, run. simpl. rewrite C. simpl.
    unfold tables in *. simpl. now rewrite C in *.
Qed.

Lemma spawn_keeps_sound st :
  sound (tables (snd st)) -> sound (tables (snd (maybe_spawn_vessel st))).
Proof.
  destruct st as [n w]. unfold maybe_spawn_vessel. simpl. intros Hs.
  destruct (Random.choices 0 [(0, 40); (1, 60)] (entropy w (draws w)) =? 0);
    [|exact Hs].
  destruct (generate_ship_data (set_draws (S (draws w)) w)) as [ship w1] eqn:G.
  assert (W1 : w1 = snd (generate_ship_data (set_draws (S (draws w)) w)))
    by now rewrite G.
  rewrite generate_ship_data_world in W1. simpl in W1.
  assert (S1 : sound (tables w1)) by (subst w1; exact Hs).
  pose proof (insert_keeps_sound ship w1 S1) as S2.
  destruct (insert_vessel_to_db ship w1) as [[vid|] w2]; simpl in *;
    [destruct (vid =? 0)|]; exact S2.
Qed.

Lemma start_maintenance_keeps_sound w :
  sound (tables w) -> sound (tables (maybe_start_maintenance w)).
Proof.
  intros S. unfold maybe_start_maintenance. simpl.
  destruct (Random.random_below 30 (entropy w (draws w))); [|exact S].
  now apply maintenance_keeps_sound.
Qed.

Lemma tick_keeps_sound st :
  sound (tables (snd st)) -> sound (tables (snd (tick st))).
Proof.
  intros S. unfold tick. pose proof (spawn_keeps_sound st S) as S1.
  destruct (maybe_spawn_vessel st) as [n w]. simpl in *.
  now apply start_maintenance_keeps_sound, allocate_keeps_sound,
    release_keeps_sound, update_keeps_sound.
Qed.

(** ** The berths of the start *)

Lemma initialize_loop_no_fault numbers :
  forall w d, fault_in w = None ->
  for_each numbers (fun i => execute (insert_berth i)) (w, d)
  = (Ok tt, (w, fold_left (fun d i => insert_berth i d) numbers d)).
Proof.
  induction numbers as [|i numbers IH]; intros w d H; [reflexivity|].
  simpl. rewrite (bind_ok _ _ _ _ _ (execute_no_fault _ w d H)). now apply IH.
Qed.

Lemma initialize_no_fault berths_count w d :
  db_connection w = Some d -> fault_in w = None ->
  db_connection (initialize_database berths_count w)
  = Some (if count_berths d =? 0
          then fold_left (fun d i => insert_berth i d) (range_from_1 berths_count) d
          else d).
Proof.
  intros C H. unfold initialize_database, guarded, run. rewrite C.
  unfold initialize_body. rewrite (bind_ok _ _ _ _ _ (query_no_fault _ w d H)).
  destruct (count_berths d =? 0); [|exact C].
  rewrite (bind_ok _ _ _ _ _ (initialize_loop_no_fault _ w d H)).
  rewrite (commit_no_fault _ _ H). reflexivity.
Qed.

Lemma initialize_body_insensitive n : fault_insensitive (initialize_body n).
Proof.
  unfold initialize_body. apply bind_insensitive; [block|]. intros c.
  destruct (c =? 0); block.
Qed.

Lemma initialize_body_commits_or_raises n : commits_or_raises (initialize_body n).
Proof.
  unfold initialize_body. apply bind_commits_or_raises; [block|]. intros c.
  destruct (c =? 0); [|apply keeps_then_commits_or_raises; block].
  apply bind_commits_or_raises; block.
Qed.

Section NewBerths.
Variable numbers : list Z.

Lemma new_berths_numbers :
  forall d,
    map berths.berth_number
        (t_berths (fold_left (fun d i => insert_berth i d) numbers d))
    = map berths.berth_number (t_berths d) ++ numbers.
Proof.
  induction numbers as [|i l IH]; intros d; simpl; [now rewrite app_nil_r|].
  rewrite IH. simpl. rewrite map_app, <- app_assoc. reflexivity.
Qed.

Lemma new_berths_available (P : berths.row -> Prop) :
  (forall id i, P {| berths.berth_id := id; berths.berth_number := i;
                     berths.status := berths.available;
                     berths.start_maintenance := None;
                     berths.end_maintenance := None;
                     berths.updated_at := None |}) ->
  forall d,
    Forall P (t_berths d) ->
    Forall P (t_berths (fold_left (fun d i => insert_berth i d) numbers d)).
Proof.
  intros HP. induction numbers as [|i l IH]; intros d F; simpl; [exact F|].
  apply IH. simpl. apply Forall_app. split; [exact F|]. constructor; auto.
Qed.

Lemma new_berths_rest :
  forall d,
    let d' := fold_left (fun d i => insert_berth i d) numbers d in
    t_vessels d' = t_vessels d /\ t_vessel_queue d' = t_vessel_queue d /\
    t_operations d' = t_operations d /\
    t_customs_clearance d' = t_customs_clearance d.
Proof.
  induction numbers as [|i l IH]; intros d; simpl; [auto|].
  destruct (IH (insert_berth i d)) as (A & B & C & D). simpl in *. auto.
Qed.

End NewBerths.

Lemma sound_insert_berth i d : sound d -> sound (insert_berth i d).
Proof.
  intros ((I1 & I2 & I3 & I4 & I5 & I6) & (K & N & O) & Sv).
  pose proof (next_key_is_new (map berths.berth_id (t_berths d))) as New.
  split; [|split].
  - unfold integrity, vessel_keys_unique, berth_keys_unique, operation_keys_unique,
      one_entry_per_vessel in *.
    rewrite queue_refers_keys in *. rewrite operations_refer_keys in *.
    simpl. rewrite map_app. simpl.
    split; [exact I1|]. split; [now apply NoDup_snoc|]. split; [exact I3|].
    split; [exact I4|]. split; [exact I5|].
    intros vb Hin. destruct (I6 vb Hin) as [Hv Hb]. split; [exact Hv|].
    apply in_or_app. now left.
  - split; [|split].
    + unfold berth_keys_unique. simpl. rewrite map_app. simpl. now apply NoDup_snoc.
    + exact N.
    + intros o b Ho St Hb Eb. simpl in Ho, Hb. apply in_app_or in Hb.
      destruct Hb as [Hb|[<-|[]]]; [now apply (O o b)|].
      exfalso. simpl in Eb. apply New. rewrite Eb.
      destruct (I6 o Ho) as (_ & (b & Hb & E)). rewrite <- E. now apply in_map.
  - now apply (service_same d).
Qed.

Lemma sound_new_berths numbers :
  forall d, sound d -> sound (fold_left (fun d i => insert_berth i d) numbers d).
Proof.
  induction numbers as [|i l IH]; intros d Hs; simpl; [exact Hs|].
  now apply IH, sound_insert_berth.
Qed.

Lemma initialize_keeps_sound n w :
  sound (tables w) -> sound (tables (initialize_database n w)).
Proof.
  apply guarded_preserves;
    [apply initialize_body_insensitive|apply initialize_body_commits_or_raises|].
  intros w0 d C H Hs. fold (initialize_database n).
  rewrite (tables_connected _ _ (initialize_no_fault n w0 d C H)).
  destruct (count_berths d =? 0); [|exact Hs]. now apply sound_new_berths.
Qed.

Lemma sound_empty_store : sound empty_store.
Proof.
  unfold sound, integrity, occupancy, service, vessel_keys_unique,
    berth_keys_unique, operation_keys_unique, one_entry_per_vessel,
    queue_refers_to_vessels, operations_refer, berths_in_use, vessels_in_service.
  simpl. repeat split; try constructor; try contradiction.
Qed.

Lemma run_keeps_sound n w :
  sound (tables w) -> sound (tables (snd (simulate_real_time_data n w))).
Proof.
  intros Hs. unfold simulate_real_time_data.
  induction n as [|n IH]; simpl.
  - now apply release_keeps_sound.
  - now apply tick_keeps_sound.
Qed.

(** X10.  Every round of the loop keeps the store sound, whatever is drawn
    and whatever store call fails: the keys stay unique and the references
    stay valid (the hypotheses of the results on the allocation and on the
    finalization), no two operations in progress share a berth or a vessel,
    the berth of an operation in progress is Occupied and the queue entry of
    its vessel is InService. *)
Theorem every_round_keeps_the_store_sound st :
  sound (tables (snd st)) ->
  integrity (tables (snd (tick st))) /\
  occupancy (tables (snd (tick st))) /\
  service (tables (snd (tick st))).
Proof.
  intros Hs. pose proof (tick_keeps_sound st Hs) as Hs'.
  unfold sound in Hs'. exact Hs'.
Qed.

Lemma busy_port_sound : sound Scenario.busy_port.
Proof.
  split; [|split].
  - split; [unfold vessel_keys_unique; simpl; distinct_keys|].
    split; [unfold berth_keys_unique; simpl; distinct_keys|].
    split; [unfold operation_keys_unique; simpl; distinct_keys|].
    split; [unfold one_entry_per_vessel; simpl; distinct_keys|].
    split; [exact busy_port_queue_refers|exact busy_port_operations_refer].
  - split; [unfold berth_keys_unique; simpl; distinct_keys|].
    split; [unfold berths_in_use; simpl; distinct_keys|].
    intros o b Ho St Hb Eb. simpl in Ho, Hb.
    destruct Ho as [<-|[]].
    destruct Hb as [<-|[<-|[<-|[<-|[]]]]]; simpl in Eb; try discriminate Eb.
    reflexivity.
  - split; [unfold vessels_in_service; simpl; distinct_keys|].
    intros o q Ho St Hq Eq. simpl in Ho, Hq.
    destruct Ho as [<-|[]].
    destruct Hq as [<-|[<-|[<-|[<-|[]]]]]; simpl in Eq; try discriminate Eq.
    reflexivity.
Defined.

Lemma every_round_keeps_the_store_sound_witness :
  let st := (0, Scenario.world Scenario.busy_port 70 [0; 2; 5; 0; 0; 0; 7] (Some 9%nat)) in
  integrity (tables (snd (tick st))) /\
  occupancy (tables (snd (tick st))) /\
  service (tables (snd (tick st))).
Proof.
  apply (every_round_keeps_the_store_sound
           (0, Scenario.world Scenario.busy_port 70 [0; 2; 5; 0; 0; 0; 7] (Some 9%nat))).
  exact busy_port_sound.
Defined.

(** X11.  From an empty store, after [initialize_database] and any number
    of rounds of [simulate_real_time_data], whatever is drawn and whatever
    store call fails, the store is sound: keys unique, references valid, at
    most one operation in progress per berth and per vessel, the berth of an
    operation in progress Occupied and the queue entry of its vessel
    InService. *)
Theorem store_is_sound_at_all_times n berths_count w :
  db_connection w = Some empty_store ->
  integrity (tables (snd (simulate_real_time_data n
                            (initialize_database berths_count w)))) /\
  occupancy (tables (snd (simulate_real_time_data n
                            (initialize_database berths_count w)))) /\
  service (tables (snd (simulate_real_time_data n
                          (initialize_database berths_count w)))).
Proof.
  intros C.
  assert (Hs : sound (tables w)).
  { rewrite (tables_connected w _ C). exact sound_empty_store. }
  apply (initialize_keeps_sound berths_count) in Hs.
  apply (run_keeps_sound n) in Hs. exact Hs.
Qed.

Lemma store_is_sound_at_all_times_witness :
  let w := Scenario.world empty_store 0 Scenario.backlog_draws (Some 30%nat) in
  integrity (tables (snd (simulate_real_time_data 3 (initialize_database 4 w)))) /\
  occupancy (tables (snd (simulate_real_time_data 3 (initialize_database 4 w)))) /\
  service (tables (snd (simulate_real_time_data 3 (initialize_database 4 w)))).
Proof.
  apply (store_is_sound_at_all_times 3 4
           (Scenario.world empty_store 0 Scenario.backlog_draws (Some 30%nat))).
  reflexivity.
Defined.

(** X12.  [initialize_database] on a store without berths, with no store
    failure: the berths table holds one row for each number from 1 to
    [berths_count], in this order, each Available and without a maintenance
    window, with keys that differ; the other tables are as they were.  With
    [berths_count] zero or negative no berth is created. *)
Theorem initialize_creates_the_berths berths_count w d :
  db_connection w = Some d -> fault_in w = None -> t_berths d = [] ->
  map berths.berth_number (t_berths (tables (initialize_database berths_count w)))
  = range_from_1 berths_count
  /\ Forall (fun b => berths.status b = berths.available /\
                      berths.start_maintenance b = None /\
                      berths.end_maintenance b = None)
            (t_berths (tables (initialize_database berths_count w)))
  /\ NoDup (map berths.berth_id
                (t_berths (tables (initialize_database berths_count w))))
  /\ t_vessels (tables (initialize_database berths_count w)) = t_vessels d
  /\ t_vessel_queue (tables (initialize_database berths_count w)) = t_vessel_queue d
  /\ t_operations (tables (initialize_database berths_count w)) = t_operations d.
Proof.
  intros C H E.
  rewrite (tables_connected _ _ (initialize_no_fault berths_count w d C H)).
  unfold count_berths. rewrite E. simpl.
  destruct (new_berths_rest (range_from_1 berths_count) d) as (A & B & O & _).
  split; [|split; [|split]]; auto.
  - rewrite new_berths_numbers, E. reflexivity.
  - apply new_berths_available; [intros; repeat split|]. rewrite E. constructor.
  - generalize (range_from_1 berths_count). intros l.
    assert (G : forall d0, NoDup (map berths.berth_id (t_berths d0)) ->
              NoDup (map berths.berth_id
                       (t_berths (fold_left (fun d i => insert_berth i d) l d0)))).
    { induction l as [|i l IH]; intros d0 N; simpl; [exact N|].
      apply IH. simpl. rewrite map_app. simpl.
      apply NoDup_snoc; [exact N|apply next_key_is_new]. }
    apply G. rewrite E. constructor.
Qed.

Lemma initialize_creates_the_berths_witness :
  let w := Scenario.world empty_store 0 [] None in
  let d := empty_store in
  map berths.berth_number (t_berths (tables (initialize_database 4 w)))
  = range_from_1 4
  /\ Forall (fun b => berths.status b = berths.available /\
                      berths.start_maintenance b = None /\
                      berths.end_maintenance b = None)
            (t_berths (tables (initialize_database 4 w)))
  /\ NoDup (map berths.berth_id (t_berths (tables (initialize_database 4 w))))
  /\ t_vessels (tables (initialize_database 4 w)) = t_vessels d
  /\ t_vessel_queue (tables (initialize_database 4 w)) = t_vessel_queue d
  /\ t_operations (tables (initialize_database 4 w)) = t_operations d.
Proof.
  apply (initialize_creates_the_berths 4 (Scenario.world empty_store 0 [] None)
           empty_store); reflexivity.
Defined.

(** X13.  [initialize_database] on a store that has a berth leaves the
    committed tables as they are, whatever store call fails: the berths are
    created once. *)
Theorem initialize_keeps_the_berths_there_are berths_count w d :
  db_connection w = Some d -> t_berths d <> [] ->
  tables (initialize_database berths_count w) = d.
Proof.
  intros C Hb.
  destruct (guarded_tables_cases "initialize_database" (initialize_body berths_count) w
              (initialize_body_insensitive berths_count)
              (initialize_body_commits_or_raises berths_count)) as [E|E].
  - unfold initialize_database. rewrite E. now apply tables_connected.
  - unfold initialize_database. rewrite E.
    fold (initialize_database berths_count (set_fault_in None w)).
    rewrite (tables_connected _ _
               (initialize_no_fault berths_count (set_fault_in None w) d C eq_refl)).
    unfold count_berths. destruct (t_berths d); [contradiction|reflexivity].
Qed.

Lemma initialize_keeps_the_berths_there_are_witness :
  tables (initialize_database 4 (Scenario.world Scenario.busy_port 70 [] (Some 0%nat)))
  = Scenario.busy_port.
Proof.
  apply (initialize_keeps_the_berths_there_are 4
           (Scenario.world Scenario.busy_port 70 [] (Some 0%nat)) Scenario.busy_port).
  - reflexivity.
  - discriminate.
Defined.

(** ** The counter of ships generated *)

Lemma vessels_after_finalize_all t rows :
  forall d, t_vessels (finalize_all t rows d) = t_vessels d.
Proof.
  induction rows as [|r rows IH]; intros d; [reflexivity|].
  change (finalize_all t (r :: rows) d) with (finalize_all t rows (finalize t r d)).
  rewrite IH. destruct r as [[[[[[? ?] ?] ?] ?] ?] ?]. reflexivity.
Qed.

Lemma update_keeps_vessels w :
  t_vessels (tables (update_ongoing_operations w)) = t_vessels (tables w).
Proof.
  apply (step_tables_cases "update_ongoing_operations" update_body w
           (fun d d' => t_vessels d' = t_vessels d));
    [apply update_body_insensitive|apply update_body_commits_or_raises|reflexivity|].
  intros d C. fold update_ongoing_operations.
  rewrite (tables_connected _ _ (update_no_fault (set_fault_in None w) d C eq_refl)).
  apply vessels_after_finalize_all.
Qed.

Lemma release_keeps_vessels w :
  t_vessels (tables (release_maintenance_berths w)) = t_vessels (tables w).
Proof.
  apply (step_tables_cases "release_maintenance_berths" release_body w
           (fun d d' => t_vessels d' = t_vessels d));
    [apply release_body_insensitive|apply release_body_commits_or_raises|reflexivity|].
  intros d C. fold release_maintenance_berths.
  now rewrite (tables_connected _ _ (release_no_fault (set_fault_in None w) d C eq_refl)).
Qed.

Lemma allocate_keeps_vessels w :
  t_vessels (tables (allocate_ships_to_berths w)) = t_vessels (tables w).
Proof.
  rewrite allocate_tables. unfold allocate_block.
  apply (step_tables_cases "allocate_ships_to_berths" allocate_body w
           (fun d d' => t_vessels d' = t_vessels d));
    [apply allocate_body_insensitive|apply allocate_body_commits_or_raises|reflexivity|].
  intros d C. fold allocate_block.
  rewrite <- (allocate_connected (set_fault_in None w) d C).
  destruct (allocate_no_fault (set_fault_in None w) d C eq_refl) as (heads & d' & R & C').
  rewrite (tables_connected _ _ C').
  now destruct (rounds_operations _ _ _ _ _ R) as (new & _ & _ & _ & _ & Hv & _).
Qed.

Lemma start_maintenance_keeps_vessels w :
  t_vessels (tables (maybe_start_maintenance w)) = t_vessels (tables w).
Proof.
  unfold maybe_start_maintenance. simpl.
  destruct (Random.random_below 30 (entropy w (draws w))); [|reflexivity].
  apply (step_tables_cases "simulate_maintenance_event" maintenance_body
           (set_draws (S (draws w)) w) (fun d d' => t_vessels d' = t_vessels d));
    [apply maintenance_body_insensitive|apply maintenance_body_commits_or_raises
    |reflexivity|].
  intros d C. fold simulate_maintenance_event.
  rewrite (tables_connected _ _
             (maintenance_no_fault (set_fault_in None (set_draws (S (draws w)) w))
                d C eq_refl)).
  destruct (Sql.select_random_available_berth _ d) as [[bid bn]|]; reflexivity.
Qed.

(** What [insert_vessel_to_db] returns and what it stores go together. *)
Lemma insert_cases ship w :
  (fst (insert_vessel_to_db ship w) = None /\
   tables (snd (insert_vessel_to_db ship w)) = tables w)
  \/ (exists vid v,
        fst (insert_vessel_to_db ship w) = Some vid /\ 1 <= vid /\
        t_vessels (tables (snd (insert_vessel_to_db ship w)))
        = t_vessels (tables w) ++ [v]).
Proof.
  destruct (db_connection w) as [d|] eqn:C.
  2: { left. unfold insert_vessel_to_db, run. rewrite C. auto. }
  destruct (insert_no_fault ship (set_fault_in None w) d C eq_refl) as (R & D & _).
  revert R D. unfold insert_vessel_to_db, run.
  simpl (db_connection (set_fault_in None w)). rewrite C.
  match goal with
  | |- context [match ?b (w, d) with _ => _ end] =>
      assert (FI : fault_insensitive b) by block;
      assert (CR : commits_or_raises b)
        by (apply bind_commits_or_raises; [block|]; intros _;
            apply bind_commits_or_raises; [block|]; intros ?;
            apply bind_commits_or_raises; [block|]; intros ?;
            apply bind_commits_or_raises; [block|]; intros _;
            apply bind_commits_or_raises; [block|]; intros _;
            apply commit_then_commits_or_raises, ret_never_raises);
      destruct (b (w, d)) as [[a|] [w1 d1]] eqn:E
  end.
  - apply FI in E. unfold without_faults in E. simpl in E. rewrite E. simpl.
    intros [= ->] D. right. eexists. eexists. split; [reflexivity|].
    split; [apply next_key_positive|].
    unfold tables. simpl in D. rewrite D, C. reflexivity.
  - intros _ _. left. split; [reflexivity|].
    pose proof (CR _ _ E) as K. simpl in K. simpl.
    unfold tables. simpl. now rewrite K.
Qed.

Lemma spawn_counts_stored n w :
  fst (maybe_spawn_vessel (n, w)) - n
  = Z.of_nat (List.length (t_vessels (tables (snd (maybe_spawn_vessel (n, w))))))
    - Z.of_nat (List.length (t_vessels (tables w))).
Proof.
  unfold maybe_spawn_vessel. simpl.
  destruct (Random.choices 0 [(0, 40); (1, 60)] (entropy w (draws w)) =? 0);
    [|simpl; unfold tables; simpl; lia].
  destruct (generate_ship_data (set_draws (S (draws w)) w)) as [ship w1] eqn:G.
  assert (W1 : w1 = snd (generate_ship_data (set_draws (S (draws w)) w)))
    by now rewrite G.
  rewrite generate_ship_data_world in W1. simpl in W1.
  assert (T1 : tables w1 = tables w) by now subst w1.
  rewrite <- T1. clear T1 W1 G.
  destruct (insert_cases ship w1) as [[R T]|(vid & v & R & P & T)];
    destruct (insert_vessel_to_db ship w1) as [r w2]; cbn [fst snd] in *; subst r.
  - cbn [fst snd]. rewrite T. lia.
  - destruct (Z.eqb_spec vid 0); [lia|]. cbn [fst snd].
    rewrite T, length_app. cbn [List.length]. lia.
Qed.

Lemma tick_counts_stored n w :
  fst (tick (n, w)) - n
  = Z.of_nat (List.length (t_vessels (tables (snd (tick (n, w))))))
    - Z.of_nat (List.length (t_vessels (tables w))).
Proof.
  unfold tick. pose proof (spawn_counts_stored n w) as Hc.
  destruct (maybe_spawn_vessel (n, w)) as [n' w']. simpl in *.
  rewrite start_maintenance_keeps_vessels, allocate_keeps_vessels,
    release_keeps_vessels, update_keeps_vessels. exact Hc.
Qed.

(** X14.  The number of ships that [simulate_real_time_data] reports as
    generated is the number of vessels it has stored: after any number of
    rounds, whatever is drawn and whatever store call fails, it is the number
    of rows the vessels table has gained.  A vessel whose insertion failed is
    not counted, and no step removes a vessel. *)
Theorem ships_generated_counts_the_vessels_stored n w :
  fst (simulate_real_time_data n w)
  = Z.of_nat (List.length (t_vessels (tables (snd (simulate_real_time_data n w)))))
    - Z.of_nat (List.length (t_vessels (tables w))).
Proof.
  unfold simulate_real_time_data. induction n as [|n IH]; simpl.
  - rewrite release_keeps_vessels. lia.
  - destruct (Nat.iter n tick (0, release_maintenance_berths w)) as [k w'] eqn:E.
    simpl in IH. pose proof (tick_counts_stored k w'). lia.
Qed.

(** ** More on the finalization pass *)

(** One round of the finalization loop with a countdown that leaves room
    for its three store calls, or with none. *)
Lemma finalize_operation_counts current_time op w d :
  (fault_in w = None \/ exists k, fault_in w = Some (3 + k)%nat) ->
  exists w',
    finalize_operation current_time op (w, d)
    = (Ok tt, (w', finalize current_time op d)) /\
    fault_in w' = match fault_in w with
                  | Some k => Some (k - 3)%nat
                  | None => None
                  end /\
    db_connection w' = db_connection w /\
    total_ships_handled w' = total_ships_handled w + 1.
Proof.
  intros H. destruct op as [[[[[[op_id bid] vid] st] pl] vn] bn].
  unfold finalize_operation.
  destruct (efficiency_value pl (int_total_seconds (current_time - st))) as [q Eq].
  rewrite Eq. destruct w. simpl in H.
  destruct H as [H|[k H]]; subst.
  - eexists. split; [|split; [|split]].
    1: { unfold bind, execute, store_call, modify, get, info. simpl. reflexivity. }
    all: reflexivity.
  - eexists. split; [|split; [|split]].
    1: { unfold bind, execute, store_call, modify, get, info. simpl. reflexivity. }
    all: simpl; try reflexivity. now rewrite Nat.sub_0_r.
Qed.

Lemma finalize_loop_counts current_time rows :
  forall w d,
    (fault_in w = None
     \/ exists k, fault_in w = Some (3 * List.length rows + k)%nat) ->
    exists w',
      for_each rows (finalize_operation current_time) (w, d)
      = (Ok tt, (w', finalize_all current_time rows d)) /\
      fault_in w' = match fault_in w with
                    | Some k => Some (k - 3 * List.length rows)%nat
                    | None => None
                    end /\
      db_connection w' = db_connection w /\
      total_ships_handled w'
      = total_ships_handled w + Z.of_nat (List.length rows).
Proof.
  induction rows as [|r rows IH]; intros w d H.
  - exists w. simpl. repeat split; [|lia].
    destruct (fault_in w); [now rewrite Nat.sub_0_r|reflexivity].
  - destruct (finalize_operation_counts current_time r w d) as (w1 & E1 & F1 & C1 & T1).
    { destruct H as [H|[k H]]; [now left|right].
      exists (3 * List.length rows + k)%nat. rewrite H. f_equal.
      cbn [List.length]. lia. }
    destruct (IH w1 (finalize current_time r d)) as (w' & E' & F' & C' & T').
    { rewrite F1. destruct H as [H|[k H]]; rewrite H; [now left|right].
      exists k. f_equal. cbn [List.length]. lia. }
    exists w'. split; [|split; [|split]].
    + simpl. rewrite (bind_ok _ _ _ _ _ E1). exact E'.
    + rewrite F', F1. destruct (fault_in w); [|reflexivity].
      f_equal. cbn [List.length]. lia.
    + congruence.
    + rewrite T', T1. cbn [List.length]. lia.
Qed.

Lemma update_counts w d :
  db_connection w = Some d -> fault_in w = None ->
  total_ships_handled (update_ongoing_operations w)
  = total_ships_handled w
    + Z.of_nat (List.length (Sql.select_due_operations (clock w (clock_reads w)) d)).
Proof.
  intros C H. unfold update_ongoing_operations, guarded, run. rewrite C.
  unfold update_body.
  set (t := clock w (clock_reads w)).
  set (w1 := set_clock_reads (S (clock_reads w)) w).
  assert (En : now (w, d) = (Ok t, (w1, d))) by reflexivity.
  rewrite (bind_ok _ _ _ _ _ En).
  rewrite (bind_ok _ _ _ _ _ (query_no_fault _ w1 d H)).
  destruct (finalize_loop_counts t (Sql.select_due_operations t d) w1 d)
    as (w' & E' & F' & C' & T'); [now left|].
  rewrite (bind_ok _ _ _ _ _ E').
  assert (H' : fault_in w' = None) by (rewrite F'; simpl; now rewrite H).
  rewrite (commit_no_fault _ _ H'). simpl. exact T'.
Qed.

Lemma not_fetched_unchanged t rows :
  forall d o,
    In o (t_operations d) ->
    (forall r, In r rows -> fetched_operation_id r <> operations.operation_id o) ->
    In o (t_operations (finalize_all t rows d)).
Proof.
  induction rows as [|r rows IH]; intros d o Ho Hr; [exact Ho|].
  change (finalize_all t (r :: rows) d) with (finalize_all t rows (finalize t r d)).
  apply IH; [|intros; apply Hr; now right].
  rewrite finalize_operations. apply in_map_iff. exists o. split; [|exact Ho].
  destruct (Z.eqb_spec (operations.operation_id o) (fetched_operation_id r)) as [E|E];
    [|reflexivity].
  exfalso. apply (Hr r); [now left|congruence].
Qed.

Lemma berth_not_fetched_unchanged t rows :
  forall d b,
    In b (t_berths d) ->
    (forall r, In r rows -> fetched_berth_id r <> berths.berth_id b) ->
    In b (t_berths (finalize_all t rows d)).
Proof.
  induction rows as [|r rows IH]; intros d b Hb Hr; [exact Hb|].
  change (finalize_all t (r :: rows) d) with (finalize_all t rows (finalize t r d)).
  apply IH; [|intros; apply Hr; now right].
  rewrite finalize_berths. apply in_map_iff. exists b. split; [|exact Hb].
  destruct (Z.eqb_spec (berths.berth_id b) (fetched_berth_id r)) as [E|E];
    [|reflexivity].
  exfalso. apply (Hr r); [now left|congruence].
Qed.

(** X15.  A finalization pass that meets no store failure (operation_id a
    key) touches what is due and nothing else: an operation that is not due
    (completed already, or with its end after the clock reading of the pass)
    is left as it is, a berth that is not the berth of an operation in
    progress is left as it is, the vessels are left as they are, and the
    counter of ships handled goes up by the number of rows the pass has
    fetched. *)
Theorem finalization_leaves_the_rest w d :
  db_connection w = Some d -> fault_in w = None -> operation_keys_unique d ->
  (forall o, In o (t_operations d) ->
             Sql.operation_due (clock w (clock_reads w)) o = false ->
             In o (t_operations (tables (update_ongoing_operations w))))
  /\ (forall b, In b (t_berths d) ->
                (forall o, In o (t_operations d) ->
                           operations.status o = operations.in_progress ->
                           operations.berth_id o <> berths.berth_id b) ->
                In b (t_berths (tables (update_ongoing_operations w))))
  /\ t_vessels (tables (update_ongoing_operations w)) = t_vessels d
  /\ total_ships_handled (update_ongoing_operations w)
     = total_ships_handled w
       + Z.of_nat (List.length
                     (Sql.select_due_operations (clock w (clock_reads w)) d)).
Proof.
  intros C H K. rewrite (tables_connected _ _ (update_no_fault w d C H)).
  set (t := clock w (clock_reads w)).
  split; [|split; [|split]].
  - intros o Ho Nd. apply not_fetched_unchanged; [exact Ho|].
    intros r Hr E. destruct (fetched_is_due t d r Hr) as (o2 & Ho2 & Due & E2 & _).
    assert (o2 = o) by (eapply key_determines_row; eauto; congruence).
    subst o2. congruence.
  - intros b Hb Hn. apply berth_not_fetched_unchanged; [exact Hb|].
    intros r Hr E.
    destruct (fetched_comes_from_due t d r Hr) as (o & Ho & St & _ & Eb & _).
    apply (Hn o Ho St). congruence.
  - apply vessels_after_finalize_all.
  - now apply update_counts.
Qed.

Lemma finalization_leaves_the_rest_witness :
  let w := Scenario.world Scenario.busy_port 70 [] None in
  let d := Scenario.busy_port in
  (forall o, In o (t_operations d) ->
             Sql.operation_due (clock w (clock_reads w)) o = false ->
             In o (t_operations (tables (update_ongoing_operations w))))
  /\ (forall b, In b (t_berths d) ->
                (forall o, In o (t_operations d) ->
                           operations.status o = operations.in_progress ->
                           operations.berth_id o <> berths.berth_id b) ->
                In b (t_berths (tables (update_ongoing_operations w))))
  /\ t_vessels (tables (update_ongoing_operations w)) = t_vessels d
  /\ total_ships_handled (update_ongoing_operations w)
     = total_ships_handled w
       + Z.of_nat (List.length
                     (Sql.select_due_operations (clock w (clock_reads w)) d)).
Proof.
  apply (finalization_leaves_the_rest
           (Scenario.world Scenario.busy_port 70 [] None) Scenario.busy_port).
  - reflexivity.
  - reflexivity.
  - unfold operation_keys_unique. simpl. distinct_keys.
Defined.

Lemma query_with_budget {A} (q : DB -> A) w d k :
  fault_in w = Some (S k) ->
  query q (w, d) = (Ok (q d), (set_fault_in (Some k) w, d)).
Proof.
  intros H. unfold query, store_call. simpl. rewrite H. reflexivity.
Qed.

(** X16.  When the commit of a finalization pass is the store call that
    fails, the committed tables are those from before the pass, so the
    operations it fetched are still in progress there; but the counter of
    ships handled, which is kept in the simulator and not in the store, has
    gone up by the number of rows fetched all the same. *)
Theorem failed_commit_of_finalization_still_counts w d :
  db_connection w = Some d ->
  fault_in w
  = Some (1 + 3 * List.length
                    (Sql.select_due_operations (clock w (clock_reads w)) d))%nat ->
  tables (update_ongoing_operations w) = d /\
  total_ships_handled (update_ongoing_operations w)
  = total_ships_handled w
    + Z.of_nat (List.length (Sql.select_due_operations (clock w (clock_reads w)) d)).
Proof.
  intros C H. unfold update_ongoing_operations, guarded, run, tables. rewrite C.
  unfold update_body.
  set (t := clock w (clock_reads w)) in *.
  set (rows := Sql.select_due_operations t d) in *.
  set (w1 := set_clock_reads (S (clock_reads w)) w).
  assert (En : now (w, d) = (Ok t, (w1, d))) by reflexivity.
  rewrite (bind_ok _ _ _ _ _ En).
  rewrite (bind_ok _ _ _ _ _ (query_with_budget _ w1 d _ H)). fold rows.
  destruct (finalize_loop_counts t rows (set_fault_in (Some (3 * List.length rows)%nat) w1) d)
    as (w' & E' & F' & C' & T').
  { right. exists 0%nat. simpl. f_equal. lia. }
  rewrite (bind_ok _ _ _ _ _ E'). simpl in F'. rewrite Nat.sub_diag in F'.
  unfold commit, store_call. simpl. rewrite F'. simpl.
  simpl in C', T'. rewrite C', C. split; [reflexivity|exact T'].
Qed.

Lemma failed_commit_of_finalization_still_counts_witness :
  let w := Scenario.world Scenario.busy_port 70 [] (Some 4%nat) in
  tables (update_ongoing_operations w) = Scenario.busy_port /\
  total_ships_handled (update_ongoing_operations w)
  = total_ships_handled w
    + Z.of_nat (List.length
                  (Sql.select_due_operations (clock w (clock_reads w))
                                             Scenario.busy_port)).
Proof.
  apply (failed_commit_of_finalization_still_counts
           (Scenario.world Scenario.busy_port 70 [] (Some 4%nat)) Scenario.busy_port);
    reflexivity.
Defined.

(** X17.  An operation as the allocation opens it has its end timestamp at
    its start plus its planned duration.  When such an operation is
    finalized by a pass that meets no store failure (operation_id a key,
    operations referring to vessels and berths), the actual duration recorded
    is at least the planned one. *)
Theorem finalized_duration_reaches_the_plan w d o :
  db_connection w = Some d -> fault_in w = None ->
  operation_keys_unique d -> operations_refer d ->
  In o (t_operations d) ->
  operations.status o = operations.in_progress ->
  operations.end_time o
  = operations.start_time o + seconds (operations.planned_duration o) ->
  operations.end_time o <= clock w (clock_reads w) ->
  exists actual,
    In (Sql.to_completed actual o)
       (t_operations (tables (update_ongoing_operations w))) /\
    operations.planned_duration o <= actual.
Proof.
  intros C H K F Ho St Pl En.
  rewrite (tables_connected _ _ (update_no_fault w d C H)).
  set (t := clock w (clock_reads w)) in *.
  exists (int_total_seconds (t - operations.start_time o)). split.
  - assert (Due : Sql.operation_due t o = true).
    { unfold Sql.operation_due. rewrite St. simpl. now apply Z.leb_le. }
    destruct (due_is_fetched t d o F Ho Due) as (r & Hr & Eo & _).
    apply (due_operation_completed t); [exact Ho| |eauto].
    intros r' Hr' E'. destruct (fetched_is_due t d r' Hr') as (o2 & Ho2 & _ & E2 & S2).
    assert (o2 = o) by (eapply key_determines_row; eauto; congruence).
    congruence.
  - unfold int_total_seconds, seconds in *.
    rewrite <- (Z.quot_mul (operations.planned_duration o) 1000000) at 1 by lia.
    apply Z.quot_le_mono; lia.
Qed.

Lemma finalized_duration_reaches_the_plan_witness :
  let w := Scenario.world Scenario.busy_port 70 [] None in
  let o := Scenario.operation 1 7 2 (seconds 9990) (seconds 10000) 10 in
  exists actual,
    In (Sql.to_completed actual o)
       (t_operations (tables (update_ongoing_operations w))) /\
    operations.planned_duration o <= actual.
Proof.
  apply (finalized_duration_reaches_the_plan
           (Scenario.world Scenario.busy_port 70 [] None) Scenario.busy_port
           (Scenario.operation 1 7 2 (seconds 9990) (seconds 10000) 10)).
  - reflexivity.
  - reflexivity.
  - unfold operation_keys_unique. simpl. distinct_keys.
  - exact busy_port_operations_refer.
  - left. reflexivity.
  - reflexivity.
  - reflexivity.
  - vm_compute. discriminate.
Defined.

(** ** What an allocation pass leaves alone *)

Lemma rounds_frame dur bids d heads d' :
  rounds dur bids d heads d' ->
  NoDup bids ->
  (forall bid, In bid bids ->
     exists b, In b (t_berths d) /\ berths.berth_id b = bid /\
               berths.status b = berths.available) ->
  berth_keys_unique d -> one_entry_per_vessel d ->
  (forall b, In b (t_berths d) -> berths.status b <> berths.available ->
             In b (t_berths d'))
  /\ (forall q, In q (t_vessel_queue d) ->
                vessel_queue.status q <> vessel_queue.waiting ->
                In q (t_vessel_queue d')).
Proof.
  induction 1 as [d|bids d E|bid bids d [vq v] ot t heads d' E R IH];
    intros N Av K Q; auto.
  inversion N as [|? ? Hn N']; subst.
  destruct IH as [IHb IHq]; auto.
  - intros bid' Hin. destruct (Av bid' (or_intror Hin)) as (b & Hb & Eb & A).
    exists b. split; [|auto]. rewrite bind_berth_berths. apply in_map_iff.
    exists b. split; [|exact Hb].
    destruct (Z.eqb_spec (berths.berth_id b) bid); [|reflexivity].
    exfalso. apply Hn. congruence.
  - unfold berth_keys_unique. now rewrite bind_berth_berth_keys.
  - now apply one_entry_per_vessel_after_bind.
  - split.
    + intros b Hb Na. apply IHb; [|exact Na].
      rewrite bind_berth_berths. apply in_map_iff. exists b. split; [|exact Hb].
      destruct (Z.eqb_spec (berths.berth_id b) bid) as [Eb|Eb]; [|reflexivity].
      exfalso. destruct (Av bid (or_introl eq_refl)) as (b0 & Hb0 & E0 & A0).
      assert (b = b0) by (eapply key_determines_row; eauto; congruence).
      subst b0. contradiction.
    + intros q Hq Nw. apply IHq; [|exact Nw].
      rewrite bind_berth_queue. apply in_map_iff. exists q. split; [|exact Hq].
      simpl.
      destruct (Z.eqb_spec (vessel_queue.vessel_id q) (vessel_queue.vessel_id vq))
        as [Eq|Eq]; [|reflexivity].
      exfalso. destruct (first_in_order_head _ _ E) as [Hh _].
      apply in_waiting_joined in Hh. destruct Hh as (Hvq & W & _).
      assert (q = vq) by (eapply key_determines_row; eauto).
      subst q. apply Nw. now apply is_waiting_status.
Qed.

(** X18.  An allocation pass (berth_id a key, one queue entry per vessel)
    leaves alone what it does not bind, whatever store call fails: a berth
    row that is not Available (Occupied or in Maintenance) and a queue entry
    that is not Waiting (InService or Completed) are in the tables after the
    pass as they were, the vessels are as they were, and the operations there
    were are the first rows of the operations table, unchanged. *)
Theorem allocation_leaves_the_rest w d :
  db_connection w = Some d -> berth_keys_unique d -> one_entry_per_vessel d ->
  (forall b, In b (t_berths d) -> berths.status b <> berths.available ->
             In b (t_berths (tables (allocate_ships_to_berths w))))
  /\ (forall q, In q (t_vessel_queue d) ->
                vessel_queue.status q <> vessel_queue.waiting ->
                In q (t_vessel_queue (tables (allocate_ships_to_berths w))))
  /\ t_vessels (tables (allocate_ships_to_berths w)) = t_vessels d
  /\ exists new,
       t_operations (tables (allocate_ships_to_berths w)) = t_operations d ++ new.
Proof.
  intros C K Q. rewrite allocate_tables. unfold allocate_block.
  destruct (guarded_tables_cases "allocate_ships_to_berths" allocate_body w
              allocate_body_insensitive allocate_body_commits_or_raises) as [E|E];
    rewrite E.
  - rewrite (tables_connected w d C). repeat split; auto.
    exists []. now rewrite app_nil_r.
  - fold allocate_block. rewrite <- (allocate_connected (set_fault_in None w) d C).
    destruct (allocate_no_fault (set_fault_in None w) d C eq_refl)
      as (heads & d' & R & C').
    rewrite (tables_connected _ _ C').
    destruct (rounds_operations _ _ _ _ _ R) as (new & Ho & _ & _ & _ & Hv & _).
    destruct (rounds_frame _ _ _ _ _ R) as [Fb Fq]; auto.
    + rewrite available_berth_ids. now apply NoDup_map_filter.
    + intros bid Hin. rewrite available_berth_ids in Hin. apply in_map_iff in Hin.
      destruct Hin as (b & Eb & Hb). apply filter_In in Hb. destruct Hb as [Hb A].
      exists b. repeat split; auto. now apply is_available_status.
    + repeat split; auto. now exists new.
Qed.

Lemma allocation_leaves_the_rest_witness :
  let w := Scenario.world Scenario.busy_port 70 [] (Some 7%nat) in
  let d := Scenario.busy_port in
  (forall b, In b (t_berths d) -> berths.status b <> berths.available ->
             In b (t_berths (tables (allocate_ships_to_berths w))))
  /\ (forall q, In q (t_vessel_queue d) ->
                vessel_queue.status q <> vessel_queue.waiting ->
                In q (t_vessel_queue (tables (allocate_ships_to_berths w))))
  /\ t_vessels (tables (allocate_ships_to_berths w)) = t_vessels d
  /\ exists new,
       t_operations (tables (allocate_ships_to_berths w)) = t_operations d ++ new.
Proof.
  apply (allocation_leaves_the_rest
           (Scenario.world Scenario.busy_port 70 [] (Some 7%nat)) Scenario.busy_port).
  - reflexivity.
  - unfold berth_keys_unique. simpl. distinct_keys.
  - unfold one_entry_per_vessel. simpl. distinct_keys.
Defined.

(** ** The generator of [vessel.py] *)

Lemma fake_ship_fields w :
  let ship_type := Random.choice "" VesselGenerator.ShipType (entropy w (draws w)) in
  let ship := fst (VesselGenerator.generate_fake_ship_data w) in
  VesselGenerator.vessel_name ship
  = Random.choice ""
      (VesselGenerator.dict_get VesselGenerator.SHIP_NAMES ship_type
         (VesselGenerator.dict_get VesselGenerator.SHIP_NAMES "Carga Geral" []))
      (entropy w (1 + draws w)%nat)
  /\ VesselGenerator.vessel_type ship
     = Random.choices "" [("import", 7); ("export", 3)] (entropy w (2 + draws w)%nat)
  /\ VesselGenerator.priority ship
     = Random.randint 1 3 (entropy w (3 + draws w)%nat)
  /\ VesselGenerator.estimated_duration ship
     = Random.randint
         (fst (VesselGenerator.dict_get VesselGenerator.SERVICE_HOURS ship_type (8, 16)))
         (snd (VesselGenerator.dict_get VesselGenerator.SERVICE_HOURS ship_type (8, 16)))
         (entropy w (6 + draws w)%nat).
Proof.
  unfold VesselGenerator.generate_fake_ship_data,
    VesselGenerator.get_random_ship_name,
    VesselGenerator.get_realistic_service_hours.
  cbn [take_draw fst snd draws entropy set_draws].
  destruct (VesselGenerator.dict_get VesselGenerator.SERVICE_HOURS
              (Random.choice "" VesselGenerator.ShipType (entropy w (draws w))) (8, 16))
    as [min_h max_h].
  cbn [take_draw fst snd draws entropy set_draws VesselGenerator.vessel_name
       VesselGenerator.vessel_type VesselGenerator.priority
       VesselGenerator.estimated_duration].
  repeat split.
Qed.

(** X19.  The descriptor that [generate_fake_ship_data] returns: a ship type
    of the three of [ShipType] is drawn; the name is one of the names listed
    for that type, the estimated duration is in the range of hours of that
    type (so from 6 to 24 in all), the priority is 1, 2 or 3, and the field
    [vessel_type] is "import" or "export", not the ship type. *)
Theorem fake_ship_is_keyed_by_ship_type w :
  exists ship_type names_ lo hi,
    In ship_type VesselGenerator.ShipType /\
    In (ship_type, names_) VesselGenerator.SHIP_NAMES /\
    In (ship_type, (lo, hi)) VesselGenerator.SERVICE_HOURS /\
    In (VesselGenerator.vessel_name (fst (VesselGenerator.generate_fake_ship_data w)))
       names_ /\
    lo <= VesselGenerator.estimated_duration
            (fst (VesselGenerator.generate_fake_ship_data w)) <= hi /\
    6 <= lo /\ hi <= 24 /\
    1 <= VesselGenerator.priority (fst (VesselGenerator.generate_fake_ship_data w)) <= 3 /\
    In (VesselGenerator.vessel_type (fst (VesselGenerator.generate_fake_ship_data w)))
       ["import"; "export"].
Proof.
  destruct (fake_ship_fields w) as (En & Et & Ep & Ed).
  rewrite En, Et, Ep, Ed. clear En Et Ep Ed.
  pose proof (choice_in "" VesselGenerator.ShipType (entropy w (draws w))) as Hin.
  set (ship_type := Random.choice "" VesselGenerator.ShipType (entropy w (draws w))) in *.
  assert (Hp : 1 <= Random.randint 1 3 (entropy w (3 + draws w)%nat) <= 3)
    by (apply randint_range; lia).
  assert (Hv : In (Random.choices "" [("import", 7); ("export", 3)]
                     (entropy w (2 + draws w)%nat)) ["import"; "export"])
    by (apply (choices_in "" [("import", 7); ("export", 3)]); reflexivity).
  specialize (Hin ltac:(discriminate)). clearbody ship_type.
  simpl in Hin. destruct Hin as [<-|[<-|[<-|[]]]].
  - exists "Container". eexists. exists 8, 16.
    split; [simpl; tauto|]. split; [left; reflexivity|].
    split; [left; reflexivity|].
    split; [apply choice_in; discriminate|].
    split; [apply (randint_range 8 16); lia|]. repeat split; try lia; exact Hv.
  - exists "Tanker". eexists. exists 6, 12.
    split; [simpl; tauto|]. split; [right; left; reflexivity|].
    split; [right; left; reflexivity|].
    split; [apply choice_in; discriminate|].
    split; [apply (randint_range 6 12); lia|]. repeat split; try lia; exact Hv.
  - exists "Carga Geral". eexists. exists 12, 24.
    split; [simpl; tauto|]. split; [right; right; left; reflexivity|].
    split; [right; right; left; reflexivity|].
    split; [apply choice_in; discriminate|].
    split; [apply (randint_range 12 24); lia|]. repeat split; try lia; exact Hv.
Qed.

(** ** The moving average *)

Section Window.
Import MovingAverage.

Lemma nth_set_item l :
  forall idx v i, (idx < List.length l)%nat ->
    nth i (set_item l idx v) 0 = if Nat.eqb i idx then v else nth i l 0.
Proof.
  unfold set_item. induction l as [|a l IH]; intros [|idx] v [|i] H;
    simpl in H; try lia; try reflexivity.
  apply (IH idx v i). lia.
Qed.

Lemma length_set_item l :
  forall idx v, (idx < List.length l)%nat ->
    List.length (set_item l idx v) = List.length l.
Proof.
  unfold set_item. induction l as [|a l IH]; intros [|idx] v H;
    simpl in H; try lia; try reflexivity.
  simpl. f_equal. apply (IH idx v). lia.
Qed.

Lemma sum_app l1 l2 : sum (l1 ++ l2) = sum l1 + sum l2.
Proof. unfold sum. induction l1 as [|a l1 IH]; simpl; lia. Qed.

Lemma sum_zeros k : sum (repeat 0 k) = 0.
Proof. unfold sum. induction k; simpl; lia. Qed.

Lemma sum_skipn l : forall n, sum (skipn n l) = nth n l 0 + sum (skipn (S n) l).
Proof.
  induction l as [|a l IH]; intros [|n]; try reflexivity.
  change (sum (skipn n l) = nth n l 0 + sum (skipn (S n) l)). apply IH.
Qed.

Lemma sum_skipn_zeros k : forall m, sum (skipn m (repeat 0 k)) = 0.
Proof.
  induction k as [|k IH]; intros [|m]; try reflexivity.
  - apply (sum_zeros (S k)).
  - apply (IH m).
Qed.

Lemma sum_of_the_last size l :
  sum (skipn (List.length l) (padded size l)) = sum (last_values size l).
Proof.
  unfold padded, last_values. rewrite skipn_app, sum_app, repeat_length.
  rewrite sum_skipn_zeros. reflexivity.
Qed.

Lemma consistent_init size : (0 <= size) -> consistent (Z.to_nat size) [] (init size).
Proof.
  intros Hs. unfold consistent, init, padded. simpl.
  rewrite repeat_length, app_nil_r. repeat split.
  - symmetry. apply sum_zeros.
  - intros p Hp. rewrite !nth_repeat. reflexivity.
Qed.

Lemma next_keeps_consistent size vals self v :
  (0 < size)%nat -> consistent size vals self ->
  fst (next self v)
  = Some {| dividend := sum (skipn (S (List.length vals)) (padded size (vals ++ [v])));
            divisor := Z.min (Z.of_nat (S (List.length vals))) (Z.of_nat size) |}
  /\ consistent size (vals ++ [v]) (snd (next self v)).
Proof.
  intros Hs (L & C & W & I). unfold next. rewrite L.
  destruct (Z.eqb_spec (Z.of_nat size) 0) as [E|E]; [lia|].
  set (n := List.length vals) in *.
  assert (Hidx : (Z.to_nat (count self mod Z.of_nat size) < size)%nat).
  { pose proof (Z.mod_pos_bound (count self) (Z.of_nat size)). lia. }
  assert (Hold : nth (Z.to_nat (count self mod Z.of_nat size)) (window self) 0
                 = nth n (padded size vals) 0).
  { rewrite C, (I (Z.of_nat n)) by lia. now rewrite Nat2Z.id. }
  assert (Hpad : List.length (padded size vals) = (size + n)%nat).
  { unfold padded. rewrite length_app, repeat_length. reflexivity. }
  assert (Hsum : window_sum self + (v - nth n (padded size vals) 0)
                 = sum (skipn (S n) (padded size (vals ++ [v])))).
  { rewrite W, sum_skipn.
    change (padded size (vals ++ [v])) with (repeat 0 size ++ vals ++ [v]).
    rewrite app_assoc. fold (padded size vals).
    rewrite (skipn_app (S n)), sum_app, Hpad.
    replace (S n - (size + n))%nat with 0%nat by lia. simpl. unfold sum. simpl. lia. }
  cbn [count window_sum window]. rewrite Hold, Hsum, C. rewrite C in Hidx.
  replace (Z.of_nat n + 1) with (Z.of_nat (S n)) by lia.
  destruct (Z.eqb_spec (Z.min (Z.of_nat (S n)) (Z.of_nat size)) 0) as [E0|E0]; [lia|].
  cbn [fst snd]. split; [reflexivity|].
  unfold consistent. cbn [count window_sum window].
  rewrite length_app. cbn [List.length]. fold n. replace (n + 1)%nat with (S n) by lia.
  split; [rewrite length_set_item; [exact L|now rewrite L]|].
  split; [lia|]. split; [reflexivity|].
  intros p Hp. rewrite nth_set_item by now rewrite L.
  change (padded size (vals ++ [v])) with (repeat 0 size ++ vals ++ [v]).
  rewrite app_assoc. fold (padded size vals).
  destruct (Nat.eqb_spec (Z.to_nat (p mod Z.of_nat size))
              (Z.to_nat (Z.of_nat n mod Z.of_nat size))) as [Ei|Ei].
  - assert (Ep : p = Z.of_nat n + Z.of_nat size).
    { pose proof (Z.mod_pos_bound p (Z.of_nat size)).
      pose proof (Z.mod_pos_bound (Z.of_nat n) (Z.of_nat size)).
      assert (Em : p mod Z.of_nat size = Z.of_nat n mod Z.of_nat size) by lia.
      assert (Ez : (p - Z.of_nat n) mod Z.of_nat size = 0).
      { rewrite Zminus_mod, Em, Z.sub_diag. apply Z.mod_0_l. lia. }
      destruct (Z.eq_dec p (Z.of_nat n + Z.of_nat size)) as [|Ne]; [assumption|].
      rewrite Z.mod_small in Ez by lia. lia. }
    subst p. rewrite app_nth2 by (rewrite Hpad; lia). rewrite Hpad.
    replace (Z.to_nat (Z.of_nat n + Z.of_nat size) - (size + n))%nat with 0%nat by lia.
    reflexivity.
  - assert (Hlt : p < Z.of_nat n + Z.of_nat size).
    { destruct (Z.eq_dec p (Z.of_nat n + Z.of_nat size)) as [->|Ne]; [|lia].
      exfalso. apply Ei. f_equal.
      replace (Z.of_nat n + Z.of_nat size) with (Z.of_nat n + 1 * Z.of_nat size) by lia.
      now rewrite Z.mod_add by lia. }
    rewrite app_nth1 by (rewrite Hpad; lia). apply I. lia.
Qed.

Lemma feed_snoc self vals v : feed self (vals ++ [v]) = snd (next (feed self vals) v).
Proof. unfold feed. now rewrite fold_left_app. Qed.

Lemma feed_consistent size vals :
  0 < size -> consistent (Z.to_nat size) vals (feed (init size) vals).
Proof.
  intros Hs. induction vals as [|v vals IH] using rev_ind.
  - apply consistent_init. lia.
  - rewrite feed_snoc. apply next_keeps_consistent; [lia|exact IH].
Qed.

Lemma sum_set_item l :
  forall idx v, (idx < List.length l)%nat ->
    sum (set_item l idx v) = sum l + (v - nth idx l 0).
Proof.
  unfold set_item. induction l as [|a l IH]; intros [|idx] v H; simpl in H; try lia.
  - unfold sum. simpl. lia.
  - change (a + sum (firstn idx l ++ v :: skipn (S idx) l)
            = a + sum l + (v - nth idx l 0)).
    rewrite (IH idx v) by lia. lia.
Qed.

Lemma next_keeps_the_running_sum self v :
  window_sum self = sum (window self) ->
  window_sum (snd (next self v)) = sum (window (snd (next self v))).
Proof.
  intros H. unfold next.
  destruct (Z.eqb_spec (Z.of_nat (List.length (window self))) 0) as [E|E]; [exact H|].
  assert (Hidx : (Z.to_nat (count self mod Z.of_nat (List.length (window self)))
                  < List.length (window self))%nat).
  { pose proof (Z.mod_pos_bound (count self) (Z.of_nat (List.length (window self)))). lia. }
  match goal with |- context [if ?b then _ else _] => destruct b end;
    cbn [fst snd window_sum window]; rewrite sum_set_item by exact Hidx; rewrite H;
    reflexivity.
Qed.

Lemma length_last_values k l :
  List.length (last_values k l) = Nat.min (List.length l) k.
Proof. unfold last_values. rewrite length_skipn. lia. Qed.

(** X20 ([MovingAverage.next], [grafana/main.py]).  With a window of at least
    one place, the call of [next] that follows any sequence of earlier calls
    does not raise ZeroDivisionError: the division it ends with is that of
    the sum of the values given so far, the new one included, or of the last
    [size] of them once there are more than [size], by their number, which is
    at least one.  (What Python makes of that division, the nearest double or
    OverflowError, is not modelled.) *)
Theorem moving_average_is_the_mean_of_the_last_values :
  forall (size : Z) (vals : list Z) (val : Z),
    0 < size ->
    fst (next (feed (init size) vals) val)
    = Some {| dividend := sum (last_values (Z.to_nat size) (vals ++ [val]));
              divisor := Z.of_nat (List.length
                                     (last_values (Z.to_nat size) (vals ++ [val]))) |}
    /\ 1 <= Z.of_nat (List.length (last_values (Z.to_nat size) (vals ++ [val]))).
Proof.
  intros size vals val Hs.
  destruct (next_keeps_consistent (Z.to_nat size) vals (feed (init size) vals) val)
    as [R _]; [lia|now apply feed_consistent|].
  rewrite R. rewrite length_last_values.
  replace (S (List.length vals)) with (List.length (vals ++ [val]))
    by (rewrite length_app; simpl; lia).
  rewrite sum_of_the_last.
  assert (0 < List.length (vals ++ [val]))%nat by (rewrite length_app; simpl; lia).
  split; [do 2 f_equal|]; lia.
Qed.

Lemma moving_average_is_the_mean_of_the_last_values_witness :
  fst (next (feed (init 3) [4; 8; 15; 16]) 23)
  = Some {| dividend := sum (last_values (Z.to_nat 3) ([4; 8; 15; 16] ++ [23]));
            divisor := Z.of_nat (List.length
                                   (last_values (Z.to_nat 3) ([4; 8; 15; 16] ++ [23]))) |}
  /\ 1 <= Z.of_nat (List.length (last_values (Z.to_nat 3) ([4; 8; 15; 16] ++ [23]))).
Proof.
  apply (moving_average_is_the_mean_of_the_last_values 3 [4; 8; 15; 16] 23).
  reflexivity.
Defined.

(** X21 ([MovingAverage.next], [grafana/main.py]).  On an object built with
    a size of zero or less the window is empty, and [next] raises the
    ZeroDivisionError of [self.count % len(self.window)] before it has
    changed any field: the object is left as [__init__] made it. *)
Theorem moving_average_needs_a_window :
  forall (size val : Z),
    size <= 0 ->
    window (init size) = [] /\ next (init size) val = (None, init size).
Proof.
  intros size val Hs. unfold next, init. cbn [window].
  replace (Z.to_nat size) with 0%nat by lia. split; reflexivity.
Qed.

Lemma moving_average_needs_a_window_witness :
  window (init (-2)) = [] /\ next (init (-2)) 7 = (None, init (-2)).
Proof.
  apply (moving_average_needs_a_window (-2) 7). lia.
Defined.

(** X22 ([MovingAverage.__init__] and [MovingAverage.next],
    [grafana/main.py]).  Whatever the size of the window and whatever values
    have been given to [next], the running sum kept in [window_sum] is the
    sum of the values the circular buffer holds. *)
Theorem running_sum_is_the_sum_of_the_buffer :
  forall (size : Z) (vals : list Z),
    window_sum (feed (init size) vals) = sum (window (feed (init size) vals)).
Proof.
  intros size vals. induction vals as [|v vals IH] using rev_ind.
  - unfold feed, init. simpl. symmetry. apply sum_zeros.
  - rewrite feed_snoc. apply next_keeps_the_running_sum. exact IH.
Qed.

End Window.

(** ** The report of the statistics *)

Section Report.
Import Statistics.

Lemma stats_body_insensitive : fault_insensitive stats_body.
Proof. unfold stats_body, select_not_kept. block. Qed.

Lemma stats_no_fault w d :
  fault_in w = None ->
  stats_body (w, d)
  = (Ok {| current_vessels := count_vessels d; queue_length := count_queue d;
           active_operations := count_operations operations.in_progress d;
           completed_operations := count_operations operations.completed d;
           available_berths := count_berths_in berths.available d;
           occupied_berths := count_berths_in berths.occupied d;
           maintenance_berths := count_berths_in berths.maintenance d |}, (w, d)).
Proof.
  intros H. unfold stats_body, select_not_kept.
  repeat rewrite (bind_ok _ _ _ _ _ (query_no_fault _ w d H)). reflexivity.
Qed.

(** The figures of a report are the counts over the committed tables,
    whatever countdown the world had. *)
Lemma stats_fetched w f :
  fst (get_database_stats w) = Some f ->
  f = {| current_vessels := count_vessels (tables w);
         queue_length := count_queue (tables w);
         active_operations := count_operations operations.in_progress (tables w);
         completed_operations := count_operations operations.completed (tables w);
         available_berths := count_berths_in berths.available (tables w);
         occupied_berths := count_berths_in berths.occupied (tables w);
         maintenance_berths := count_berths_in berths.maintenance (tables w) |}.
Proof.
  unfold get_database_stats, run, tables.
  destruct (db_connection w) as [d|]; [|discriminate].
  destruct (stats_body (w, d)) as [[a|] [w1 d1]] eqn:E; [|discriminate].
  simpl. intros [= ->]. apply stats_body_insensitive in E.
  unfold without_faults in E. simpl in E.
  rewrite (stats_no_fault (set_fault_in None w) d eq_refl) in E.
  now injection E as <-.
Qed.

Lemma has_berth_status_true st b :
  has_berth_status st b = true <-> berths.status b = st.
Proof.
  unfold has_berth_status. destruct (berths.status b), st; simpl; split; congruence.
Qed.

Lemma in_progress_is_counted o :
  has_operation_status operations.in_progress o = is_in_progress o.
Proof. reflexivity. Qed.

(** In a sound store the operations in progress are on berths that are
    occupied, one berth each. *)
Lemma active_on_occupied d :
  sound d ->
  count_operations operations.in_progress d <= count_berths_in berths.occupied d.
Proof.
  intros (I & (_ & ND & Occ) & _).
  destruct I as (_ & _ & _ & _ & _ & Ref).
  unfold count_operations, count_berths_in. apply inj_le.
  rewrite <- (length_map operations.berth_id),
          <- (length_map berths.berth_id (filter _ (t_berths d))).
  apply NoDup_incl_length; [exact ND|].
  intros bid Hin. apply in_map_iff in Hin. destruct Hin as (o & <- & Ho).
  apply filter_In in Ho. destruct Ho as [Ho Hp].
  change (is_in_progress o = true) in Hp. apply is_in_progress_status in Hp.
  destruct (Ref o Ho) as (_ & b & Hb & Eb).
  apply in_map_iff. exists b. split; [exact Eb|].
  apply filter_In. split; [exact Hb|].
  apply has_berth_status_true. now apply (Occ o b).
Qed.

(** In a sound store there is at most one queue entry per vessel. *)
Lemma queue_within_vessels d :
  sound d -> count_queue d <= count_vessels d.
Proof.
  intros ((_ & _ & _ & One & Ref & _) & _).
  unfold count_queue, count_vessels. apply inj_le.
  rewrite <- (length_map vessel_queue.vessel_id), <- (length_map vessels.vessel_id).
  apply NoDup_incl_length; [exact One|].
  intros vid Hin. apply in_map_iff in Hin. destruct Hin as (q & <- & Hq).
  destruct (Ref q Hq) as (v & Hv & Ev). apply in_map_iff. now exists v.
Qed.

End Report.

(** ** What no step changes *)

Lemma shape_same_keys d d' : keys d' = keys d -> shape d' = shape d.
Proof.
  unfold keys, shape. intros [= Kv Kb _ _ Kq].
  apply (f_equal (@List.length Z)) in Kv, Kb, Kq.
  rewrite !length_map in Kv, Kb, Kq. now rewrite Kv, Kb, Kq.
Qed.

Lemma shape_update_berths f sel d : shape (Sql.update_berths f sel d) = shape d.
Proof. unfold shape, Sql.update_berths. simpl. now rewrite length_map. Qed.

Lemma shape_update_vessel_queue f sel d :
  shape (Sql.update_vessel_queue f sel d) = shape d.
Proof. unfold shape, Sql.update_vessel_queue. simpl. now rewrite length_map. Qed.

Lemma shape_insert_operation vid bid ot t e dur d :
  shape (Sql.insert_operation vid bid ot t e dur d) = shape d.
Proof. reflexivity. Qed.

Lemma shape_bind_berth vid bid ot t dur d : shape (bind_berth vid bid ot t dur d) = shape d.
Proof.
  unfold bind_berth, Sql.berth_occupy, Sql.queue_start_service.
  now rewrite shape_insert_operation, shape_update_berths, shape_update_vessel_queue.
Qed.

Lemma rounds_shape dur bids d heads d' :
  rounds dur bids d heads d' -> shape d' = shape d.
Proof.
  induction 1 as [d|bids d E|bid bids d h ot t heads d' E R IH];
    [reflexivity|reflexivity|].
  rewrite IH. apply shape_bind_berth.
Qed.

Lemma shape_insert ship_name ship_type prio dur customs arrival d :
  shape (Sql.insert_queue (fst (Sql.insert_vessel ship_name ship_type prio dur d)) arrival
           (Sql.insert_customs (fst (Sql.insert_vessel ship_name ship_type prio dur d))
              customs (snd (Sql.insert_vessel ship_name ship_type prio dur d))))
  = shape d.
Proof.
  unfold shape. simpl. rewrite !length_app. simpl. f_equal. lia.
Qed.

Lemma update_keeps_shape s w :
  shape (tables w) = s -> shape (tables (update_ongoing_operations w)) = s.
Proof.
  apply (guarded_preserves (fun d => shape d = s));
    [apply update_body_insensitive|apply update_body_commits_or_raises|].
  intros w0 d C H Hs. fold update_ongoing_operations.
  rewrite (tables_connected _ _ (update_no_fault w0 d C H)).
  rewrite <- Hs. apply shape_same_keys, keys_finalize_all.
Qed.

Lemma release_keeps_shape s w :
  shape (tables w) = s -> shape (tables (release_maintenance_berths w)) = s.
Proof.
  apply (guarded_preserves (fun d => shape d = s));
    [apply release_body_insensitive|apply release_body_commits_or_raises|].
  intros w0 d C H Hs. fold release_maintenance_berths.
  rewrite (tables_connected _ _ (release_no_fault w0 d C H)).
  rewrite <- Hs. apply shape_update_berths.
Qed.

Lemma allocate_keeps_shape s w :
  shape (tables w) = s -> shape (tables (allocate_ships_to_berths w)) = s.
Proof.
  rewrite allocate_tables. unfold allocate_block.
  apply (guarded_preserves (fun d => shape d = s));
    [apply allocate_body_insensitive|apply allocate_body_commits_or_raises|].
  intros w0 d C H Hs. fold allocate_block. rewrite <- (allocate_connected w0 d C).
  destruct (allocate_no_fault w0 d C H) as (heads & d' & R & C').
  rewrite (tables_connected _ _ C'), <- Hs. exact (rounds_shape _ _ _ _ _ R).
Qed.

Lemma maintenance_keeps_shape s w :
  shape (tables w) = s -> shape (tables (simulate_maintenance_event w)) = s.
Proof.
  intros Hs. destruct (maintenance_event_tables w) as [E|(t & e & bid & E)];
    rewrite E; [exact Hs|].
  rewrite <- Hs. apply shape_update_berths.
Qed.

Lemma insert_keeps_shape s ship w :
  shape (tables w) = s -> shape (tables (snd (insert_vessel_to_db ship w))) = s.
Proof.
  intros Hs. destruct (insert_tables_cases ship w) as [E|E]; rewrite E; [exact Hs|].
  destruct (db_connection w) as [d|] eqn:C.
  - destruct (insert_no_fault ship (set_fault_in None w) d C eq_refl) as (_ & D & _).
    rewrite (tables_connected _ _ D). rewrite (tables_connected w d C) in Hs.
    rewrite <- Hs. unfold shape. simpl. rewrite !length_app. simpl. f_equal. lia.
  - unfold insert_vessel_to_db, run. simpl. rewrite C. simpl.
    unfold tables in *. simpl. now rewrite C in *.
Qed.

Lemma spawn_keeps_shape s st :
  shape (tables (snd st)) = s -> shape (tables (snd (maybe_spawn_vessel st))) = s.
Proof.
  destruct st as [n w]. unfold maybe_spawn_vessel. simpl. intros Hs.
  destruct (Random.choices 0 [(0, 40); (1, 60)] (entropy w (draws w)) =? 0);
    [|exact Hs].
  destruct (generate_ship_data (set_draws (S (draws w)) w)) as [ship w1] eqn:G.
  assert (W1 : w1 = snd (generate_ship_data (set_draws (S (draws w)) w)))
    by now rewrite G.
  rewrite generate_ship_data_world in W1. simpl in W1.
  assert (S1 : shape (tables w1) = s) by (subst w1; exact Hs).
  pose proof (insert_keeps_shape s ship w1 S1) as S2.
  destruct (insert_vessel_to_db ship w1) as [[vid|] w2]; simpl in *;
    [destruct (vid =? 0)|]; exact S2.
Qed.

Lemma start_maintenance_keeps_shape s w :
  shape (tables w) = s -> shape (tables (maybe_start_maintenance w)) = s.
Proof.
  intros Hs. unfold maybe_start_maintenance. simpl.
  destruct (Random.random_below 30 (entropy w (draws w))); [|exact Hs].
  now apply maintenance_keeps_shape.
Qed.

Lemma tick_keeps_shape s st :
  shape (tables (snd st)) = s -> shape (tables (snd (tick st))) = s.
Proof.
  intros Hs. unfold tick. pose proof (spawn_keeps_shape s st Hs) as S1.
  destruct (maybe_spawn_vessel st) as [n w]. simpl in *.
  now apply start_maintenance_keeps_shape, allocate_keeps_shape,
    release_keeps_shape, update_keeps_shape.
Qed.

Lemma loop_keeps_shape n w :
  shape (tables (snd (simulate_real_time_data n w))) = shape (tables w).
Proof.
  unfold simulate_real_time_data. induction n as [|n IH]; simpl.
  - now apply release_keeps_shape.
  - now apply tick_keeps_shape.
Qed.

Lemma loop_counts_stored n w :
  fst (simulate_real_time_data n w)
  = Z.of_nat (List.length (t_vessels (tables (snd (simulate_real_time_data n w)))))
    - Z.of_nat (List.length (t_vessels (tables w))).
Proof.
  unfold simulate_real_time_data. induction n as [|n IH]; simpl.
  - rewrite release_keeps_vessels. lia.
  - destruct (Nat.iter n tick (0, release_maintenance_berths w)) as [k w'] eqn:E.
    simpl in IH. pose proof (tick_counts_stored k w'). lia.
Qed.

(** The store after [initialize_database] on an empty one: no vessel, no
    queue entry, and the berths asked for, or none when a store call has
    failed. *)
Lemma initialize_from_empty berths_count w :
  db_connection w = Some empty_store ->
  t_vessels (tables (initialize_database berths_count w)) = [] /\
  t_vessel_queue (tables (initialize_database berths_count w)) = [] /\
  (List.length (t_berths (tables (initialize_database berths_count w))) = 0%nat \/
   List.length (t_berths (tables (initialize_database berths_count w)))
   = Z.to_nat berths_count).
Proof.
  intros C.
  destruct (guarded_tables_cases "initialize_database" (initialize_body berths_count) w
              (initialize_body_insensitive _) (initialize_body_commits_or_raises _))
    as [E|E]; fold (initialize_database berths_count) in E; rewrite E.
  - rewrite (tables_connected w _ C). simpl. auto.
  - rewrite (tables_connected _ _
               (initialize_no_fault berths_count (set_fault_in None w) empty_store
                  C eq_refl)).
    change (count_berths empty_store =? 0) with true. cbv iota.
    destruct (new_berths_rest (range_from_1 berths_count) empty_store)
      as (Hv & Hq & _).
    split; [exact Hv|]. split; [exact Hq|]. right.
    rewrite <- (length_map berths.berth_number), new_berths_numbers. simpl.
    unfold range_from_1. now rewrite length_map, length_seq.
Qed.

Lemma berths_by_status d :
  Statistics.count_berths_in berths.available d
  + Statistics.count_berths_in berths.occupied d
  + Statistics.count_berths_in berths.maintenance d
  = Z.of_nat (List.length (t_berths d)).
Proof.
  unfold Statistics.count_berths_in, Statistics.has_berth_status.
  induction (t_berths d) as [|b l IH]; [reflexivity|].
  simpl. destruct (berths.status b); simpl List.length; lia.
Qed.

Lemma stats_body_keeps : keeps_committed Statistics.stats_body.
Proof. unfold Statistics.stats_body, Statistics.select_not_kept. block. Qed.

Lemma report_keeps_the_tables w :
  tables (snd (Statistics.get_database_stats w)) = tables w.
Proof.
  unfold Statistics.get_database_stats, run.
  destruct (db_connection w) as [d|] eqn:C; [|reflexivity].
  destruct (Statistics.stats_body (w, d)) as [[a|] [w1 d1]] eqn:E;
    apply stats_body_keeps in E; simpl in E; unfold tables; simpl; now rewrite E.
Qed.

(** X23 ([get_database_stats]).  The report leaves the committed tables as
    they are, on every store and whether a SELECT fails or not; and on a
    sound store, when the SELECTs have gone through, the operations in
    progress it counts are no more than the berths it counts as occupied, and
    the queue entries it counts (of every status, under the heading of the
    waiting queue) are no more than the vessels. *)
Theorem report_of_a_sound_store w :
  tables (snd (Statistics.get_database_stats w)) = tables w /\
  (sound (tables w) ->
   match fst (Statistics.get_database_stats w) with
   | None => True
   | Some f =>
       Statistics.active_operations f <= Statistics.occupied_berths f /\
       Statistics.queue_length f <= Statistics.current_vessels f
   end).
Proof.
  split; [apply report_keeps_the_tables|]. intros Hs.
  destruct (fst (Statistics.get_database_stats w)) as [f|] eqn:Hf; [|exact I].
  rewrite (stats_fetched w f Hf). simpl.
  split; [now apply active_on_occupied|now apply queue_within_vessels].
Qed.

Lemma report_of_a_sound_store_witness :
  let w := Scenario.world Scenario.busy_port 70 [] (Some 10%nat) in
  tables (snd (Statistics.get_database_stats w)) = tables w /\
  match fst (Statistics.get_database_stats w) with
  | None => True
  | Some f =>
      Statistics.active_operations f <= Statistics.occupied_berths f /\
      Statistics.queue_length f <= Statistics.current_vessels f
  end.
Proof.
  destruct (report_of_a_sound_store
              (Scenario.world Scenario.busy_port 70 [] (Some 10%nat))) as [Ht Hf].
  split; [exact Ht|exact (Hf busy_port_sound)].
Defined.

(** X24 ([run_simulation], after the constructor).  On a store that was
    empty when the simulator was built, the report that follows the loop,
    when its SELECTs have gone through and whatever was drawn and whatever
    store call failed before: the vessels it counts are the ships the loop
    has counted as generated, the queue entries it counts are as many (every
    vessel ever stored, not those waiting), the operations in progress are no
    more than the occupied berths, and the berths of the three statuses add
    up to [berths_count], or to none when [initialize_database] failed. *)
Theorem report_after_the_loop n berths_count w f :
  db_connection w = Some empty_store ->
  fst (Statistics.run_simulation n (initialize_database berths_count w)) = Some f ->
  Statistics.current_vessels f
  = fst (simulate_real_time_data n (initialize_database berths_count w)) /\
  Statistics.queue_length f = Statistics.current_vessels f /\
  Statistics.active_operations f <= Statistics.occupied_berths f /\
  (Statistics.available_berths f + Statistics.occupied_berths f
   + Statistics.maintenance_berths f = Z.max 0 berths_count
   \/ Statistics.available_berths f + Statistics.occupied_berths f
      + Statistics.maintenance_berths f = 0).
Proof.
  intros C Hf. unfold Statistics.run_simulation in Hf.
  rewrite (stats_fetched _ f Hf). cbn [Statistics.current_vessels
    Statistics.queue_length Statistics.active_operations Statistics.occupied_berths
    Statistics.available_berths Statistics.maintenance_berths].
  destruct (initialize_from_empty berths_count w C) as (Hv & Hq & Hb).
  set (w0 := initialize_database berths_count w) in *.
  pose proof (loop_keeps_shape n w0) as Sh. unfold shape in Sh.
  rewrite Hv, Hq in Sh. simpl in Sh. injection Sh as Sb Sv.
  pose proof (loop_counts_stored n w0) as Hc. rewrite Hv in Hc. simpl in Hc.
  assert (Sound : sound (tables (snd (simulate_real_time_data n w0)))).
  { apply run_keeps_sound. unfold w0. apply initialize_keeps_sound.
    rewrite (tables_connected w _ C). apply sound_empty_store. }
  unfold Statistics.count_vessels, Statistics.count_queue.
  split; [lia|]. split; [lia|]. split; [now apply active_on_occupied|].
  rewrite berths_by_status, Sb. destruct Hb as [Hb|Hb]; rewrite Hb; [right|left]; lia.
Qed.

Lemma report_after_the_loop_witness :
  let w := Scenario.world empty_store 0 Scenario.backlog_draws None in
  let f := {| Statistics.current_vessels := 3; Statistics.queue_length := 3;
              Statistics.active_operations := 2;
              Statistics.completed_operations := 0;
              Statistics.available_berths := 0; Statistics.occupied_berths := 2;
              Statistics.maintenance_berths := 2 |} in
  Statistics.current_vessels f = fst (simulate_real_time_data 3 (initialize_database 4 w)) /\
  Statistics.queue_length f = Statistics.current_vessels f /\
  Statistics.active_operations f <= Statistics.occupied_berths f /\
  (Statistics.available_berths f + Statistics.occupied_berths f
   + Statistics.maintenance_berths f = Z.max 0 4
   \/ Statistics.available_berths f + Statistics.occupied_berths f
      + Statistics.maintenance_berths f = 0).
Proof.
  apply (report_after_the_loop 3 4
           (Scenario.world empty_store 0 Scenario.backlog_draws None)).
  - reflexivity.
  - vm_compute. reflexivity.
Defined.
